(** * T31 audio capture pipeline (samples/kvsapp-ingenic-t31/source/t31_audio.c)

    A shallow embedding of the audio capture-to-encode pipeline of the
    Ingenic T31 sample: the PCM accumulator and timestamp tracker of
    [sendAudioFrame], the capture worker [audioThread], and the handle
    life cycle ([T31Audio_create], [T31Audio_terminate],
    [T31Audio_getAudioTrackInfoClone]).

    The C code works on one heap-allocated handle, on buffers it points to
    and on a handful of collaborators (device, encoder, allocator, sink,
    clock).  The embedding keeps that shape: a typed heap indexed by
    addresses, a trace of the calls made to the collaborators, and an
    environment of oracles that fixes what each collaborator answers. *)

From stdpp Require Import gmap list strings.
From Stdlib Require Import ZArith Lia.
From Stdlib Require Import Init.Byte.

Local Open Scope Z_scope.

(** ** Machine integers

    The T31 is a 32-bit MIPS SoC: [int] and [size_t] are 32 bits wide,
    [uint64_t] is 64 bits wide.  Values are kept in [Z]; every C operation
    that can wrap is followed by the conversion to its type. *)

Definition SIZE_MOD : Z := Eval cbv in 2 ^ 32.
Definition INT_MAX : Z := Eval cbv in 2 ^ 31 - 1.
Definition U64_MOD : Z := Eval cbv in 2 ^ 64.

(** conversion to [size_t] *)
Definition to_size (x : Z) : Z := x mod SIZE_MOD.
(** conversion to [int] (two's complement) *)
Definition to_int (x : Z) : Z := (x + (INT_MAX + 1)) mod SIZE_MOD - (INT_MAX + 1).
(** conversion to [uint64_t] *)
Definition to_u64 (x : Z) : Z := x mod U64_MOD.

(** ** Outcomes

    [Done] is a normal return, [Fault] is undefined behaviour (a wild
    access, a division by zero), [OutOfFuel] is a loop that did not finish
    within the given number of iterations. *)

Inductive result (A : Type) : Type :=
| Done (a : A)
| Fault
| OutOfFuel.
Arguments Done {A} a.
Arguments Fault {A}.
Arguments OutOfFuel {A}.

Definition bind {A B : Type} (m : result A) (k : A -> result B) : result B :=
  match m with
  | Done a => k a
  | Fault => Fault
  | OutOfFuel => OutOfFuel
  end.

Notation "'do' x <- m ; k" := (bind m (fun x => k))
  (at level 10, x pattern, m at level 100, k at level 200).

(** ** Data model *)

Definition ptr := Z.
Definition NULL : ptr := 0.

Definition ERRNO_NONE : Z := 0.

(** Modelled from the spec: [IMPAudioFrame] is declared in the vendor header
    imp/imp_audio.h, which is not part of the sources.  The spec describes a
    device frame as raw bytes plus a length ("getFrame() -> raw buffer +
    length"): [virAddr] is the byte buffer the device hands out, [len] the
    [int] byte count stored with it, and [pFrame->virAddr + xFrameOffset]
    is taken to advance by [xFrameOffset] bytes. *)
Record IMPAudioFrame := mkFrame { virAddr : list byte; len : Z }.

(** Modelled from the spec: the symbolic attribute values written by
    [audioConfigurationInit] come from imp/imp_audio.h. *)
Inductive imp_const :=
| IMP_ZERO
| AUDIO_SAMPLE_RATE_16000
| AUDIO_BIT_WIDTH_16
| AUDIO_SOUND_MODE_MONO.

Record IMPAudioIOAttr := mkAttr {
  samplerate : imp_const;
  bitwidth : imp_const;
  soundmode : imp_const;
  frmNum : Z;
  numPerFrm : Z;
  chnCnt : Z }.

Record IMPAudioIChnParam := mkChnParam { usrFrmDepth : Z }.

Record AudioConfiguration_t := mkConf {
  devID : Z;
  chnID : Z;
  attr : IMPAudioIOAttr;
  chnParam : IMPAudioIChnParam;
  chnVol : Z;
  aigain : Z;
  channelNumber : Z;
  sampleRate : Z;
  channel : Z;
  bitRate : Z }.

(** Static strings of sample_config.h, kept symbolic. *)
Inductive static_str := STR_NULL | AUDIO_TRACK_NAME | AUDIO_CODEC_NAME.

(** Modelled from the spec: [AudioTrackInfo_t] is declared in kvs/kvsapp.h;
    its fields are the ones [initAudioTrackInfo] writes. *)
Record AudioTrackInfo_t := mkTrackInfo {
  pTrackName : static_str;
  pCodecName : static_str;
  uFrequency : Z;
  uChannelNumber : Z;
  pCodecPrivate : ptr;
  uCodecPrivateLen : Z }.

Inductive TrackType := TRACK_VIDEO | TRACK_AUDIO.

Record T31Audio_t := mkAudio {
  lock : ptr;
  tid : Z;
  isTerminating : bool;
  isTerminated : bool;
  kvsAppHandle : Z;
  pAudioTrackInfo : ptr;
  xAudioConf : AudioConfiguration_t;
  xAacEncHandle : ptr;
  uPcmTimestamp : Z;
  pPcmBuf : ptr;
  uPcmOffset : Z;
  uPcmBufSize : Z;
  pFrameBuf : ptr;
  xFrameBufSize : Z }.

(** Field assignments [pAudio->f = v]. *)
Definition set_lock (v : ptr) (a : T31Audio_t) : T31Audio_t :=
  mkAudio v (tid a) (isTerminating a) (isTerminated a) (kvsAppHandle a)
    (pAudioTrackInfo a) (xAudioConf a) (xAacEncHandle a) (uPcmTimestamp a)
    (pPcmBuf a) (uPcmOffset a) (uPcmBufSize a) (pFrameBuf a) (xFrameBufSize a).
Definition set_tid (v : Z) (a : T31Audio_t) : T31Audio_t :=
  mkAudio (lock a) v (isTerminating a) (isTerminated a) (kvsAppHandle a)
    (pAudioTrackInfo a) (xAudioConf a) (xAacEncHandle a) (uPcmTimestamp a)
    (pPcmBuf a) (uPcmOffset a) (uPcmBufSize a) (pFrameBuf a) (xFrameBufSize a).
Definition set_isTerminating (v : bool) (a : T31Audio_t) : T31Audio_t :=
  mkAudio (lock a) (tid a) v (isTerminated a) (kvsAppHandle a)
    (pAudioTrackInfo a) (xAudioConf a) (xAacEncHandle a) (uPcmTimestamp a)
    (pPcmBuf a) (uPcmOffset a) (uPcmBufSize a) (pFrameBuf a) (xFrameBufSize a).
Definition set_isTerminated (v : bool) (a : T31Audio_t) : T31Audio_t :=
  mkAudio (lock a) (tid a) (isTerminating a) v (kvsAppHandle a)
    (pAudioTrackInfo a) (xAudioConf a) (xAacEncHandle a) (uPcmTimestamp a)
    (pPcmBuf a) (uPcmOffset a) (uPcmBufSize a) (pFrameBuf a) (xFrameBufSize a).
Definition set_kvsAppHandle (v : Z) (a : T31Audio_t) : T31Audio_t :=
  mkAudio (lock a) (tid a) (isTerminating a) (isTerminated a) v
    (pAudioTrackInfo a) (xAudioConf a) (xAacEncHandle a) (uPcmTimestamp a)
    (pPcmBuf a) (uPcmOffset a) (uPcmBufSize a) (pFrameBuf a) (xFrameBufSize a).
Definition set_pAudioTrackInfo (v : ptr) (a : T31Audio_t) : T31Audio_t :=
  mkAudio (lock a) (tid a) (isTerminating a) (isTerminated a) (kvsAppHandle a)
    v (xAudioConf a) (xAacEncHandle a) (uPcmTimestamp a)
    (pPcmBuf a) (uPcmOffset a) (uPcmBufSize a) (pFrameBuf a) (xFrameBufSize a).
Definition set_xAudioConf (v : AudioConfiguration_t) (a : T31Audio_t) : T31Audio_t :=
  mkAudio (lock a) (tid a) (isTerminating a) (isTerminated a) (kvsAppHandle a)
    (pAudioTrackInfo a) v (xAacEncHandle a) (uPcmTimestamp a)
    (pPcmBuf a) (uPcmOffset a) (uPcmBufSize a) (pFrameBuf a) (xFrameBufSize a).
Definition set_xAacEncHandle (v : ptr) (a : T31Audio_t) : T31Audio_t :=
  mkAudio (lock a) (tid a) (isTerminating a) (isTerminated a) (kvsAppHandle a)
    (pAudioTrackInfo a) (xAudioConf a) v (uPcmTimestamp a)
    (pPcmBuf a) (uPcmOffset a) (uPcmBufSize a) (pFrameBuf a) (xFrameBufSize a).
Definition set_uPcmTimestamp (v : Z) (a : T31Audio_t) : T31Audio_t :=
  mkAudio (lock a) (tid a) (isTerminating a) (isTerminated a) (kvsAppHandle a)
    (pAudioTrackInfo a) (xAudioConf a) (xAacEncHandle a) v
    (pPcmBuf a) (uPcmOffset a) (uPcmBufSize a) (pFrameBuf a) (xFrameBufSize a).
Definition set_pPcmBuf (v : ptr) (a : T31Audio_t) : T31Audio_t :=
  mkAudio (lock a) (tid a) (isTerminating a) (isTerminated a) (kvsAppHandle a)
    (pAudioTrackInfo a) (xAudioConf a) (xAacEncHandle a) (uPcmTimestamp a)
    v (uPcmOffset a) (uPcmBufSize a) (pFrameBuf a) (xFrameBufSize a).
Definition set_uPcmOffset (v : Z) (a : T31Audio_t) : T31Audio_t :=
  mkAudio (lock a) (tid a) (isTerminating a) (isTerminated a) (kvsAppHandle a)
    (pAudioTrackInfo a) (xAudioConf a) (xAacEncHandle a) (uPcmTimestamp a)
    (pPcmBuf a) v (uPcmBufSize a) (pFrameBuf a) (xFrameBufSize a).
Definition set_uPcmBufSize (v : Z) (a : T31Audio_t) : T31Audio_t :=
  mkAudio (lock a) (tid a) (isTerminating a) (isTerminated a) (kvsAppHandle a)
    (pAudioTrackInfo a) (xAudioConf a) (xAacEncHandle a) (uPcmTimestamp a)
    (pPcmBuf a) (uPcmOffset a) v (pFrameBuf a) (xFrameBufSize a).
Definition set_pFrameBuf (v : ptr) (a : T31Audio_t) : T31Audio_t :=
  mkAudio (lock a) (tid a) (isTerminating a) (isTerminated a) (kvsAppHandle a)
    (pAudioTrackInfo a) (xAudioConf a) (xAacEncHandle a) (uPcmTimestamp a)
    (pPcmBuf a) (uPcmOffset a) (uPcmBufSize a) v (xFrameBufSize a).
Definition set_xFrameBufSize (v : Z) (a : T31Audio_t) : T31Audio_t :=
  mkAudio (lock a) (tid a) (isTerminating a) (isTerminated a) (kvsAppHandle a)
    (pAudioTrackInfo a) (xAudioConf a) (xAacEncHandle a) (uPcmTimestamp a)
    (pPcmBuf a) (uPcmOffset a) (uPcmBufSize a) (pFrameBuf a) v.

(** ** The heap

    One abstract address per allocation; an address holds a whole object.
    [pointer + offset] is kept as the pair of the address and the offset. *)

Inductive obj :=
| OBytes (bs : list byte)          (* a uint8_t array *)
| OTrackInfo (ti : AudioTrackInfo_t)
| OAudio (a : T31Audio_t)
| OLock                            (* what Lock_Init returns *)
| OAacEncoder.                     (* what AacEncoder_create returns *)

(** ** Calls to the collaborators *)

Inductive imp_call :=
| IMP_AI_SetPubAttr | IMP_AI_Enable | IMP_AI_SetChnParam | IMP_AI_EnableChn
| IMP_AI_SetVol | IMP_AI_SetGain
| IMP_AI_PollingFrame | IMP_AI_GetFrame | IMP_AI_ReleaseFrame
| IMP_AI_DisableChn | IMP_AI_Disable.

Inductive msize :=
| SizeofT31Audio
| SizeofAudioTrackInfo
| NBytes (n : Z).

Inductive event :=
| EvLogError (msg : string)
| EvClock (now : Z)                       (* getEpochTimestampInMs returned now *)
| EvImp (c : imp_call) (rc : Z)           (* a device call and its return code *)
| EvEncode (pcm : list byte) (ts : Z) (rc : Z)
    (* AacEncoder_encode on the block pcm, made while uPcmTimestamp = ts *)
| EvMalloc (sz : msize) (p : ptr)         (* KVS_MALLOC returned p *)
| EvFree (p : ptr)                        (* KVS_FREE *)
| EvAddFrame (h : Z) (pData : ptr) (data : list byte) (uDataLen uDataCap : Z)
    (ts : Z) (track : TrackType)          (* KvsApp_addFrame *)
| EvLockInit (p : ptr)
| EvLock (p : ptr) (rc : Z)
| EvUnlock (p : ptr)
| EvMkvPrivateData (rc : Z) (p : ptr)
| EvAacCreate (p : ptr)
| EvThreadCreate (rc : Z) (arg : ptr)
| EvThreadJoin (t : Z)
| EvSleep (us : Z)
| EvSetTerminating (p : ptr)              (* the store p->isTerminating = true *)
| EvSetTerminated (p : ptr).              (* the store p->isTerminated = true *)

(** Modelled from the spec: the collaborators (capture device, encoder,
    allocator, lock, metadata builder, sink, clock, threads) are declared in
    headers outside the sources and "specified only by the interface the
    core needs".  What they answer is a parameter of every run: each oracle
    is indexed by the number of earlier calls of its family. *)
Record Env := mkEnv {
  clock_ret : nat -> Z;
  encode_ret : nat -> list byte -> Z * list byte;
    (* return code and the bytes the encoder writes to the output buffer *)
  malloc_ret : nat -> bool;
  imp_ret : nat -> imp_call -> Z;
  imp_frame : nat -> IMPAudioFrame;
  lock_init_ret : nat -> bool;
  lock_ret : nat -> Z;
  mkv_ret : nat -> Z * list byte;
  aac_create_ret : nat -> option Z;
    (* None: AacEncoder_create returns NULL; Some n: it stores n in its out
       parameter (the PCM block size) and returns a handle *)
  pthread_create_ret : nat -> Z;
  sched : nat -> list nat
    (* the worker threads that run, one step each, in this order, while the
       caller sleeps for the k-th time *)
}.

Inductive wstate :=
| WReady                 (* started, audioThread not yet entered *)
| WPolling (res : Z)     (* inside while (1) *)
| WExited (res : Z).

Record Thread := mkThread { th_arg : ptr; th_state : wstate }.

Record World := mkWorld {
  heap : gmap Z obj;
  brk : Z;                 (* next unused address *)
  trace : list event;      (* oldest first *)
  n_clock : nat;
  n_enc : nat;
  n_malloc : nat;
  n_imp : nat;
  n_ext : nat;             (* lock, mkv, encoder creation, threads, sleeps *)
  threads : list Thread }.

Definition set_heap (h : gmap Z obj) (w : World) : World :=
  mkWorld h (brk w) (trace w) (n_clock w) (n_enc w) (n_malloc w) (n_imp w)
    (n_ext w) (threads w).
Definition set_threads (t : list Thread) (w : World) : World :=
  mkWorld (heap w) (brk w) (trace w) (n_clock w) (n_enc w) (n_malloc w)
    (n_imp w) (n_ext w) t.
Definition emit (e : event) (w : World) : World :=
  mkWorld (heap w) (brk w) (trace w ++ [e]) (n_clock w) (n_enc w) (n_malloc w)
    (n_imp w) (n_ext w) (threads w).
Definition tick_clock (w : World) : World :=
  mkWorld (heap w) (brk w) (trace w) (S (n_clock w)) (n_enc w) (n_malloc w)
    (n_imp w) (n_ext w) (threads w).
Definition tick_enc (w : World) : World :=
  mkWorld (heap w) (brk w) (trace w) (n_clock w) (S (n_enc w)) (n_malloc w)
    (n_imp w) (n_ext w) (threads w).
Definition tick_malloc (w : World) : World :=
  mkWorld (heap w) (brk w) (trace w) (n_clock w) (n_enc w) (S (n_malloc w))
    (n_imp w) (n_ext w) (threads w).
Definition tick_imp (w : World) : World :=
  mkWorld (heap w) (brk w) (trace w) (n_clock w) (n_enc w) (n_malloc w)
    (S (n_imp w)) (n_ext w) (threads w).
Definition tick_ext (w : World) : World :=
  mkWorld (heap w) (brk w) (trace w) (n_clock w) (n_enc w) (n_malloc w)
    (n_imp w) (S (n_ext w)) (threads w).
(** a fresh address holding [o] *)
Definition alloc (o : obj) (w : World) : World * ptr :=
  (mkWorld (<[brk w := o]> (heap w)) (brk w + 1) (trace w) (n_clock w)
     (n_enc w) (n_malloc w) (n_imp w) (n_ext w) (threads w), brk w).

Definition world0 : World := mkWorld ∅ 1 [] 0 0 0 0 0 [].

(** ** Memory primitives *)

Definition LogError (msg : string) (w : World) : World := emit (EvLogError msg) w.

Definition load_audio (w : World) (p : ptr) : result T31Audio_t :=
  match heap w !! p with
  | Some (OAudio a) => Done a
  | _ => Fault
  end.

Definition store_audio (w : World) (p : ptr) (a : T31Audio_t) : result World :=
  match heap w !! p with
  | Some (OAudio _) => Done (set_heap (<[p := OAudio a]> (heap w)) w)
  | _ => Fault
  end.

(** the [n] bytes at [p + off] *)
Definition load_bytes (w : World) (p : ptr) (off n : Z) : result (list byte) :=
  match heap w !! p with
  | Some (OBytes bs) =>
      if decide (0 <= off /\ 0 <= n /\ off + n <= Z.of_nat (length bs))
      then Done (take (Z.to_nat n) (drop (Z.to_nat off) bs))
      else Fault
  | _ => Fault
  end.

(** [bs] with [src] written over it from index [off] on *)
Definition splice (bs : list byte) (off : nat) (src : list byte) : list byte :=
  take off bs ++ src ++ drop (off + length src) bs.

(** write [src] at [p + off] *)
Definition store_bytes (w : World) (p : ptr) (off : Z) (src : list byte) : result World :=
  match heap w !! p with
  | Some (OBytes bs) =>
      if decide (0 <= off /\ off + Z.of_nat (length src) <= Z.of_nat (length bs))
      then Done (set_heap (<[p := OBytes (splice bs (Z.to_nat off) src)]> (heap w)) w)
      else Fault
  | _ => Fault
  end.

(** the [n] bytes at [pFrame->virAddr + off] *)
Definition frame_load (f : IMPAudioFrame) (off n : Z) : result (list byte) :=
  if decide (0 <= off /\ 0 <= n /\ off + n <= Z.of_nat (length (virAddr f)))
  then Done (take (Z.to_nat n) (drop (Z.to_nat off) (virAddr f)))
  else Fault.

(** [KVS_MALLOC]: a fresh object, or NULL when the allocator refuses.
    Fresh memory is modelled as [init]. *)
Definition KVS_MALLOC (env : Env) (sz : msize) (init : obj) (w : World) : World * ptr :=
  if malloc_ret env (n_malloc w)
  then let '(w1, p) := alloc init (tick_malloc w) in (emit (EvMalloc sz p) w1, p)
  else (emit (EvMalloc sz NULL) (tick_malloc w), NULL).

(** [KVS_FREE]: releasing NULL does nothing, releasing a dead address is a fault *)
Definition KVS_FREE (p : ptr) (w : World) : result World :=
  if decide (p = NULL) then Done w
  else match heap w !! p with
       | Some _ => Done (emit (EvFree p) (set_heap (delete p (heap w)) w))
       | None => Fault
       end.

Definition getEpochTimestampInMs (env : Env) (w : World) : World * Z :=
  let now := to_u64 (clock_ret env (n_clock w)) in
  (emit (EvClock now) (tick_clock w), now).

Definition zeros (n : Z) : list byte := replicate (Z.to_nat n) x00.

(** ** sendAudioFrame (lines 135-205) *)

(** line 198: [(uPcmBufSize * 1000) / (sampleRate * 2)].  The product on the
    left is a [size_t] product, the one on the right an [int] product that
    is converted to [size_t] for the division; an overflowing [int] product
    and a zero divisor are faults. *)
Definition timediff (a : T31Audio_t) : result Z :=
  let divisor := sampleRate (xAudioConf a) * 2 in
  if decide (- (INT_MAX + 1) <= divisor <= INT_MAX /\ to_size divisor <> 0)
  then Done (to_size (uPcmBufSize a * 1000) / to_size divisor)
  else Fault.

(** Modelled from the spec: AacEncoder_encode is declared in
    aac_encoder/aac_encoder.h.  It consumes the block, writes at most
    [outCap] bytes to the output buffer and returns the number of bytes
    written through its last parameter. *)
Definition AacEncoder_encode (env : Env) (w : World) (pcm : list byte) (ts : Z)
    (pOut : ptr) (outCap : Z) : result (World * Z * Z) :=
  let '(rc, out) := encode_ret env (n_enc w) pcm in
  let written := take (Z.to_nat outCap) out in
  do w1 <- store_bytes w pOut 0 written;
  Done (emit (EvEncode pcm ts rc) (tick_enc w1), rc, Z.of_nat (length written)).

(** Modelled from the spec: KvsApp_addFrame is declared in kvs/kvsapp.h; it
    takes ownership of [pData].  Its return value is ignored by the caller. *)
Definition KvsApp_addFrame (w : World) (h : Z) (pData : ptr) (uDataLen uDataCap : Z)
    (ts : Z) (track : TrackType) : result World :=
  do data <- load_bytes w pData 0 uDataLen;
  Done (emit (EvAddFrame h pData data uDataLen uDataCap ts track) w).

(** lines 178-196: encode the completed block and hand the result to the sink *)
Definition encode_and_dispatch (env : Env) (w : World) (pAudio : ptr) : result World :=
  do a <- load_audio w pAudio;
  let xFrameLen := xFrameBufSize a in
  do pcm <- load_bytes w (pPcmBuf a) 0 (uPcmBufSize a);
  do (w, rc, xFrameLen) <-
     AacEncoder_encode env w pcm (uPcmTimestamp a) (pFrameBuf a) xFrameLen;
  if decide (rc <> 0) then Done (LogError "aac encode failed" w)
  else
    let uDataLen := to_size xFrameLen in
    if decide (uDataLen = 0) then Done (LogError "OOM: pData" w)
    else
      let '(w, pData) := KVS_MALLOC env (NBytes uDataLen) (OBytes (zeros uDataLen)) w in
      if decide (pData = NULL) then Done (LogError "OOM: pData" w)
      else
        do enc <- load_bytes w (pFrameBuf a) 0 uDataLen;
        do w <- store_bytes w pData 0 enc;
        KvsApp_addFrame w (kvsAppHandle a) pData uDataLen uDataLen
          (uPcmTimestamp a) TRACK_AUDIO.

(** lines 159-201: the while loop; [xFrameOffset] is the local [int] *)
Fixpoint sendAudioFrame_while (fuel : nat) (env : Env) (pAudio : ptr)
    (pFrame : IMPAudioFrame) (xFrameOffset : Z) (w : World) : result World :=
  match fuel with
  | O => OutOfFuel
  | S fuel' =>
    if decide (xFrameOffset < len pFrame) then
      do a <- load_audio w pAudio;
      if decide (to_size (uPcmBufSize a - uPcmOffset a)
                 > to_size (len pFrame - xFrameOffset)) then
        (* Remaining data is not enough to fill the pcm buffer. *)
        let uCopySize := to_size (len pFrame - xFrameOffset) in
        do src <- frame_load pFrame xFrameOffset uCopySize;
        do w <- store_bytes w (pPcmBuf a) (uPcmOffset a) src;
        let a := set_uPcmOffset (to_size (uPcmOffset a + uCopySize)) a in
        do w <- store_audio w pAudio a;
        let xFrameOffset := to_int (to_size xFrameOffset + uCopySize) in
        sendAudioFrame_while fuel' env pAudio pFrame xFrameOffset w
      else
        (* Remaining data is bigger than pcm buffer and able to do encode. *)
        let uCopySize := to_size (uPcmBufSize a - uPcmOffset a) in
        do src <- frame_load pFrame xFrameOffset uCopySize;
        do w <- store_bytes w (pPcmBuf a) (uPcmOffset a) src;
        let a := set_uPcmOffset (to_size (uPcmOffset a + uCopySize)) a in
        let xFrameOffset := to_int (to_size xFrameOffset + uCopySize) in
        let a := set_uPcmOffset 0 a in
        do w <- store_audio w pAudio a;
        do w <- encode_and_dispatch env w pAudio;
        do a <- load_audio w pAudio;
        do d <- timediff a;
        let a := set_uPcmTimestamp (to_u64 (uPcmTimestamp a + d)) a in
        do w <- store_audio w pAudio a;
        sendAudioFrame_while fuel' env pAudio pFrame xFrameOffset w
    else Done w
  end.

(** [pFrame] is [None] for a NULL frame pointer.  The result is the world and
    the returned [res]; ERRNO_FAIL is __LINE__. *)
Definition sendAudioFrame (fuel : nat) (env : Env) (w : World) (pAudio : ptr)
    (pFrame : option IMPAudioFrame) : result (World * Z) :=
  match pFrame with
  | Some frm =>
    if decide (pAudio = NULL) then Done (LogError "Invalid parameter" w, 145)
    else
      do a <- load_audio w pAudio;
      do w <- (if decide (uPcmOffset a = 0)
               then let '(w, now) := getEpochTimestampInMs env w in
                    store_audio w pAudio (set_uPcmTimestamp now a)
               else Done w);
      do w <- sendAudioFrame_while fuel env pAudio frm 0 w;
      Done (w, ERRNO_NONE)
  | None => Done (LogError "Invalid parameter" w, 145)
  end.

(** feeding the device frames of a list one after the other *)
Fixpoint sendAudioFrames (fuel : nat) (env : Env) (w : World) (pAudio : ptr)
    (frames : list IMPAudioFrame) : result World :=
  match frames with
  | [] => Done w
  | f :: frames' =>
    do (w, _) <- sendAudioFrame fuel env w pAudio (Some f);
    sendAudioFrames fuel env w pAudio frames'
  end.

(** ** audioConfigurationInit (lines 95-133) *)

(** [pConf] is [None] for a NULL pointer; the result carries the struct as
    it is after the call. *)
Definition audioConfigurationInit (pConf : option AudioConfiguration_t) (w : World)
    : World * option AudioConfiguration_t * Z :=
  match pConf with
  | None => (LogError "Invalid parameter" w, None, 102)
  | Some _ =>
    (w,
     Some (mkConf 1 0
             (mkAttr AUDIO_SAMPLE_RATE_16000 AUDIO_BIT_WIDTH_16 AUDIO_SOUND_MODE_MONO
                40 640 1)
             (mkChnParam 40) 60 28 1 16000 1 128000),
     ERRNO_NONE)
  end.

(** ** audioThread (lines 207-274) *)

(** a device call: its return code comes from the environment *)
Definition IMP (env : Env) (c : imp_call) (w : World) : World * Z :=
  let rc := imp_ret env (n_imp w) c in
  (emit (EvImp c rc) (tick_imp w), rc).

(** IMP_AI_GetFrame also fills the caller's frame *)
Definition IMP_GetFrame (env : Env) (w : World) : World * Z * IMPAudioFrame :=
  let frm := imp_frame env (n_imp w) in
  let '(w, rc) := IMP env IMP_AI_GetFrame w in
  (w, rc, frm).

(** [c1 != 0 || c2 != 0 || ...]: the calls are made in order until one fails *)
Fixpoint imp_any_fails (env : Env) (cs : list imp_call) (w : World) : World * bool :=
  match cs with
  | [] => (w, false)
  | c :: cs' =>
    let '(w, rc) := IMP env c w in
    if decide (rc <> 0) then (w, true) else imp_any_fails env cs' w
  end.

Inductive ctl := Continue | Break.

(** lines 232-261: one pass through the body of [while (1)].  [Continue] is
    a jump back to the loop head, [Break] leaves the loop. *)
Definition audioThread_iter (fuel : nat) (env : Env) (pAudio : ptr) (res : Z)
    (w : World) : result (World * ctl * Z) :=
  let '(w, rc) := IMP env IMP_AI_PollingFrame w in
  if decide (rc <> 0) then
    (* continue *)
    Done (LogError "Audio Polling Frame Data error" w, Continue, res)
  else
    let '(w, rc, frm) := IMP_GetFrame env w in
    if decide (rc <> 0) then
      Done (LogError "Audio Get Frame Data error" w, Break, 240)
    else
      do (w, r) <- sendAudioFrame fuel env w pAudio (Some frm);
      let w := if decide (r <> 0) then LogError "Failed to send Audio frame" w else w in
      let '(w, rc) := IMP env IMP_AI_ReleaseFrame w in
      if decide (rc <> 0) then
        Done (LogError "Audio release frame data error" w, Break, res)
      else
        do a <- load_audio w pAudio;
        if isTerminating a then Done (w, Break, res) else Done (w, Continue, res).

(** lines 230-262: [n] bounds the number of passes *)
Fixpoint audioThread_while (n : nat) (fuel : nat) (env : Env) (pAudio : ptr)
    (res : Z) (w : World) : result (World * Z) :=
  match n with
  | O => OutOfFuel
  | S n' =>
    do (w, c, res) <- audioThread_iter fuel env pAudio res w;
    match c with
    | Continue => audioThread_while n' fuel env pAudio res w
    | Break => Done (w, res)
    end
  end.

(** lines 213-229: the argument check and the device setup.  [Some res]: the
    loop is skipped with this [res]; [None]: the loop is entered. *)
Definition audioThread_begin (env : Env) (pAudio : ptr) (w : World)
    : result (World * option Z) :=
  if decide (pAudio = NULL) then Done (LogError "Invalid parameter" w, Some 216)
  else
    do a <- load_audio w pAudio;
    let '(w, failed) :=
      imp_any_fails env
        [IMP_AI_SetPubAttr; IMP_AI_Enable; IMP_AI_SetChnParam; IMP_AI_EnableChn;
         IMP_AI_SetVol; IMP_AI_SetGain] w in
    if failed then Done (LogError "Failed to setup audio" w, Some 226)
    else Done (w, None).

(** lines 264-268 *)
Definition audioThread_teardown (env : Env) (res : Z) (w : World) : World * Z :=
  let '(w, failed) := imp_any_fails env [IMP_AI_DisableChn; IMP_AI_Disable] w in
  if failed then (LogError "Audio device disable error" w, 267) else (w, res).

(** lines 271-273 *)
Definition audioThread_exit (pAudio : ptr) (res : Z) (w : World) : result (World * Z) :=
  do a <- load_audio w pAudio;
  do w <- store_audio w pAudio (set_isTerminated true a);
  Done (emit (EvSetTerminated pAudio) w, res).

(** the whole thread function, run to its return *)
Definition audioThread (fuel : nat) (env : Env) (arg : ptr) (w : World)
    : result (World * Z) :=
  let pAudio := arg in
  do (w, skipped) <- audioThread_begin env pAudio w;
  do (w, res) <-
    match skipped with
    | Some res => Done (w, res)
    | None =>
      do (w, res) <- audioThread_while fuel fuel env pAudio ERRNO_NONE w;
      Done (audioThread_teardown env res w)
    end;
  audioThread_exit pAudio res w.

(** ** Threads

    The caller and the workers interleave at the caller's sleeps: while the
    caller sleeps, the workers named by [sched] run one step each.  A step
    of a worker is its setup, or one pass through its loop (followed by the
    teardown and the exit when the pass leaves the loop). *)
Definition thread_step (fuel : nat) (env : Env) (th : Thread) (w : World)
    : result (World * Thread) :=
  match th_state th with
  | WReady =>
    do (w, skipped) <- audioThread_begin env (th_arg th) w;
    match skipped with
    | Some res =>
      do (w, res) <- audioThread_exit (th_arg th) res w;
      Done (w, mkThread (th_arg th) (WExited res))
    | None => Done (w, mkThread (th_arg th) (WPolling ERRNO_NONE))
    end
  | WPolling res =>
    do (w, c, res) <- audioThread_iter fuel env (th_arg th) res w;
    match c with
    | Continue => Done (w, mkThread (th_arg th) (WPolling res))
    | Break =>
      let '(w, res) := audioThread_teardown env res w in
      do (w, res) <- audioThread_exit (th_arg th) res w;
      Done (w, mkThread (th_arg th) (WExited res))
    end
  | WExited _ => Done (w, th)
  end.

Definition step_thread_at (fuel : nat) (env : Env) (i : nat) (w : World) : result World :=
  match threads w !! i with
  | Some th =>
    do (w, th') <- thread_step fuel env th w;
    Done (set_threads (<[i := th']> (threads w)) w)
  | None => Done w
  end.

Fixpoint run_sched (fuel : nat) (env : Env) (order : list nat) (w : World) : result World :=
  match order with
  | [] => Done w
  | i :: order' =>
    do w <- step_thread_at fuel env i w;
    run_sched fuel env order' w
  end.

(** lines 90-93: [usleep (ms * 1000)] on a [uint32_t] *)
Definition sleepInMs (fuel : nat) (env : Env) (ms : Z) (w : World) : result World :=
  let order := sched env (n_ext w) in
  run_sched fuel env order (emit (EvSleep (to_size (ms * 1000))) (tick_ext w)).

(** thread identifiers are positions in [threads], counted from 1 *)
Definition pthread_create (env : Env) (arg : ptr) (w : World) : World * Z * option Z :=
  let rc := pthread_create_ret env (n_ext w) in
  if decide (rc = 0) then
    let t := Z.of_nat (length (threads w)) + 1 in
    (emit (EvThreadCreate rc arg)
       (set_threads (threads w ++ [mkThread arg WReady]) (tick_ext w)), rc, Some t)
  else (emit (EvThreadCreate rc arg) (tick_ext w), rc, None).

(** [pthread_join]: blocks until the thread has returned; joining what is
    not a thread is a fault *)
Fixpoint pthread_join (n : nat) (fuel : nat) (env : Env) (t : Z) (w : World) : result World :=
  match n with
  | O => OutOfFuel
  | S n' =>
    if decide (1 <= t) then
      match threads w !! Z.to_nat (t - 1) with
      | Some th =>
        match th_state th with
        | WExited _ => Done (emit (EvThreadJoin t) w)
        | _ =>
          do w <- step_thread_at fuel env (Z.to_nat (t - 1)) w;
          pthread_join n' fuel env t w
        end
      | None => Fault
      end
    else Fault
  end.

(** ** T31Audio_terminate (lines 432-448) *)

(** lines 439-442 *)
Fixpoint terminate_wait (n : nat) (fuel : nat) (env : Env) (pAudio : ptr) (w : World)
    : result World :=
  match n with
  | O => OutOfFuel
  | S n' =>
    do a <- load_audio w pAudio;
    if isTerminated a then Done w
    else
      do w <- sleepInMs fuel env 10 w;
      terminate_wait n' fuel env pAudio w
  end.

Definition T31Audio_terminate (fuel : nat) (env : Env) (handle : ptr) (w : World)
    : result World :=
  let pAudio := handle in
  if decide (pAudio <> NULL) then
    do a <- load_audio w pAudio;
    do w <- store_audio w pAudio (set_isTerminating true a);
    let w := emit (EvSetTerminating pAudio) w in
    do w <- terminate_wait fuel fuel env pAudio w;
    do a <- load_audio w pAudio;
    do w <- pthread_join fuel fuel env (tid a) w;
    KVS_FREE pAudio w
  else Done w.

(** ** initAudioTrackInfo (lines 276-331) *)

Definition load_track_info (w : World) (p : ptr) : result AudioTrackInfo_t :=
  match heap w !! p with
  | Some (OTrackInfo ti) => Done ti
  | _ => Fault
  end.

Definition store_track_info (w : World) (p : ptr) (ti : AudioTrackInfo_t) : result World :=
  match heap w !! p with
  | Some (OTrackInfo _) => Done (set_heap (<[p := OTrackInfo ti]> (heap w)) w)
  | _ => Fault
  end.

Definition TrackInfo_zero : AudioTrackInfo_t := mkTrackInfo STR_NULL STR_NULL 0 0 NULL 0.

(** Modelled from the spec: Mkv_generateAacCodecPrivateData is declared in the
    KVS headers: [buildPrivateData(profile, sampleRate, channels) -> bytes,
    len].  On success it allocates the blob and returns its address and
    length through its out parameters. *)
Definition Mkv_generateAacCodecPrivateData (env : Env) (w : World) : World * Z * ptr * Z :=
  let '(rc, blob) := mkv_ret env (n_ext w) in
  if decide (rc = 0) then
    let '(w1, p) := alloc (OBytes blob) (tick_ext w) in
    (emit (EvMkvPrivateData rc p) w1, rc, p, Z.of_nat (length blob))
  else (emit (EvMkvPrivateData rc NULL) (tick_ext w), rc, NULL, 0).

Definition initAudioTrackInfo (env : Env) (pAudio : ptr) (w : World) : result (World * Z) :=
  if decide (pAudio = NULL) then Done (LogError "Invalid parameter" w, 286)
  else
    do a <- load_audio w pAudio;
    if decide (pAudioTrackInfo a = NULL) then
      let '(w, pInfo) := KVS_MALLOC env SizeofAudioTrackInfo (OTrackInfo TrackInfo_zero) w in
      if decide (pInfo = NULL) then
        Done (LogError "OOM: pAudioTrackInfo" w, 295)
      else
        let ti := mkTrackInfo AUDIO_TRACK_NAME AUDIO_CODEC_NAME
                    (sampleRate (xAudioConf a)) (channelNumber (xAudioConf a)) NULL 0 in
        do w <- store_track_info w pInfo ti;
        let '(w, rc, pCodecPrivateData, uCodecPrivateDataLen) :=
          Mkv_generateAacCodecPrivateData env w in
        if decide (rc <> 0) then
          let w := LogError "Failed to generate codec private data" w in
          (* lines 322-328 *)
          do w <- KVS_FREE pInfo w;
          Done (w, 309)
        else
          let ti := mkTrackInfo (pTrackName ti) (pCodecName ti) (uFrequency ti)
                      (uChannelNumber ti) pCodecPrivateData
                      (to_size uCodecPrivateDataLen) in
          do w <- store_track_info w pInfo ti;
          do w <- store_audio w pAudio (set_pAudioTrackInfo pInfo a);
          Done (w, ERRNO_NONE)
    else Done (w, ERRNO_NONE).

(** ** initAacEncoder (lines 333-374) *)

(** Modelled from the spec: AacEncoder_create is declared in
    aac_encoder/aac_encoder.h: encoder creation returns the required
    input-block size through its last parameter. *)
Definition AacEncoder_create (env : Env) (w : World) : World * ptr * option Z :=
  match aac_create_ret env (n_ext w) with
  | Some n =>
    let '(w1, h) := alloc OAacEncoder (tick_ext w) in
    (emit (EvAacCreate h) w1, h, Some n)
  | None => (emit (EvAacCreate NULL) (tick_ext w), NULL, None)
  end.

Definition initAacEncoder (env : Env) (pAudio : ptr) (w : World) : result (World * Z) :=
  if decide (pAudio = NULL) then Done (LogError "Invalid parameter" w, 341)
  else
    do a <- load_audio w pAudio;
    let '(w, xAacEncHandle, out) := AacEncoder_create env w in
    let a := match out with
             | Some n => set_uPcmBufSize (to_size n) a
             | None => a
             end in
    do w <- store_audio w pAudio a;
    if decide (xAacEncHandle = NULL) then
      Done (LogError "Failed to init aac encoder" w, 348)
    else
      let a := set_uPcmOffset 0 (set_uPcmTimestamp 0 a) in
      let '(w, p) := KVS_MALLOC env (NBytes (uPcmBufSize a))
                       (OBytes (zeros (uPcmBufSize a))) w in
      let a := set_pPcmBuf p a in
      do w <- store_audio w pAudio a;
      if decide (p = NULL) then Done (LogError "OOM: pPcmBuf" w, 358)
      else
        let '(w, p) := KVS_MALLOC env (NBytes (to_size (xFrameBufSize a)))
                         (OBytes (zeros (to_size (xFrameBufSize a)))) w in
        let a := set_pFrameBuf p a in
        do w <- store_audio w pAudio a;
        if decide (p = NULL) then Done (LogError "OOM: pFrameBuf" w, 363)
        else
          do w <- store_audio w pAudio (set_xAacEncHandle xAacEncHandle a);
          Done (w, ERRNO_NONE).

(** ** T31Audio_create (lines 376-430) *)

Definition Conf_zero : AudioConfiguration_t :=
  mkConf 0 0 (mkAttr IMP_ZERO IMP_ZERO IMP_ZERO 0 0 0) (mkChnParam 0) 0 0 0 0 0 0.

(** the handle after [memset (pAudio, 0, sizeof (T31Audio_t))] *)
Definition T31Audio_zero : T31Audio_t :=
  mkAudio NULL 0 false false 0 NULL Conf_zero NULL 0 NULL 0 0 NULL 0.

Definition Lock_Init (env : Env) (w : World) : World * ptr :=
  if lock_init_ret env (n_ext w) then
    let '(w1, p) := alloc OLock (tick_ext w) in (emit (EvLockInit p) w1, p)
  else (emit (EvLockInit NULL) (tick_ext w), NULL).

(** lines 381-421: the allocation of the handle and the creation steps; the
    result carries [pAudio] and [res] as they are at line 423 *)
Definition T31Audio_create_init (env : Env) (kvsAppHandle_ : Z) (w : World)
    : result (World * ptr * Z) :=
  let '(w, pAudio) := KVS_MALLOC env SizeofT31Audio (OAudio T31Audio_zero) w in
  do (w, res) <-
    (if decide (pAudio = NULL) then Done (LogError "OOM: pAudio" w, 384)
     else
       let a := set_xFrameBufSize (8 * 1024)
                  (set_kvsAppHandle kvsAppHandle_
                     (set_isTerminated false
                        (set_isTerminating false T31Audio_zero))) in
       do w <- store_audio w pAudio a;
       let '(w, l) := Lock_Init env w in
       let a := set_lock l a in
       do w <- store_audio w pAudio a;
       if decide (l = NULL) then Done (LogError "Failed to initialize lock" w, 399)
       else
         let '(w, conf, r) := audioConfigurationInit (Some (xAudioConf a)) w in
         let a := match conf with Some c => set_xAudioConf c a | None => a end in
         do w <- store_audio w pAudio a;
         if decide (r <> ERRNO_NONE) then
           Done (LogError "failed to init audio configuration" w, 404)
         else
           do (w, r) <- initAudioTrackInfo env pAudio w;
           if decide (r <> ERRNO_NONE) then
             Done (LogError "Failed to init audio track info" w, 409)
           else
             do (w, r) <- initAacEncoder env pAudio w;
             if decide (r <> ERRNO_NONE) then
               Done (LogError "Failed to init aac encoder" w, 414)
             else
               let '(w, rc, t) := pthread_create env pAudio w in
               do a <- load_audio w pAudio;
               let a := match t with Some t => set_tid t a | None => a end in
               do w <- store_audio w pAudio a;
               if decide (rc <> 0) then
                 Done (LogError "Failed to create video thread" w, 419)
               else Done (w, ERRNO_NONE));
  Done (w, pAudio, res).

Definition T31Audio_create (fuel : nat) (env : Env) (kvsAppHandle_ : Z) (w : World)
    : result (World * ptr) :=
  do (w, pAudio, res) <- T31Audio_create_init env kvsAppHandle_ w;
  (* lines 423-429 *)
  if decide (res <> ERRNO_NONE) then
    do w <- T31Audio_terminate fuel env pAudio w;
    Done (w, NULL)
  else Done (w, pAudio).

(** ** T31Audio_getAudioTrackInfoClone (lines 450-484) *)

Definition LOCK_OK : Z := 0.

Definition Lock (env : Env) (l : ptr) (w : World) : result (World * Z) :=
  match heap w !! l with
  | Some OLock =>
    let rc := lock_ret env (n_ext w) in
    Done (emit (EvLock l rc) (tick_ext w), rc)
  | _ => Fault
  end.

Definition Unlock (l : ptr) (w : World) : result World :=
  match heap w !! l with
  | Some OLock => Done (emit (EvUnlock l) w)
  | _ => Fault
  end.

Definition T31Audio_getAudioTrackInfoClone (env : Env) (handle : ptr) (w : World)
    : result (World * ptr) :=
  let pAudio := handle in
  if decide (pAudio = NULL) then Done (w, NULL)
  else
    do a <- load_audio w pAudio;
    do (w, rc) <- Lock env (lock a) w;
    if decide (rc <> LOCK_OK) then Done (LogError "Failed to lock" w, NULL)
    else
      do a <- load_audio w pAudio;
      do (w, pInfo) <-
        (if decide (pAudioTrackInfo a <> NULL) then
           let '(w, pInfo) :=
             KVS_MALLOC env SizeofAudioTrackInfo (OTrackInfo TrackInfo_zero) w in
           if decide (pInfo = NULL) then
             Done (LogError "OOM: pAudioTrackInfo" w, NULL)
           else
             (* memcpy of the struct *)
             do ti <- load_track_info w (pAudioTrackInfo a);
             do w <- store_track_info w pInfo ti;
             Done (w, pInfo)
         else Done (w, NULL));
      do w <- Unlock (lock a) w;
      Done (w, pInfo).

(** ** Reading a trace *)

(** the blocks passed to the encoder, each with its timestamp *)
Definition blocks_of (tr : list event) : list (list byte * Z) :=
  omap (fun e => match e with EvEncode pcm ts _ => Some (pcm, ts) | _ => None end) tr.

Definition encoded_blocks (tr : list event) : list (list byte) := (blocks_of tr).*1.

(** the sink submissions *)
Definition submissions (tr : list event) : list event :=
  omap (fun e => match e with EvAddFrame _ _ _ _ _ _ _ => Some e | _ => None end) tr.

(** the wall-clock readings *)
Definition clock_reads (tr : list event) : list Z :=
  omap (fun e => match e with EvClock t => Some t | _ => None end) tr.

(** the bytes a frame carries *)
Definition frame_bytes (f : IMPAudioFrame) : list byte :=
  take (Z.to_nat (len f)) (virAddr f).

(** a frame as the device delivers it: [len] bytes are readable at [virAddr] *)
Definition frame_ok (f : IMPAudioFrame) : Prop :=
  0 <= len f <= INT_MAX /\ len f <= Z.of_nat (length (virAddr f)).

(** ** The handle invariant

    [audio_ok w p a buf]: [p] holds the handle [a], whose PCM buffer holds
    [buf]; the buffers are live, of the recorded sizes and distinct; the
    fill offset is inside the buffer. *)
Record audio_ok (w : World) (p : ptr) (a : T31Audio_t) (buf : list byte) : Prop := {
  ok_audio : heap w !! p = Some (OAudio a);
  ok_pcm : heap w !! pPcmBuf a = Some (OBytes buf);
  ok_pcm_len : Z.of_nat (length buf) = uPcmBufSize a;
  ok_frame : exists fb, heap w !! pFrameBuf a = Some (OBytes fb) /\
                        xFrameBufSize a <= Z.of_nat (length fb);
  ok_distinct : pPcmBuf a <> pFrameBuf a;
  ok_size : 0 < uPcmBufSize a < SIZE_MOD;
  ok_offset : 0 <= uPcmOffset a < uPcmBufSize a;
  ok_fsize : 0 <= xFrameBufSize a <= INT_MAX;
  ok_rate : 0 < sampleRate (xAudioConf a) <= 1073741823;
  ok_ts : 0 <= uPcmTimestamp a < U64_MOD;
  ok_brk : 0 < brk w;
  ok_fresh : map_Forall (fun q _ => 0 < q < brk w) (heap w) }.

(** the calls made for one completed block [buf] (lines 178-196) *)
Definition dispatch_trace (env : Env) (w : World) (a : T31Audio_t) (buf : list byte)
    : list event :=
  let '(rc, out) := encode_ret env (n_enc w) buf in
  let written := take (Z.to_nat (xFrameBufSize a)) out in
  let n := Z.of_nat (length written) in
  EvEncode buf (uPcmTimestamp a) rc ::
  (if decide (rc <> 0) then [EvLogError "aac encode failed"]
   else if decide (n = 0) then [EvLogError "OOM: pData"]
   else if malloc_ret env (n_malloc w)
        then [EvMalloc (NBytes n) (brk w);
              EvAddFrame (kvsAppHandle a) (brk w) written n n (uPcmTimestamp a)
                TRACK_AUDIO]
        else [EvMalloc (NBytes n) NULL; EvLogError "OOM: pData"]).

(** ** The accumulator, on its own

    The PCM accumulator and the timestamp tracker as a function of the fill
    offset, the timestamp, the buffer and the incoming bytes: the completed
    blocks with their timestamps, and the state left behind.  [absorb] is
    what [sendAudioFrame_while] computes (see [sendAudioFrame_while_refines]). *)

Record Acc := mkAcc { acc_off : Z; acc_ts : Z; acc_buf : list byte }.

Fixpoint absorb (n : nat) (cap d : Z) (rest : list byte) (st : Acc)
    : list (list byte * Z) * Acc :=
  match n with
  | O => ([], st)
  | S n' =>
    if decide (0 < Z.of_nat (length rest)) then
      if decide (cap - acc_off st > Z.of_nat (length rest)) then
        ([], mkAcc (acc_off st + Z.of_nat (length rest)) (acc_ts st)
               (splice (acc_buf st) (Z.to_nat (acc_off st)) rest))
      else
        let k := Z.to_nat (cap - acc_off st) in
        let buf' := splice (acc_buf st) (Z.to_nat (acc_off st)) (take k rest) in
        let '(bs, st') :=
          absorb n' cap d (drop k rest) (mkAcc 0 (to_u64 (acc_ts st + d)) buf') in
        ((buf', acc_ts st) :: bs, st')
    else ([], st)
  end.

Definition acc_of (a : T31Audio_t) (buf : list byte) : Acc :=
  mkAcc (uPcmOffset a) (uPcmTimestamp a) buf.

Definition with_acc (st : Acc) (a : T31Audio_t) : T31Audio_t :=
  set_uPcmTimestamp (acc_ts st) (set_uPcmOffset (acc_off st) a).

(** the block duration when line 198 does not overflow *)
Definition blockDurationMs (a : T31Audio_t) : Z :=
  to_size (uPcmBufSize a * 1000) / (sampleRate (xAudioConf a) * 2).

(** [n] timestamps from [t] on, one block duration apart *)
Fixpoint ts_chain (d t : Z) (n : nat) : list Z :=
  match n with
  | O => []
  | S n' => t :: ts_chain d (to_u64 (t + d)) n'
  end.

(** the accumulator over a sequence of frames; [k] counts the clock readings *)
Fixpoint absorb_frames (clock : nat -> Z) (cap d : Z) (k : nat)
    (frames : list IMPAudioFrame) (st : Acc) : list (list byte * Z) * Acc * nat :=
  match frames with
  | [] => ([], st, k)
  | f :: frames' =>
    let seeded := if decide (acc_off st = 0)
                  then (mkAcc (acc_off st) (to_u64 (clock k)) (acc_buf st), S k)
                  else (st, k) in
    let r := absorb (length (frame_bytes f)) cap d (frame_bytes f) seeded.1 in
    let r' := absorb_frames clock cap d seeded.2 frames' r.2 in
    (r.1 ++ r'.1.1, r'.1.2, r'.2)
  end.

Definition acc_inv (cap : Z) (st : Acc) : Prop :=
  0 <= acc_off st < cap /\ Z.of_nat (length (acc_buf st)) = cap /\
  0 <= acc_ts st < U64_MOD.

(** the timestamp after [n] blocks *)
Definition ts_after (d t : Z) (n : nat) : Z := Nat.iter n (fun t => to_u64 (t + d)) t.


Definition total_len (frames : list IMPAudioFrame) : Z :=
  foldr (fun f acc => len f + acc) 0 frames.

(** every sink submission of [tr] carries the timestamp of the block that
    was encoded last before it; [cur] is that timestamp at the start *)
Fixpoint submit_ts_ok (cur : option Z) (tr : list event) : bool :=
  match tr with
  | [] => true
  | EvEncode _ ts _ :: tr' => submit_ts_ok (Some ts) tr'
  | EvAddFrame _ _ _ _ _ ts _ :: tr' =>
    match cur with Some t => Z.eqb ts t | None => false end && submit_ts_ok cur tr'
  | _ :: tr' => submit_ts_ok cur tr'
  end.

(** the timestamp of the last block encoded in [tr] *)
Fixpoint last_encoded (cur : option Z) (tr : list event) : option Z :=
  match tr with
  | [] => cur
  | EvEncode _ ts _ :: tr' => last_encoded (Some ts) tr'
  | _ :: tr' => last_encoded cur tr'
  end.

(** the handle with the timestamp re-seeded when the buffer is empty
    (lines 152-155) *)
Definition seed (env : Env) (w : World) (a : T31Audio_t) : T31Audio_t :=
  if decide (uPcmOffset a = 0)
  then set_uPcmTimestamp (to_u64 (clock_ret env (n_clock w))) a
  else a.

(** the largest frame length of a run: what the loop fuel has to exceed *)
Definition max_len (frames : list IMPAudioFrame) : Z :=
  foldr (fun f acc => Z.max (len f) acc) 0 frames.

(** ** A concrete pipeline, for the examples

    The environment: the clock starts at 1000000 ms; the encoder accepts the
    blocks of even rank (ten bytes of output each) and rejects the others;
    every allocation succeeds; the device delivers 100-byte frames. *)

Definition byte_at (i : nat) : byte :=
  match Byte.of_nat (i mod 256) with Some b => b | None => x00 end.

(** the bytes [start], [start + 1], ... (modulo 256) *)
Definition ramp (start n : nat) : list byte := map byte_at (seq start n).

Definition demo_env (cap : Z) : Env :=
  mkEnv (fun k => 1000000 + Z.of_nat k)
        (fun k pcm => if Nat.even k then (0, take 10 pcm) else (1, []))
        (fun _ => true)
        (fun _ _ => 0)
        (fun _ => mkFrame (ramp 0 100) 100)
        (fun _ => true)
        (fun _ => 0)
        (fun _ => (0, [x12; x10]))
        (fun _ => Some cap)
        (fun _ => 0)
        (fun _ => [0%nat]).

(** the same with an encoder that rejects every block *)
Definition deaf_env (cap : Z) : Env :=
  mkEnv (clock_ret (demo_env cap)) (fun _ _ => (1, [])) (fun _ => false)
        (imp_ret (demo_env cap)) (imp_frame (demo_env cap))
        (lock_init_ret (demo_env cap)) (lock_ret (demo_env cap))
        (mkv_ret (demo_env cap)) (aac_create_ret (demo_env cap))
        (pthread_create_ret (demo_env cap)) (sched (demo_env cap)).

(** the world and the handle right after [T31Audio_create] *)
Definition demo_world (cap : Z) : World :=
  match T31Audio_create 1 (demo_env cap) 77 world0 with
  | Done (w, _) => w
  | _ => world0
  end.

Definition demo_handle : ptr := 1.

Definition demo_audio (cap : Z) : T31Audio_t :=
  match load_audio (demo_world cap) demo_handle with
  | Done a => a
  | _ => T31Audio_zero
  end.

Definition demo_frames : list IMPAudioFrame :=
  [mkFrame (ramp 0 700) 700; mkFrame (ramp 700 900) 900; mkFrame (ramp 1600 2500) 2500].

(** the calls [sendAudioFrame] can make *)
Definition accum_event (e : event) : bool :=
  match e with
  | EvLogError _ | EvClock _ | EvEncode _ _ _ | EvMalloc _ _
  | EvAddFrame _ _ _ _ _ _ _ => true
  | _ => false
  end.

(** the calls the worker can make before it leaves: those of
    [sendAudioFrame] and the device calls *)
Definition loop_event (e : event) : bool :=
  match e with
  | EvImp _ _ => true
  | _ => accum_event e
  end.

(** [w'] is [w] after calls taken from [P]; device counter and threads are
    those of [w] *)
Definition extends (P : event -> bool) (w w' : World) : Prop :=
  exists tr, trace w' = trace w ++ tr /\ forallb P tr = true /\
             n_imp w' = n_imp w /\ threads w' = threads w.

(** the device calls of a trace, in order *)
Definition imp_calls (tr : list event) : list (imp_call * Z) :=
  omap (fun e => match e with EvImp c rc => Some (c, rc) | _ => None end) tr.

Definition is_teardown (c : imp_call) : bool :=
  match c with IMP_AI_DisableChn | IMP_AI_Disable => true | _ => false end.

(** [w'] is [w] after calls taken from [P], with the same threads *)
Definition trace_ext (P : event -> bool) (w w' : World) : Prop :=
  exists tr, trace w' = trace w ++ tr /\ forallb P tr = true /\
             threads w' = threads w.

(** the demo environment with other device answers *)
Definition with_imp (ret : nat -> imp_call -> Z) (env : Env) : Env :=
  mkEnv (clock_ret env) (encode_ret env) (malloc_ret env) ret (imp_frame env)
        (lock_init_ret env) (lock_ret env) (mkv_ret env) (aac_create_ret env)
        (pthread_create_ret env) (sched env).

(** no frame ever arrives: every poll times out *)
Definition timeout_env (cap : Z) : Env :=
  with_imp (fun _ c => match c with IMP_AI_PollingFrame => 1 | _ => 0 end)
           (demo_env cap).

(** the last configuration step fails *)
Definition nogain_env (cap : Z) : Env :=
  with_imp (fun _ c => match c with IMP_AI_SetGain => 1 | _ => 0 end)
           (demo_env cap).

(** the demo world after a termination request *)
Definition demo_world_terminating (cap : Z) : World :=
  match store_audio (demo_world cap) demo_handle
          (set_isTerminating true (demo_audio cap)) with
  | Done w => w
  | _ => world0
  end.

(** the world in which the worker of the demo pipeline has returned, after
    one processed frame *)
Definition demo_world_exited (cap : Z) : World :=
  match audioThread 101 (demo_env cap) demo_handle (demo_world_terminating cap) with
  | Done (w, _) => w
  | _ => world0
  end.

(** creation failures: one environment per creation step that can fail *)
Definition lockfail_env : Env :=
  mkEnv (clock_ret (demo_env 64)) (encode_ret (demo_env 64)) (malloc_ret (demo_env 64))
        (imp_ret (demo_env 64)) (imp_frame (demo_env 64))
        (fun _ => false)
        (lock_ret (demo_env 64)) (mkv_ret (demo_env 64))
        (aac_create_ret (demo_env 64)) (pthread_create_ret (demo_env 64))
        (sched (demo_env 64)).

Definition mkvfail_env : Env :=
  mkEnv (clock_ret (demo_env 64)) (encode_ret (demo_env 64)) (malloc_ret (demo_env 64))
        (imp_ret (demo_env 64)) (imp_frame (demo_env 64))
        (lock_init_ret (demo_env 64)) (lock_ret (demo_env 64))
        (fun _ => (1, []))
        (aac_create_ret (demo_env 64)) (pthread_create_ret (demo_env 64))
        (sched (demo_env 64)).

Definition aacfail_env : Env :=
  mkEnv (clock_ret (demo_env 64)) (encode_ret (demo_env 64)) (malloc_ret (demo_env 64))
        (imp_ret (demo_env 64)) (imp_frame (demo_env 64))
        (lock_init_ret (demo_env 64)) (lock_ret (demo_env 64)) (mkv_ret (demo_env 64))
        (fun _ => None)
        (pthread_create_ret (demo_env 64)) (sched (demo_env 64)).

(** the [k]-th allocation fails *)
Definition oom_env (k : nat) : Env :=
  mkEnv (clock_ret (demo_env 64)) (encode_ret (demo_env 64))
        (fun i => negb (Nat.eqb i k))
        (imp_ret (demo_env 64)) (imp_frame (demo_env 64))
        (lock_init_ret (demo_env 64)) (lock_ret (demo_env 64)) (mkv_ret (demo_env 64))
        (aac_create_ret (demo_env 64)) (pthread_create_ret (demo_env 64))
        (sched (demo_env 64)).

Definition threadfail_env : Env :=
  mkEnv (clock_ret (demo_env 64)) (encode_ret (demo_env 64)) (malloc_ret (demo_env 64))
        (imp_ret (demo_env 64)) (imp_frame (demo_env 64))
        (lock_init_ret (demo_env 64)) (lock_ret (demo_env 64)) (mkv_ret (demo_env 64))
        (aac_create_ret (demo_env 64))
        (fun _ => 11)
        (sched (demo_env 64)).

(** the addresses released by [KVS_FREE], in order *)
Definition frees (tr : list event) : list ptr :=
  omap (fun e => match e with EvFree p => Some p | _ => None end) tr.

(** the track info of the demo pipeline *)
Definition demo_track_info (cap : Z) : AudioTrackInfo_t :=
  match load_track_info (demo_world cap) (pAudioTrackInfo (demo_audio cap)) with
  | Done ti => ti
  | _ => TrackInfo_zero
  end.

(** the demo world after [T31Audio_terminate] *)
Definition demo_world_terminated (cap : Z) : World :=
  match T31Audio_terminate 4 (demo_env cap) demo_handle (demo_world cap) with
  | Done w => w
  | _ => world0
  end.

(** the demo world after a call of the clone accessor, and the clone *)
Definition demo_world_cloned (cap : Z) : World :=
  match T31Audio_getAudioTrackInfoClone (demo_env cap) demo_handle (demo_world cap) with
  | Done (w, _) => w
  | _ => world0
  end.

Definition demo_clone (cap : Z) : ptr :=
  match T31Audio_getAudioTrackInfoClone (demo_env cap) demo_handle (demo_world cap) with
  | Done (_, q) => q
  | _ => NULL
  end.

Definition result_is_done {A : Type} (r : result A) : bool :=
  match r with Done _ => true | _ => false end.

Definition result_is_fault {A : Type} (r : result A) : bool :=
  match r with Fault => true | _ => false end.

(** the kind of object an address holds: 0 nothing, 1 bytes, 2 a track
    info, 3 a handle, 4 a lock, 5 an encoder *)
Definition kind_at (w : World) (p : ptr) : nat :=
  match heap w !! p with
  | None => 0
  | Some (OBytes _) => 1
  | Some (OTrackInfo _) => 2
  | Some (OAudio _) => 3
  | Some OLock => 4
  | Some OAacEncoder => 5
  end.

Definition is_exited (st : wstate) : bool :=
  match st with WExited _ => true | _ => false end.

(** what a worker can add to the trace: its calls and its exit *)
Definition worker_event (e : event) : bool :=
  match e with
  | EvSetTerminated _ => true
  | _ => loop_event e
  end.

(** what can happen while [T31Audio_terminate] waits and joins *)
Definition wait_event (e : event) : bool :=
  match e with
  | EvSleep _ | EvSetTerminating _ | EvThreadJoin _ => true
  | _ => worker_event e
  end.

(** [w'] continues [w] by events of [P] *)
Definition grows (P : event -> bool) (w w' : World) : Prop :=
  exists tr, trace w' = trace w ++ tr /\ forallb P tr = true.

(** the handle at [p] is live, its worker has not been started and
    [isTerminated] is clear *)
Definition idle (p : ptr) (w : World) : Prop :=
  threads w = [] /\ p < brk w /\
  exists a, heap w !! p = Some (OAudio a) /\ isTerminated a = false.

(** ** More definitions: creation, clone, worker and ownership *)

(** the bytes of [demo_frames] in a single frame *)
Definition demo_one_frame : list IMPAudioFrame := [mkFrame (ramp 0 4100) 4100].

(** every live address is below [brk] *)
Definition heap_ok (w : World) : Prop :=
  0 < brk w /\ map_Forall (fun q _ => 0 < q < brk w) (heap w).

(** the addresses handed out by [KVS_MALLOC], in order *)
Definition mallocs (tr : list event) : list ptr :=
  omap (fun e => match e with
                 | EvMalloc _ p => if decide (p = NULL) then None else Some p
                 | _ => None
                 end) tr.

(** a world holding nothing but a zeroed handle, at address 1 *)
Definition bare_world : World := (alloc (OAudio T31Audio_zero) world0).1.

(** the configuration [audioConfigurationInit] writes *)
Definition created_conf : AudioConfiguration_t :=
  match (audioConfigurationInit (Some Conf_zero) world0).1.2 with
  | Some c => c
  | None => Conf_zero
  end.

(** the calls on the lock, in order *)
Definition lock_calls (tr : list event) : list event :=
  omap (fun e => match e with
                 | EvLock _ _ | EvUnlock _ => Some e
                 | _ => None
                 end) tr.

(** every event but the log of line 248 *)
Definition not_send_failure (e : event) : bool :=
  match e with
  | EvLogError msg => negb (String.eqb msg "Failed to send Audio frame")
  | _ => true
  end.

(** a device that answers every call with 0 and delivers readable frames,
    each shorter than the fuel of the copy loop *)
Definition responsive (fuel : nat) (env : Env) : Prop :=
  (forall k c, imp_ret env k c = 0) /\
  (forall k, frame_ok (imp_frame env k) /\ len (imp_frame env k) < Z.of_nat fuel).

(** the frames the device delivers in [n] passes of the loop, when the
    first of them polls with the [k]-th device call and every call
    succeeds: a pass makes three device calls, the second one fetches the
    frame *)
Definition delivered (env : Env) (k n : nat) : list IMPAudioFrame :=
  map (fun i => imp_frame env (k + 3 * i + 1)%nat) (seq 0 n).

(** the number of times the caller slept *)
Definition sleeps (tr : list event) : nat :=
  length (omap (fun e => match e with EvSleep us => Some us | _ => None end) tr).

(** the demo world after the first step of its worker: the device is set
    up, the worker is about to poll *)
Definition demo_world_polling (cap : Z) : World :=
  match run_sched 101 (demo_env cap) [0%nat] (demo_world cap) with
  | Done w => w
  | _ => world0
  end.

(** the demo world after its worker failed to set the device up and
    returned *)
Definition demo_world_failed : World :=
  match run_sched 4 (nogain_env 64) [0%nat] (demo_world 64) with
  | Done w => w
  | _ => world0
  end.

(** the ownership of the output copies, read on a trace: a buffer obtained
    from KVS_MALLOC is handed to the sink before anything else is allocated
    or submitted, the sink receives nothing else, and nothing is released.
    [pending] is the buffer obtained and not yet handed over. *)
Fixpoint copies_handed_over (pending : option ptr) (tr : list event) : bool :=
  match tr with
  | [] => match pending with None => true | Some _ => false end
  | EvMalloc _ p :: tr' =>
    match pending with
    | None => copies_handed_over (if decide (p = NULL) then None else Some p) tr'
    | Some _ => false
    end
  | EvAddFrame _ pData _ _ _ _ _ :: tr' =>
    match pending with
    | Some p => bool_decide (pData = p) && copies_handed_over None tr'
    | None => false
    end
  | EvFree _ :: _ => false
  | _ :: tr' => copies_handed_over pending tr'
  end.

(** from [w] to [w'] the trace grows by events that leave the verdict of
    [f] on what follows unchanged *)
Definition neutral_for (f : list event -> bool) (w w' : World) : Prop :=
  exists tr, trace w' = trace w ++ tr /\ forall rest, f (tr ++ rest) = f rest.

(** the demo world after one device frame has been absorbed *)
Definition demo_world_sent : World :=
  match sendAudioFrame 101 (demo_env 64) (demo_world 64) demo_handle
          (Some (mkFrame (ramp 0 100) 100)) with
  | Done (w, _) => w
  | _ => world0
  end.

(** the demo environment with a device whose frame fetch fails *)
Definition nofetch_env (cap : Z) : Env :=
  with_imp (fun _ c => match c with IMP_AI_GetFrame => 1 | _ => 0 end)
           (demo_env cap).

(** a handle without its two accumulator fields *)
Definition fixed_part (a : T31Audio_t) : T31Audio_t :=
  set_uPcmTimestamp 0 (set_uPcmOffset 0 a).

(** the state [sendAudioFrame] works in: nothing has been allocated below
    [b0] since the call started, and [p] holds the handle [a0], up to its
    accumulator fields *)
Definition send_state (b0 : Z) (p : ptr) (a0 : T31Audio_t) (w : World) : Prop :=
  b0 <= brk w /\
  exists a, heap w !! p = Some (OAudio a) /\ fixed_part a = fixed_part a0.

(** what [sendAudioFrame] may write: the handle and its two buffers *)
Definition footprint (p : ptr) (a0 : T31Audio_t) : list ptr :=
  [p; pPcmBuf a0; pFrameBuf a0].

(** below [b0], the addresses of [keep] apart, [w'] holds what [w] holds *)
Definition same_below (b0 : Z) (keep : list ptr) (w w' : World) : Prop :=
  forall q, q < b0 -> q ∉ keep -> heap w' !! q = heap w !! q.

(** a step that keeps the state and writes inside the footprint only *)
Definition step_ok (b0 : Z) (p : ptr) (a0 : T31Audio_t) (w w' : World) : Prop :=
  send_state b0 p a0 w ->
  send_state b0 p a0 w' /\ same_below b0 (footprint p a0) w w'.

(** the demo handle with an encoder block size of 0 *)
Definition demo_world_zero : World :=
  match store_audio (demo_world 64) demo_handle (set_uPcmBufSize 0 (demo_audio 64)) with
  | Done w => w
  | _ => world0
  end.

(** ** More definitions: block duration, frame protocol, flags *)



(** what the worker holds of the device: no frame, a frame it has fetched,
    or a frame whose release has failed *)
Inductive frame_state := NoFrame | Fetched | ReleaseFailed.

(** the frame protocol of the device, read on the device calls of a trace
    with their return codes.  IMP_AI_GetFrame is called only when no frame
    is held, and holds one when it returns 0; the call that follows a
    successful fetch is IMP_AI_ReleaseFrame, which is called at no other
    time; a release that returns 0 gives the frame back, one that fails
    leaves the frame with the worker, which from then on makes no poll,
    fetch or release.  The result is the state at the end, [None] when the
    protocol was broken. *)
Fixpoint frame_protocol (s : frame_state) (cs : list (imp_call * Z)) : option frame_state :=
  match cs with
  | [] => Some s
  | (c, rc) :: cs' =>
    match s, c with
    | NoFrame, IMP_AI_GetFrame =>
        frame_protocol (if Z.eqb rc 0 then Fetched else NoFrame) cs'
    | NoFrame, IMP_AI_ReleaseFrame => None
    | NoFrame, _ => frame_protocol NoFrame cs'
    | Fetched, IMP_AI_ReleaseFrame =>
        frame_protocol (if Z.eqb rc 0 then NoFrame else ReleaseFailed) cs'
    | Fetched, _ => None
    | ReleaseFailed, (IMP_AI_PollingFrame | IMP_AI_GetFrame | IMP_AI_ReleaseFrame) => None
    | ReleaseFailed, _ => frame_protocol ReleaseFailed cs'
    end
  end.

(** some call of IMP_AI_ReleaseFrame has failed *)
Definition release_failed (cs : list (imp_call * Z)) : bool :=
  existsb (fun c => match c with
                    | (IMP_AI_ReleaseFrame, rc) => negb (Z.eqb rc 0)
                    | _ => false
                    end) cs.

(** the calls of [tr] take the protocol from [s] to [s'] *)
Definition frame_steps (s s' : frame_state) (tr : list event) : Prop :=
  forall rest, frame_protocol s (imp_calls tr ++ rest) = frame_protocol s' rest.

(** the device answers like the demo device, but the release of the first
    frame fails *)
Definition norelease_env (cap : Z) : Env :=
  with_imp (fun _ c => match c with IMP_AI_ReleaseFrame => 1 | _ => 0 end)
           (demo_env cap).

(** the world the worker leaves on that device *)
Definition demo_world_unreleased : World :=
  match audioThread 101 (norelease_env 64) demo_handle (demo_world 64) with
  | Done (w, _) => w
  | _ => world0
  end.

(** ** The flags, read in the heap *)

(** the handle at [p], if there is one *)
Definition handle_at (w : World) (p : ptr) : option T31Audio_t :=
  match heap w !! p with Some (OAudio a) => Some a | _ => None end.

(** [isTerminated] and [isTerminating] of the handle at [p]; [false] where
    there is no handle *)
Definition terminated_at (w : World) (p : ptr) : bool :=
  match handle_at w p with Some a => isTerminated a | None => false end.

Definition terminating_at (w : World) (p : ptr) : bool :=
  match handle_at w p with Some a => isTerminating a | None => false end.

(** between [w] and [w'] no handle has been written: every handle of [w']
    is a handle of [w], with the same contents *)
Definition handles_kept (w w' : World) : Prop :=
  forall q a, handle_at w' q = Some a -> handle_at w q = Some a.

(** between [w] and [w'] nobody has turned [isTerminated] on: a handle whose
    flag is set in [w'] is a handle of [w] whose flag was set already *)
Definition flags_kept (w w' : World) : Prop :=
  forall q, terminated_at w' q = true -> terminated_at w q = true.

(** no device call has failed, the polls and the teardown calls aside *)
Definition device_ok (cs : list (imp_call * Z)) : bool :=
  forallb (fun c => match c with
                    | (IMP_AI_PollingFrame, _) | (IMP_AI_DisableChn, _)
                    | (IMP_AI_Disable, _) => true
                    | (_, rc) => Z.eqb rc 0
                    end) cs.

(** lines 213-268: the thread function up to, and without, the store of
    line 271 *)
Definition audioThread_body (fuel : nat) (env : Env) (pAudio : ptr) (w : World)
    : result (World * Z) :=
  do (w, skipped) <- audioThread_begin env pAudio w;
  match skipped with
  | Some res => Done (w, res)
  | None =>
    do (w, res) <- audioThread_while fuel fuel env pAudio ERRNO_NONE w;
    Done (audioThread_teardown env res w)
  end.

(** between [w] and [w'] the workers have kept their places and their
    arguments, a worker that had returned is as it was, and [isTerminated]
    has been turned on only in handles whose worker went from running to
    returned *)
Definition exits_only (w w' : World) : Prop :=
  length (threads w') = length (threads w) /\
  (forall i th, threads w !! i = Some th ->
     exists th', threads w' !! i = Some th' /\ th_arg th' = th_arg th /\
                 (is_exited (th_state th) = true -> th' = th)) /\
  (forall q, terminated_at w' q = true ->
     terminated_at w q = true \/
     exists i st r, threads w !! i = Some (mkThread q st) /\ is_exited st = false /\
                    threads w' !! i = Some (mkThread q (WExited r))).

(** the channel disable fails *)
Definition nodisable_env (cap : Z) : Env :=
  with_imp (fun _ c => match c with IMP_AI_DisableChn => 1 | _ => 0 end)
           (demo_env cap).

(** the world the worker leaves when, after a termination request, the
    channel disable fails *)
Definition demo_world_nodisable : World :=
  match audioThread 101 (nodisable_env 64) demo_handle (demo_world_terminating 64) with
  | Done (w, _) => w
  | _ => world0
  end.

(** the world the worker leaves when the frame fetch fails and nobody has
    asked for termination *)
Definition demo_world_nofetch : World :=
  match audioThread 101 (nofetch_env 64) demo_handle (demo_world 64) with
  | Done (w, _) => w
  | _ => world0
  end.

(** [demo_world_failed] after the store of line 438 *)
Definition demo_world_failed_requested : World :=
  match load_audio demo_world_failed demo_handle with
  | Done a =>
    match store_audio demo_world_failed demo_handle (set_isTerminating true a) with
    | Done w => w
    | _ => world0
    end
  | _ => world0
  end.

(** * Proofs *)

(** ** Arithmetic and lists *)

Lemma to_size_small x : 0 <= x < SIZE_MOD -> to_size x = x.
Proof. intros H. unfold to_size. apply Z.mod_small. exact H. Qed.

Lemma to_int_small x : - (INT_MAX + 1) <= x <= INT_MAX -> to_int x = x.
Proof.
  intros H. unfold to_int. rewrite Z.mod_small; [lia|].
  unfold INT_MAX, SIZE_MOD in *. lia.
Qed.


Lemma to_u64_range x : 0 <= to_u64 x < U64_MOD.
Proof. unfold to_u64. apply Z.mod_pos_bound. reflexivity. Qed.


Lemma length_splice bs off src :
  (off + length src <= length bs)%nat -> length (splice bs off src) = length bs.
Proof.
  intros H. unfold splice. rewrite !length_app, length_take, length_drop. lia.
Qed.

Lemma take_splice bs off src :
  (off <= length bs)%nat -> take (off + length src) (splice bs off src) = take off bs ++ src.
Proof.
  intros H. unfold splice.
  rewrite take_app_add'; [|rewrite length_take; lia].
  by rewrite take_app_length.
Qed.

Lemma splice_full bs src : length src = length bs -> splice bs 0 src = src.
Proof.
  intros H. unfold splice. simpl. rewrite drop_ge; [|lia]. by rewrite app_nil_r.
Qed.

Lemma take_splice_0 bs src n :
  (n = length src)%nat -> take n (splice bs 0 src) = src.
Proof. intros ->. unfold splice. simpl. by rewrite take_app_length. Qed.

Lemma audio_ok_same w w' p a buf :
  heap w' = heap w -> brk w' = brk w -> audio_ok w p a buf -> audio_ok w' p a buf.
Proof.
  intros Hh Hb [H1 H2 H3 H4 H5 H6 H7 H8 H9 H10 H11 H12].
  constructor; rewrite ?Hh, ?Hb; assumption.
Qed.

Lemma audio_ok_fresh w p a buf q :
  audio_ok w p a buf -> brk w <= q -> heap w !! q = None.
Proof.
  intros H Hq. destruct (heap w !! q) eqn:E; [|done].
  pose proof (ok_fresh _ _ _ _ H q o E) as Hlt. simpl in Hlt. lia.
Qed.

Lemma audio_ok_ne_pcm w p a buf : audio_ok w p a buf -> pPcmBuf a <> p.
Proof. intros H E. pose proof (ok_audio _ _ _ _ H). pose proof (ok_pcm _ _ _ _ H). congruence. Qed.

Lemma audio_ok_ne_frame w p a buf : audio_ok w p a buf -> pFrameBuf a <> p.
Proof.
  intros H E. pose proof (ok_audio _ _ _ _ H) as H1.
  destruct (ok_frame _ _ _ _ H) as (fb & H2 & _). congruence.
Qed.

Lemma load_audio_ok w p a buf : audio_ok w p a buf -> load_audio w p = Done a.
Proof. intros H. unfold load_audio. by rewrite (ok_audio _ _ _ _ H). Qed.

(** rewriting the handle: the buffers and their sizes stay, the fill offset
    stays inside the buffer *)
Lemma store_audio_ok w p a buf a' :
  audio_ok w p a buf ->
  pPcmBuf a' = pPcmBuf a -> pFrameBuf a' = pFrameBuf a ->
  uPcmBufSize a' = uPcmBufSize a -> xFrameBufSize a' = xFrameBufSize a ->
  sampleRate (xAudioConf a') = sampleRate (xAudioConf a) ->
  0 <= uPcmOffset a' < uPcmBufSize a -> 0 <= uPcmTimestamp a' < U64_MOD ->
  let w' := set_heap (<[p := OAudio a']> (heap w)) w in
  store_audio w p a' = Done w' /\ audio_ok w' p a' buf.
Proof.
  intros H E1 E2 E3 E4 E5 Ho Ht w'.
  pose proof (audio_ok_ne_pcm _ _ _ _ H) as N1.
  pose proof (audio_ok_ne_frame _ _ _ _ H) as N2.
  destruct H as [H1 H2 H3 H4 H5 H6 H7 H8 H9 H10 H11 H12].
  split; [unfold store_audio; by rewrite H1|].
  subst w'. constructor; simpl; rewrite ?E1, ?E2, ?E3, ?E4, ?E5; try assumption.
  - apply lookup_insert_eq.
  - by rewrite lookup_insert_ne.
  - destruct H4 as (fb & Hf & Hl). exists fb. by rewrite lookup_insert_ne.
  - apply map_Forall_insert_2; [|assumption].
    apply (H12 p _ H1).
Qed.

(** writing into the PCM buffer *)
Lemma store_pcm_ok w p a buf off src :
  audio_ok w p a buf ->
  0 <= off -> off + Z.of_nat (length src) <= uPcmBufSize a ->
  let buf' := splice buf (Z.to_nat off) src in
  let w' := set_heap (<[pPcmBuf a := OBytes buf']> (heap w)) w in
  store_bytes w (pPcmBuf a) off src = Done w' /\ audio_ok w' p a buf'.
Proof.
  intros H Ho Hl buf' w'.
  pose proof (audio_ok_ne_pcm _ _ _ _ H) as N1.
  destruct H as [H1 H2 H3 H4 H5 H6 H7 H8 H9 H10 H11 H12].
  split.
  - unfold store_bytes. rewrite H2. rewrite decide_True; [done|lia].
  - subst w'. constructor; simpl; try assumption.
    + by rewrite lookup_insert_ne.
    + apply lookup_insert_eq.
    + subst buf'. rewrite length_splice; [assumption|lia].
    + destruct H4 as (fb & Hf & Hfl). exists fb. by rewrite lookup_insert_ne.
    + apply map_Forall_insert_2; [|assumption]. apply (H12 _ _ H2).
Qed.

Lemma load_pcm_ok w p a buf :
  audio_ok w p a buf -> load_bytes w (pPcmBuf a) 0 (uPcmBufSize a) = Done buf.
Proof.
  intros H. unfold load_bytes. rewrite (ok_pcm _ _ _ _ H).
  pose proof (ok_pcm_len _ _ _ _ H). pose proof (ok_size _ _ _ _ H).
  rewrite decide_True; [|lia]. simpl. rewrite drop_0, take_ge; [done|lia].
Qed.

Lemma timediff_ok w p a buf :
  audio_ok w p a buf -> timediff a = Done (blockDurationMs a).
Proof.
  intros H. pose proof (ok_rate _ _ _ _ H) as Hr.
  unfold timediff, blockDurationMs.
  rewrite (to_size_small (sampleRate (xAudioConf a) * 2)); [|unfold SIZE_MOD; lia].
  rewrite decide_True; [done|]. unfold INT_MAX. lia.
Qed.

Lemma frame_load_ok f x n :
  frame_ok f -> 0 <= x -> 0 <= n -> x + n <= len f ->
  frame_load f x n = Done (take (Z.to_nat n) (drop (Z.to_nat x) (frame_bytes f))).
Proof.
  intros [Hl Hv] Hx Hn Hxn. unfold frame_load, frame_bytes.
  rewrite decide_True; [|lia]. f_equal.
  rewrite !take_drop_commute, take_take. do 2 f_equal. lia.
Qed.

Ltac wsimpl :=
  cbn [heap brk trace n_clock n_enc n_malloc n_imp n_ext threads set_heap
       set_threads emit tick_clock tick_enc tick_malloc tick_imp tick_ext alloc
       LogError fst snd bind] in *.

Ltac fin_trace :=
  repeat match goal with w := _ : World |- _ => subst w end;
  wsimpl; rewrite <- ?app_assoc; repeat split; reflexivity.

(** the encoder output lands in the frame buffer *)
Lemma store_frame_ok w p a buf src :
  audio_ok w p a buf ->
  Z.of_nat (length src) <= xFrameBufSize a ->
  exists fb,
    xFrameBufSize a <= Z.of_nat (length fb) /\
    store_bytes w (pFrameBuf a) 0 src =
      Done (set_heap (<[pFrameBuf a := OBytes (splice fb 0 src)]> (heap w)) w) /\
    audio_ok (set_heap (<[pFrameBuf a := OBytes (splice fb 0 src)]> (heap w)) w) p a buf.
Proof.
  intros H Hl.
  pose proof (audio_ok_ne_frame _ _ _ _ H) as N1.
  destruct H as [H1 H2 H3 H4 H5 H6 H7 H8 H9 H10 H11 H12].
  destruct H4 as (fb & Hf & Hfl). exists fb. split; [assumption|]. split.
  - unfold store_bytes. rewrite Hf. rewrite decide_True; [done|lia].
  - constructor; wsimpl; try assumption.
    + by rewrite lookup_insert_ne.
    + by rewrite lookup_insert_ne.
    + exists (splice fb 0 src). split; [apply lookup_insert_eq|].
      rewrite length_splice; [assumption|lia].
    + apply map_Forall_insert_2; [|assumption]. apply (H12 _ _ Hf).
Qed.

(** a fresh allocation leaves the handle alone *)
Lemma audio_ok_alloc w p a buf o :
  audio_ok w p a buf -> audio_ok (alloc o w).1 p a buf.
Proof.
  intros H.
  pose proof (audio_ok_fresh _ _ _ _ (brk w) H ltac:(lia)) as Hn.
  destruct H as [H1 H2 H3 H4 H5 H6 H7 H8 H9 H10 H11 H12].
  assert (forall q v, heap w !! q = Some v -> brk w <> q) as Hne by (intros q v Hq E; rewrite E in Hn; congruence).
  constructor; wsimpl; try assumption.
  - rewrite lookup_insert_ne; eauto.
  - rewrite lookup_insert_ne; eauto.
  - destruct H4 as (fb & Hf & Hfl). exists fb. rewrite lookup_insert_ne; eauto.
  - lia.
  - apply map_Forall_insert_2; [lia|].
    intros q v Hq. pose proof (H12 q v Hq) as Hq'. simpl in Hq'. simpl. lia.
Qed.

Lemma encode_and_dispatch_ok env w p a buf :
  audio_ok w p a buf ->
  exists w',
    encode_and_dispatch env w p = Done w' /\ audio_ok w' p a buf /\
    trace w' = trace w ++ dispatch_trace env w a buf /\
    n_clock w' = n_clock w /\ threads w' = threads w.
Proof.
  intros H. unfold encode_and_dispatch, dispatch_trace.
  rewrite (load_audio_ok _ _ _ _ H). cbn [bind].
  rewrite (load_pcm_ok _ _ _ _ H). cbn [bind].
  unfold AacEncoder_encode.
  destruct (encode_ret env (n_enc w) buf) as [rc out].
  set (written := take (Z.to_nat (xFrameBufSize a)) out).
  pose proof (ok_fsize _ _ _ _ H) as Hfs.
  assert (Z.of_nat (length written) <= xFrameBufSize a) as Hw.
  { subst written. rewrite length_take. lia. }
  destruct (store_frame_ok _ _ _ _ written H Hw) as (fb & Hfb & Hs & Hok1).
  rewrite Hs. cbn [bind].
  destruct (decide (rc <> 0)) as [Hrc|Hrc].
  { eexists. split; [reflexivity|]. split; [|fin_trace].
    eapply audio_ok_same; [| |exact Hok1]; reflexivity. }
  rewrite (to_size_small (Z.of_nat (length written))); [|unfold SIZE_MOD, INT_MAX in *; lia].
  destruct (decide (Z.of_nat (length written) = 0)) as [Hz|Hz].
  { eexists. split; [reflexivity|]. split; [|fin_trace].
    eapply audio_ok_same; [| |exact Hok1]; reflexivity. }
  unfold KVS_MALLOC. wsimpl.
  destruct (malloc_ret env (n_malloc w)) eqn:Hm; wsimpl.
  2:{ rewrite decide_True by done.
      eexists. split; [reflexivity|]. split; [|fin_trace].
      eapply audio_ok_same; [| |exact Hok1]; reflexivity. }
  pose proof (ok_brk _ _ _ _ H) as Hbrk.
  rewrite decide_False by (unfold NULL; lia).
  (* the copy out of the frame buffer *)
  pose proof (audio_ok_fresh _ _ _ _ (brk w) Hok1 ltac:(wsimpl; lia)) as Hfresh.
  wsimpl.
  assert (brk w <> pFrameBuf a) as Hne.
  { intros E. rewrite E, lookup_insert_eq in Hfresh. done. }
  unfold load_bytes at 1. wsimpl.
  rewrite lookup_insert_ne by done. rewrite lookup_insert_eq.
  rewrite decide_True.
  2:{ rewrite length_splice; simpl; lia. }
  rewrite drop_0, Nat2Z.id, take_splice_0 by done. cbn [bind].
  unfold store_bytes. wsimpl. rewrite lookup_insert_eq.
  assert (length (zeros (Z.of_nat (length written))) = length written) as Hzl.
  { unfold zeros. rewrite length_replicate. lia. }
  rewrite decide_True by (rewrite Hzl; lia). cbn [bind].
  unfold KvsApp_addFrame, load_bytes. wsimpl. rewrite lookup_insert_eq.
  rewrite splice_full by done.
  rewrite decide_True by lia.
  rewrite drop_0, Nat2Z.id, firstn_all. cbn [bind].
  eexists. split; [reflexivity|]. split; [|fin_trace].
  eapply audio_ok_same; [| |exact (audio_ok_alloc _ _ _ _ (OBytes written) Hok1)].
  - wsimpl. by rewrite insert_insert_eq.
  - reflexivity.
Qed.

Ltac zlia :=
  unfold SIZE_MOD, INT_MAX, U64_MOD in *;
  cbn [uPcmOffset uPcmBufSize uPcmTimestamp xFrameBufSize set_uPcmOffset
       set_uPcmTimestamp] in *;
  lia.

Lemma with_acc_id a buf : with_acc (acc_of a buf) a = a.
Proof. by destruct a. Qed.

Lemma blocks_of_app t1 t2 : blocks_of (t1 ++ t2) = blocks_of t1 ++ blocks_of t2.
Proof. apply omap_app. Qed.

Lemma clock_reads_app t1 t2 : clock_reads (t1 ++ t2) = clock_reads t1 ++ clock_reads t2.
Proof. apply omap_app. Qed.

Lemma submissions_app t1 t2 : submissions (t1 ++ t2) = submissions t1 ++ submissions t2.
Proof. apply omap_app. Qed.

Lemma blocks_of_dispatch env w a buf :
  blocks_of (dispatch_trace env w a buf) = [(buf, uPcmTimestamp a)].
Proof.
  unfold dispatch_trace. destruct (encode_ret env (n_enc w) buf) as [rc out].
  repeat case_decide; try destruct (malloc_ret env (n_malloc w)); reflexivity.
Qed.

Lemma clock_reads_dispatch env w a buf :
  clock_reads (dispatch_trace env w a buf) = [].
Proof.
  unfold dispatch_trace. destruct (encode_ret env (n_enc w) buf) as [rc out].
  repeat case_decide; try destruct (malloc_ret env (n_malloc w)); reflexivity.
Qed.

Lemma submit_ts_ok_app t1 t2 c :
  submit_ts_ok c (t1 ++ t2) = submit_ts_ok c t1 && submit_ts_ok (last_encoded c t1) t2.
Proof.
  revert c. induction t1 as [|e t1 IH]; intros c; [done|].
  destruct e; cbn [app submit_ts_ok last_encoded]; rewrite ?IH; try done.
  by rewrite andb_assoc.
Qed.

Lemma submit_ts_ok_all_app t1 t2 :
  (forall c, submit_ts_ok c t1 = true) -> (forall c, submit_ts_ok c t2 = true) ->
  forall c, submit_ts_ok c (t1 ++ t2) = true.
Proof. intros H1 H2 c. by rewrite submit_ts_ok_app, H1, H2. Qed.

Lemma submit_ts_ok_dispatch env w a buf c :
  submit_ts_ok c (dispatch_trace env w a buf) = true.
Proof.
  unfold dispatch_trace. destruct (encode_ret env (n_enc w) buf) as [rc out].
  repeat case_decide; try destruct (malloc_ret env (n_malloc w)); cbn;
    rewrite ?Z.eqb_refl; reflexivity.
Qed.

Lemma length_frame_bytes f : frame_ok f -> Z.of_nat (length (frame_bytes f)) = len f.
Proof. intros [H1 H2]. unfold frame_bytes. rewrite length_take. lia. Qed.

Lemma sendAudioFrame_while_refines env p frm :
  frame_ok frm ->
  forall n x w a buf,
    audio_ok w p a buf -> 0 <= x <= len frm -> len frm - x <= Z.of_nat n ->
    exists w' tr,
      sendAudioFrame_while (S n) env p frm x w = Done w' /\
      let r := absorb n (uPcmBufSize a) (blockDurationMs a)
                 (drop (Z.to_nat x) (frame_bytes frm)) (acc_of a buf) in
      audio_ok w' p (with_acc r.2 a) (acc_buf r.2) /\
      trace w' = trace w ++ tr /\ blocks_of tr = r.1 /\ clock_reads tr = [] /\
      n_clock w' = n_clock w /\ threads w' = threads w /\
      (forall c, submit_ts_ok c tr = true).
Proof.
  intros Hf. pose proof (length_frame_bytes _ Hf) as Hlen.
  pose proof Hf as [[Hl0 Hl1] Hl2].
  induction n as [|n IH]; intros x w a buf Hok Hx Hn.
  - cbn [sendAudioFrame_while absorb]. rewrite decide_False by zlia.
    exists w, []. split; [done|]. cbn zeta. cbn [fst snd].
    rewrite with_acc_id. rewrite app_nil_r. done.
  - cbn [sendAudioFrame_while].
    set (rest := drop (Z.to_nat x) (frame_bytes frm)).
    assert (Z.of_nat (length rest) = len frm - x) as Hrest.
    { subst rest. rewrite length_drop. zlia. }
    destruct (decide (x < len frm)) as [Hlt|Hge].
    2:{ (* nothing left *)
      exists w, []. split; [done|]. cbn [absorb]. rewrite decide_False by zlia.
      cbn zeta. cbn [fst snd]. rewrite with_acc_id, app_nil_r. done. }
    rewrite (load_audio_ok _ _ _ _ Hok). cbn [bind].
    pose proof (ok_size _ _ _ _ Hok) as Hsz.
    pose proof (ok_offset _ _ _ _ Hok) as Hoff.
    pose proof (ok_ts _ _ _ _ Hok) as Hts.
    rewrite (to_size_small (uPcmBufSize a - uPcmOffset a)).
    2:{ zlia. }
    rewrite (to_size_small (len frm - x)) by zlia.
    rewrite (to_size_small x) by zlia.
    cbn [absorb]. fold rest. cbn [acc_of acc_off acc_ts acc_buf]. rewrite Hrest.
    rewrite (decide_True (P := 0 < len frm - x)) by zlia.
    destruct (decide (uPcmBufSize a - uPcmOffset a > len frm - x)) as [Hpart|Hfull].
    + (* the frame ends inside the buffer *)
      rewrite (frame_load_ok _ _ _ Hf) by zlia. cbn [bind]. fold rest.
      assert (take (Z.to_nat (len frm - x)) rest = rest) as ->.
      { apply take_ge. zlia. }
      destruct (store_pcm_ok _ _ _ _ (uPcmOffset a) rest Hok) as [Hs Hok1]; [zlia|zlia|].
      cbn zeta in Hs, Hok1. rewrite Hs. cbn [bind].
      rewrite (to_size_small (uPcmOffset a + (len frm - x))) by zlia.
      destruct (store_audio_ok _ _ _ _ (set_uPcmOffset (uPcmOffset a + (len frm - x)) a) Hok1)
        as [Hs2 Hok2]; try reflexivity; [zlia|zlia|].
      cbn zeta in Hs2, Hok2. rewrite Hs2. cbn [bind].
      replace (to_int (x + (len frm - x))) with (len frm)
        by (rewrite to_int_small; zlia).
      destruct n; cbn [sendAudioFrame_while]; (rewrite decide_False by zlia).
      all: eexists; exists []; split; [reflexivity|]; cbn zeta; cbn [fst snd acc_buf].
      all: split; [|rewrite app_nil_r; done].
      all: replace (with_acc _ a) with (set_uPcmOffset (uPcmOffset a + (len frm - x)) a)
             by (by destruct a).
      all: exact Hok2.
    + (* the buffer fills up: a block is complete *)
      set (k := uPcmBufSize a - uPcmOffset a) in *.
      rewrite (frame_load_ok _ _ _ Hf) by zlia. cbn [bind]. fold rest.
      set (src := take (Z.to_nat k) rest).
      assert (Z.of_nat (length src) = k) as Hsrc.
      { subst src. rewrite length_take. zlia. }
      destruct (store_pcm_ok _ _ _ _ (uPcmOffset a) src Hok) as [Hs Hok1]; [zlia|zlia|].
      cbn zeta in Hs, Hok1. rewrite Hs. cbn [bind].
      set (buf' := splice buf (Z.to_nat (uPcmOffset a)) src) in *.
      set (a1 := set_uPcmOffset 0 (set_uPcmOffset _ a)).
      destruct (store_audio_ok _ _ _ _ a1 Hok1)
        as [Hs2 Hok2]; try reflexivity; [unfold a1; zlia|unfold a1; zlia|].
      cbn zeta in Hs2, Hok2. rewrite Hs2. cbn [bind].
      destruct (encode_and_dispatch_ok env _ _ _ _ Hok2) as (w3 & Hd & Hok3 & Htr3 & Hc3 & Hth3).
      rewrite Hd. cbn [bind].
      rewrite (load_audio_ok _ _ _ _ Hok3). cbn [bind].
      rewrite (timediff_ok _ _ _ _ Hok3). cbn [bind].
      set (a2 := set_uPcmTimestamp _ a1).
      destruct (store_audio_ok _ _ _ _ a2 Hok3)
        as [Hs4 Hok4]; try reflexivity; [unfold a2, a1; zlia|simpl; apply to_u64_range|].
      cbn zeta in Hs4, Hok4. rewrite Hs4. cbn [bind].
      rewrite (to_int_small (x + k)) by zlia.
      destruct (IH (x + k) _ _ _ Hok4) as (w' & tr & Hw & Hr); [zlia|zlia|].
      cbn zeta in Hr. destruct Hr as (Hok' & Htr' & Hbl & Hcl & Hnc & Hth & Hsub).
      exists w', (dispatch_trace env
                    (set_heap (<[p:=OAudio a1]> (heap (set_heap (<[pPcmBuf a:=OBytes buf']> (heap w)) w)))
                       (set_heap (<[pPcmBuf a:=OBytes buf']> (heap w)) w)) a1 buf' ++ tr).
      split; [exact Hw|].
      assert (drop (Z.to_nat (x + k)) (frame_bytes frm) = drop (Z.to_nat k) rest) as Hdrop.
      { subst rest. rewrite drop_drop. f_equal. zlia. }
      rewrite Hdrop in Hok', Hbl.
      replace (blockDurationMs a2) with (blockDurationMs a) in * by reflexivity.
      replace (uPcmBufSize a2) with (uPcmBufSize a) in * by reflexivity.
      replace (acc_of a2 buf') with (mkAcc 0 (to_u64 (uPcmTimestamp a + blockDurationMs a)) buf')
        in * by reflexivity.
      cbn zeta. fold k. fold src. fold buf'.
      destruct (absorb n (uPcmBufSize a) (blockDurationMs a) (drop (Z.to_nat k) rest) _)
        as [bs st'] eqn:Habs.
      cbn [fst snd] in *.
      split; [|split; [|split; [|split; [|split; [|split]]]]].
      * replace (with_acc st' a) with (with_acc st' a2) by (by destruct a). exact Hok'.
      * rewrite Htr'. wsimpl. rewrite Htr3. wsimpl. by rewrite app_assoc.
      * rewrite blocks_of_app, blocks_of_dispatch, Hbl. reflexivity.
      * rewrite clock_reads_app, clock_reads_dispatch, Hcl. reflexivity.
      * rewrite Hnc. wsimpl. rewrite Hc3. reflexivity.
      * rewrite Hth. wsimpl. rewrite Hth3. reflexivity.
      * apply submit_ts_ok_all_app; [|exact Hsub].
        intros c. apply submit_ts_ok_dispatch.
Qed.

Lemma ts_after_S d t n : ts_after d t (S n) = ts_after d (to_u64 (t + d)) n.
Proof. unfold ts_after. by rewrite Nat.iter_succ_r. Qed.

Lemma splice_fill buf off src :
  (off + length src = length buf)%nat -> splice buf off src = take off buf ++ src.
Proof.
  intros H. unfold splice. rewrite drop_ge by lia. by rewrite app_nil_r.
Qed.

Lemma absorb_spec cap d : 
  forall n rest st,
    acc_inv cap st -> (length rest <= n)%nat ->
    let r := absorb n cap d rest st in
    acc_inv cap r.2 /\
    concat r.1.*1 ++ take (Z.to_nat (acc_off r.2)) (acc_buf r.2)
      = take (Z.to_nat (acc_off st)) (acc_buf st) ++ rest /\
    Forall (fun b => Z.of_nat (length b) = cap) r.1.*1 /\
    cap * Z.of_nat (length r.1) + acc_off r.2 = acc_off st + Z.of_nat (length rest) /\
    r.1.*2 = ts_chain d (acc_ts st) (length r.1) /\
    acc_ts r.2 = ts_after d (acc_ts st) (length r.1).
Proof.
  induction n as [|n IH]; intros rest st Hinv Hn.
  - destruct rest; [|simpl in Hn; lia]. cbn. rewrite app_nil_r.
    repeat split; try apply Hinv; try done. lia.
  - cbn [absorb]. destruct Hinv as (Hoff & Hlen & Hts).
    destruct (decide (0 < Z.of_nat (length rest))) as [Hpos|Hz].
    2:{ destruct rest; [|simpl in Hz; lia]. cbn. rewrite app_nil_r.
        repeat split; try done; lia. }
    destruct (decide (cap - acc_off st > Z.of_nat (length rest))) as [Hpart|Hfull].
    + cbn zeta. unfold acc_inv.
      cbn [fst snd acc_off acc_ts acc_buf fmap list_fmap concat length ts_chain ts_after Nat.iter].
      repeat split; try done; try lia.
      * rewrite length_splice; lia.
      * replace (Z.to_nat (acc_off st + Z.of_nat (length rest)))
          with (Z.to_nat (acc_off st) + length rest)%nat by lia.
        rewrite take_splice by lia. done.
    + set (k := Z.to_nat (cap - acc_off st)).
      set (src := take k rest).
      assert (length src = k) as Hsrc by (subst src; rewrite length_take; lia).
      set (buf' := splice (acc_buf st) (Z.to_nat (acc_off st)) src).
      assert (buf' = take (Z.to_nat (acc_off st)) (acc_buf st) ++ src) as Hbuf'.
      { subst buf'. apply splice_fill. lia. }
      assert (Z.of_nat (length buf') = cap) as Hlen'.
      { subst buf'. rewrite length_splice; lia. }
      specialize (IH (drop k rest) (mkAcc 0 (to_u64 (acc_ts st + d)) buf')).
      destruct IH as (I1 & I2 & I3 & I4 & I5 & I6).
      { unfold acc_inv; cbn [acc_off acc_ts acc_buf]. 
        pose proof (to_u64_range (acc_ts st + d)). lia. }
      { rewrite length_drop. lia. }
      destruct (absorb n cap d (drop k rest) _) as [bs st'].
      cbn zeta. cbn [fst snd acc_off acc_ts acc_buf] in *.
      split; [exact I1|]. split; [|split; [|split; [|split]]].
      * rewrite fmap_cons. cbn [fst concat]. rewrite <- app_assoc, I2.
        cbn [take]. rewrite app_nil_l, Hbuf', <- app_assoc. f_equal.
        subst src. apply take_drop.
      * rewrite fmap_cons. constructor; [exact Hlen'|exact I3].
      * cbn [length]. rewrite length_drop in I4. lia.
      * rewrite fmap_cons. cbn [snd length ts_chain]. by rewrite I5.
      * cbn [length]. rewrite ts_after_S. exact I6.
Qed.



Lemma absorb_fuel cap d n m rest st :
  (length rest <= n)%nat -> (length rest <= m)%nat -> 0 <= acc_off st < cap ->
  absorb n cap d rest st = absorb m cap d rest st.
Proof.
  revert m rest st. induction n as [|n IH]; intros m rest st Hn Hm Hoff.
  - destruct rest; [|simpl in Hn; lia]. destruct m; [done|]. cbn [absorb].
    rewrite decide_False; [done|simpl; lia].
  - destruct m as [|m].
    { destruct rest; [|simpl in Hm; lia]. cbn [absorb].
      rewrite decide_False; [done|simpl; lia]. }
    cbn [absorb]. repeat case_decide; try done.
    rewrite (IH m); [done| | |cbn; lia]; rewrite length_drop; lia.
Qed.

Lemma audio_ok_nonnull w p a buf : audio_ok w p a buf -> p <> NULL.
Proof.
  intros H E. pose proof (ok_fresh _ _ _ _ H p _ (ok_audio _ _ _ _ H)) as Hp.
  simpl in Hp. unfold NULL in E. lia.
Qed.

Lemma audio_ok_acc_inv w p a buf :
  audio_ok w p a buf -> acc_inv (uPcmBufSize a) (acc_of a buf).
Proof.
  intros H. unfold acc_inv. cbn.
  pose proof (ok_offset _ _ _ _ H). pose proof (ok_pcm_len _ _ _ _ H).
  pose proof (ok_ts _ _ _ _ H). done.
Qed.


Lemma sendAudioFrame_refines env p frm n w a buf :
  frame_ok frm -> audio_ok w p a buf -> len frm < Z.of_nat n ->
  exists w' tr,
    sendAudioFrame n env w p (Some frm) = Done (w', ERRNO_NONE) /\
    let r := absorb (length (frame_bytes frm)) (uPcmBufSize a) (blockDurationMs a)
               (frame_bytes frm) (acc_of (seed env w a) buf) in
    audio_ok w' p (with_acc r.2 a) (acc_buf r.2) /\
    trace w' = trace w ++ tr /\ blocks_of tr = r.1 /\
    clock_reads tr = (if decide (uPcmOffset a = 0)
                      then [to_u64 (clock_ret env (n_clock w))] else []) /\
    n_clock w' = (if decide (uPcmOffset a = 0) then S (n_clock w) else n_clock w) /\
    threads w' = threads w /\
    (forall c, submit_ts_ok c tr = true).
Proof.
  intros Hf Hok Hn. destruct n as [|n]; [destruct Hf as [[? ?] ?]; lia|].
  pose proof (length_frame_bytes _ Hf) as Hlen.
  unfold sendAudioFrame.
  rewrite decide_False by (eapply audio_ok_nonnull; eassumption).
  rewrite (load_audio_ok _ _ _ _ Hok). cbn [bind].
  unfold seed.
  destruct (decide (uPcmOffset a = 0)) as [Hz|Hnz].
  - unfold getEpochTimestampInMs.
    set (now := to_u64 (clock_ret env (n_clock w))).
    set (w1 := emit (EvClock now) (tick_clock w)).
    assert (audio_ok w1 p a buf) as Hok1
      by (eapply audio_ok_same; [| |exact Hok]; reflexivity).
    destruct (store_audio_ok _ _ _ _ (set_uPcmTimestamp now a) Hok1)
      as [Hs Hok2]; try reflexivity.
    { cbn. apply (ok_offset _ _ _ _ Hok). }
    { cbn. apply to_u64_range. }
    cbn zeta in Hs, Hok2. rewrite Hs. cbn [bind].
    destruct (sendAudioFrame_while_refines env p frm Hf n 0 _ _ _ Hok2)
      as (w' & tr & Hw & Hr); [destruct Hf as [[? ?] ?]; lia|lia|].
    rewrite Hw. cbn [bind]. exists w', (EvClock now :: tr).
    split; [reflexivity|]. cbn zeta in Hr |- *.
    rewrite drop_0 in Hr.
    rewrite (absorb_fuel _ _ n (length (frame_bytes frm))) in Hr;
      [|lia|lia|cbn; apply (ok_offset _ _ _ _ Hok)].
    destruct Hr as (Hok' & Htr & Hbl & Hcl & Hnc & Hth & Hsub).
    replace (uPcmBufSize (set_uPcmTimestamp now a)) with (uPcmBufSize a) in * by reflexivity.
    replace (blockDurationMs (set_uPcmTimestamp now a)) with (blockDurationMs a) in * by reflexivity.
    split; [|split; [|split; [|split; [|split; [|split]]]]].
    + match goal with |- audio_ok _ _ (with_acc ?s _) _ =>
        replace (with_acc s a) with (with_acc s (set_uPcmTimestamp now a)) by (by destruct a) end.
      exact Hok'.
    + rewrite Htr. subst w1. wsimpl. by rewrite <- app_assoc.
    + exact Hbl.
    + cbn. f_equal. exact Hcl.
    + rewrite Hnc. reflexivity.
    + rewrite Hth. reflexivity.
    + intros c. cbn. apply Hsub.
  - cbn [bind].
    destruct (sendAudioFrame_while_refines env p frm Hf n 0 _ _ _ Hok)
      as (w' & tr & Hw & Hr); [destruct Hf as [[? ?] ?]; lia|lia|].
    rewrite Hw. cbn [bind]. exists w', tr.
    split; [reflexivity|]. cbn zeta in Hr |- *.
    rewrite drop_0 in Hr.
    rewrite (absorb_fuel _ _ n (length (frame_bytes frm))) in Hr;
      [|lia|lia|cbn; apply (ok_offset _ _ _ _ Hok)].
    exact Hr.
Qed.


Lemma sendAudioFrames_refines env p n :
  forall frames w a buf,
    Forall frame_ok frames -> audio_ok w p a buf -> max_len frames < Z.of_nat n ->
    exists w' tr,
      sendAudioFrames n env w p frames = Done w' /\
      let r := absorb_frames (clock_ret env) (uPcmBufSize a) (blockDurationMs a)
                 (n_clock w) frames (acc_of a buf) in
      audio_ok w' p (with_acc r.1.2 a) (acc_buf r.1.2) /\
      trace w' = trace w ++ tr /\ blocks_of tr = r.1.1 /\
      n_clock w' = r.2 /\ threads w' = threads w /\
      (forall c, submit_ts_ok c tr = true) /\
      (n_clock w <= r.2)%nat /\
      clock_reads tr = map (fun i => to_u64 (clock_ret env i))
                         (seq (n_clock w) (r.2 - n_clock w)).
Proof.
  induction frames as [|f fs IH]; intros w a buf Hfs Hok Hn.
  - exists w, []. split; [reflexivity|]. cbn. rewrite with_acc_id, app_nil_r.
    rewrite Nat.sub_diag. done.
  - inversion Hfs as [|? ? Hf Hfs']; subst.
    cbn [max_len foldr] in Hn. fold (max_len fs) in Hn.
    destruct (sendAudioFrame_refines env p f n w a buf Hf Hok) as (w1 & tr1 & Hw1 & Hr1); [lia|].
    cbn zeta in Hr1. destruct Hr1 as (Hok1 & Htr1 & Hbl1 & Hcl1 & Hnc1 & Hth1 & Hsub1).
    cbn [sendAudioFrames]. rewrite Hw1. cbn [bind].
    destruct (IH _ _ _ Hfs' Hok1) as (w' & tr & Hw & Hr); [lia|].
    cbn zeta in Hr. destruct Hr as (Hok' & Htr & Hbl & Hnc & Hth & Hsub & Hmono & Hclk).
    exists w', (tr1 ++ tr). split; [exact Hw|].
    cbn zeta. cbn [absorb_frames]. cbn zeta.
    set (sd := if decide (acc_off (acc_of a buf) = 0) then _ else _).
    assert (sd.1 = acc_of (seed env w a) buf /\ sd.2 = n_clock w1) as [Hsd1 Hsd2].
    { subst sd. unfold seed. rewrite Hnc1. cbn [acc_of acc_off].
      destruct (decide (uPcmOffset a = 0)) as [E|E]; cbn; done. }
    rewrite Hsd1, Hsd2.
    set (r1 := absorb _ _ _ (frame_bytes f) _) in *.
    replace (uPcmBufSize (with_acc r1.2 a)) with (uPcmBufSize a) in * by reflexivity.
    replace (blockDurationMs (with_acc r1.2 a)) with (blockDurationMs a) in * by reflexivity.
    replace (acc_of (with_acc r1.2 a) (acc_buf r1.2)) with r1.2 in * by (by destruct r1.2).
    cbn [fst snd].
    split; [|split; [|split; [|split; [|split; [|split]]]]].
    + match goal with |- audio_ok _ _ (with_acc ?s _) _ =>
        replace (with_acc s a) with (with_acc s (with_acc r1.2 a)) by (by destruct a) end.
      exact Hok'.
    + rewrite Htr, Htr1. by rewrite app_assoc.
    + rewrite blocks_of_app, Hbl1, Hbl. reflexivity.
    + exact Hnc.
    + rewrite Hth. exact Hth1.
    + by apply submit_ts_ok_all_app.
    + rewrite clock_reads_app, Hcl1, Hclk. rewrite Hnc1 in *.
      set (k2 := (absorb_frames _ _ _ _ fs _).2) in *.
      destruct (decide (uPcmOffset a = 0)); [|done].
      split; [lia|].
      replace (k2 - n_clock w)%nat with (S (k2 - S (n_clock w))) by lia.
      reflexivity.
Qed.



Lemma total_len_cons f fs : total_len (f :: fs) = len f + total_len fs.
Proof. reflexivity. Qed.

Lemma absorb_frames_spec clock cap d :
  forall frames k st,
    acc_inv cap st -> Forall frame_ok frames ->
    let r := absorb_frames clock cap d k frames st in
    acc_inv cap r.1.2 /\
    concat r.1.1.*1 ++ take (Z.to_nat (acc_off r.1.2)) (acc_buf r.1.2)
      = take (Z.to_nat (acc_off st)) (acc_buf st) ++ concat (map frame_bytes frames) /\
    Forall (fun b => Z.of_nat (length b) = cap) r.1.1.*1 /\
    cap * Z.of_nat (length r.1.1) + acc_off r.1.2 = acc_off st + total_len frames.
Proof.
  induction frames as [|f fs IH]; intros k st Hinv Hfs.
  - cbn. rewrite app_nil_r. repeat split; try apply Hinv; try done. lia.
  - inversion Hfs as [|? ? Hf Hfs']; subst.
    cbn [absorb_frames]. cbn zeta.
    set (sd := if decide (acc_off st = 0) then _ else _).
    assert (acc_inv cap sd.1 /\ acc_off sd.1 = acc_off st /\ acc_buf sd.1 = acc_buf st)
      as (Hsd & Hso & Hsb).
    { subst sd. destruct (decide (acc_off st = 0)); cbn [fst]; [|done].
      split; [|done]. destruct Hinv as (? & ? & ?). unfold acc_inv. cbn.
      pose proof (to_u64_range (clock k)). done. }
    destruct (absorb_spec cap d (length (frame_bytes f)) (frame_bytes f) sd.1 Hsd)
      as (I1 & I2 & I3 & I4 & _); [lia|].
    set (r1 := absorb _ cap d (frame_bytes f) sd.1) in *.
    destruct (IH sd.2 r1.2 I1 Hfs') as (J1 & J2 & J3 & J4).
    set (r2 := absorb_frames clock cap d sd.2 fs r1.2) in *.
    cbn [fst snd]. rewrite Hso, Hsb in *.
    split; [exact J1|]. split; [|split].
    + rewrite fmap_app, concat_app, <- app_assoc, J2, app_assoc, I2.
      cbn [map concat]. by rewrite app_assoc.
    + rewrite fmap_app. apply Forall_app. done.
    + rewrite length_app, total_len_cons.
      rewrite (length_frame_bytes _ Hf) in I4. lia.
Qed.


(** equal-size chunks: the i-th block is the i-th slice of the concatenation *)
Lemma concat_chunk (cap : nat) (blocks : list (list byte)) (tl : list byte) :
  Forall (fun b => length b = cap) blocks ->
  forall i b, blocks !! i = Some b ->
    b = take cap (drop (i * cap) (concat blocks ++ tl)).
Proof.
  induction blocks as [|b0 bs IH]; intros Hall i b Hi; [done|].
  inversion Hall as [|? ? Hb0 Hbs]; subst.
  destruct i as [|i]; cbn in Hi.
  - injection Hi as <-. cbn [concat]. rewrite Nat.mul_0_l, drop_0, <- app_assoc.
    by rewrite take_app_length.
  - cbn [concat]. rewrite <- app_assoc.
    replace (S i * length b0)%nat with (length b0 + i * length b0)%nat by lia.
    rewrite <- drop_drop, drop_app_length. by apply IH.
Qed.

(** the accumulator facts of a run over [frames], from any fill offset *)
Lemma sendAudioFrames_spec env p frames w a buf n :
  audio_ok w p a buf -> Forall frame_ok frames -> max_len frames < Z.of_nat n ->
  exists w' a' buf' tr,
    sendAudioFrames n env w p frames = Done w' /\
    audio_ok w' p a' buf' /\ trace w' = trace w ++ tr /\
    uPcmBufSize a' = uPcmBufSize a /\
    concat (encoded_blocks tr) ++ take (Z.to_nat (uPcmOffset a')) buf'
      = take (Z.to_nat (uPcmOffset a)) buf ++ concat (map frame_bytes frames) /\
    Forall (fun b => Z.of_nat (length b) = uPcmBufSize a) (encoded_blocks tr) /\
    uPcmBufSize a * Z.of_nat (length (encoded_blocks tr)) + uPcmOffset a'
      = uPcmOffset a + total_len frames /\
    0 <= uPcmOffset a' < uPcmBufSize a.
Proof.
  intros Hok Hfs Hn.
  destruct (sendAudioFrames_refines env p n frames w a buf Hfs Hok Hn)
    as (w' & tr & Hw & Hr).
  cbn zeta in Hr. destruct Hr as (Hok' & Htr & Hbl & _).
  destruct (absorb_frames_spec (clock_ret env) (uPcmBufSize a) (blockDurationMs a)
              frames (n_clock w) (acc_of a buf) (audio_ok_acc_inv _ _ _ _ Hok) Hfs)
    as (I1 & I2 & I3 & I4).
  set (r := absorb_frames _ _ _ _ frames _) in *.
  exists w', (with_acc r.1.2 a), (acc_buf r.1.2), tr.
  unfold encoded_blocks. rewrite Hbl.
  split; [exact Hw|]. split; [exact Hok'|]. split; [exact Htr|].
  split; [reflexivity|]. split; [exact I2|]. split; [exact I3|].
  split; [rewrite length_fmap; exact I4|]. apply I1.
Qed.

Lemma demo_audio_ok :
  audio_ok (demo_world 1280) demo_handle (demo_audio 1280) (zeros 1280).
Proof.
  constructor.
  - vm_compute. reflexivity.
  - vm_compute. reflexivity.
  - vm_compute. reflexivity.
  - exists (zeros 8192). split; [vm_compute; reflexivity|]. vm_compute. discriminate.
  - vm_compute. discriminate.
  - vm_compute. split; reflexivity.
  - vm_compute. split; [discriminate|reflexivity].
  - vm_compute. split; discriminate.
  - vm_compute. split; [reflexivity|discriminate].
  - vm_compute. split; [discriminate|reflexivity].
  - vm_compute. reflexivity.
  - refine (bool_decide_unpack _ _). vm_compute. exact I.
Qed.

Lemma demo_frames_ok : Forall frame_ok demo_frames.
Proof. repeat constructor; vm_compute; discriminate. Qed.

(** C1 (no loss, no duplication).  Feed any sequence of device frames to
    [sendAudioFrame], starting with an empty PCM buffer: the run returns,
    and the bytes of the blocks passed to the encoder, in order, followed
    by the bytes of the PCM buffer below the fill offset, are exactly the
    bytes of the frames, in order.  The right-hand side is the
    concatenation of the input, whatever its partition into frames. *)
Theorem C1_no_loss_no_duplication env p frames w a buf n :
  audio_ok w p a buf -> uPcmOffset a = 0 ->
  Forall frame_ok frames -> max_len frames < Z.of_nat n ->
  exists w' a' buf' tr,
    sendAudioFrames n env w p frames = Done w' /\
    audio_ok w' p a' buf' /\ trace w' = trace w ++ tr /\
    concat (encoded_blocks tr) ++ take (Z.to_nat (uPcmOffset a')) buf'
      = concat (map frame_bytes frames).
Proof.
  intros Hok Hz Hfs Hn.
  destruct (sendAudioFrames_spec env p frames w a buf n Hok Hfs Hn)
    as (w' & a' & buf' & tr & Hw & Hok' & Htr & _ & Hcat & _).
  exists w', a', buf', tr. rewrite Hz in Hcat. by cbn in Hcat.
Qed.

Lemma C1_witness :
  exists w' a' buf' tr,
    sendAudioFrames 2501 (demo_env 1280) (demo_world 1280) demo_handle demo_frames
      = Done w' /\
    audio_ok w' demo_handle a' buf' /\ trace w' = trace (demo_world 1280) ++ tr /\
    concat (encoded_blocks tr) ++ take (Z.to_nat (uPcmOffset a')) buf'
      = concat (map frame_bytes demo_frames).
Proof.
  apply (C1_no_loss_no_duplication (demo_env 1280) demo_handle demo_frames
           (demo_world 1280) (demo_audio 1280) (zeros 1280) 2501).
  - exact demo_audio_ok.
  - reflexivity.
  - exact demo_frames_ok.
  - reflexivity.
Defined.

(** C2 (block completeness).  From an empty buffer, every encoder call is on
    a block of exactly [uPcmBufSize] bytes, the i-th block being the i-th
    [uPcmBufSize]-byte slice of the input; when the frame lengths add up to
    [k * uPcmBufSize] the encoder is called exactly [k] times and the fill
    offset is back at 0; one frame of 2.5 capacities gives two blocks and
    leaves half a capacity; with a capacity of 1280 the frames of 700, 900
    and 2500 bytes give three blocks and leave 260 bytes. *)
Theorem C2_block_completeness env p frames w a buf n :
  audio_ok w p a buf -> uPcmOffset a = 0 ->
  Forall frame_ok frames -> max_len frames < Z.of_nat n ->
  exists w' a' buf' tr,
    sendAudioFrames n env w p frames = Done w' /\
    audio_ok w' p a' buf' /\ trace w' = trace w ++ tr /\
    let cap := uPcmBufSize a in
    let blocks := encoded_blocks tr in
    let input := concat (map frame_bytes frames) in
    (forall i b, blocks !! i = Some b ->
       Z.of_nat (length b) = cap /\
       b = take (Z.to_nat cap) (drop (i * Z.to_nat cap) input)) /\
    (forall k, 1 <= k -> total_len frames = k * cap ->
       Z.of_nat (length blocks) = k /\ uPcmOffset a' = 0) /\
    (forall f, frames = [f] -> 2 * len f = 5 * cap ->
       length blocks = 2%nat /\ 2 * uPcmOffset a' = cap) /\
    (cap = 1280 -> map len frames = [700; 900; 2500] ->
       length blocks = 3%nat /\ uPcmOffset a' = 260).
Proof.
  intros Hok Hz Hfs Hn.
  destruct (sendAudioFrames_spec env p frames w a buf n Hok Hfs Hn)
    as (w' & a' & buf' & tr & Hw & Hok' & Htr & Hcap & Hcat & Hlen & Hsum & Hoff).
  exists w', a', buf', tr. split; [exact Hw|]. split; [exact Hok'|].
  split; [exact Htr|]. cbn zeta.
  rewrite Hz in Hcat, Hsum.
  change (take (Z.to_nat 0) buf) with (@nil byte) in Hcat. rewrite app_nil_l in Hcat.
  pose proof (ok_size _ _ _ _ Hok) as Hsz.
  set (blocks := encoded_blocks tr) in *.
  split; [|split; [|split]].
  - intros i b Hi.
    assert (Forall (fun b => length b = Z.to_nat (uPcmBufSize a)) blocks) as Hlen'.
    { eapply Forall_impl; [exact Hlen|]. intros x Hx. cbn in Hx. lia. }
    split.
    + rewrite Forall_lookup in Hlen. exact (Hlen i b Hi).
    + rewrite <- Hcat. by apply concat_chunk.
  - intros k Hk Hk'. rewrite Hk', Z.add_0_l in Hsum. symmetry in Hsum.
    pose proof (Z.div_unique_pos _ _ _ _ Hoff Hsum) as Hq.
    pose proof (Z.mod_unique_pos _ _ _ _ Hoff Hsum) as Hr.
    rewrite Z.div_mul in Hq by lia. rewrite Z.mod_mul in Hr by lia. done.
  - intros f -> Hf. unfold total_len in Hsum. cbn in Hsum.
    assert (Z.of_nat (length blocks) <= 2) by nia.
    assert (2 <= Z.of_nat (length blocks)) by nia.
    split; [lia|nia].
  - intros Hc Hl.
    assert (total_len frames = 4100) as Ht.
    { destruct frames as [|f1 [|f2 [|f3 [|]]]]; try discriminate.
      injection Hl as H1 H2 H3. unfold total_len. cbn [foldr].
      rewrite H1, H2, H3. reflexivity. }
    rewrite Ht, Hc in Hsum. rewrite Hc in Hoff. split; lia.
Qed.

Lemma C2_witness :
  exists w' a' buf' tr,
    sendAudioFrames 2501 (demo_env 1280) (demo_world 1280) demo_handle demo_frames
      = Done w' /\
    audio_ok w' demo_handle a' buf' /\ trace w' = trace (demo_world 1280) ++ tr /\
    let cap := uPcmBufSize (demo_audio 1280) in
    let blocks := encoded_blocks tr in
    let input := concat (map frame_bytes demo_frames) in
    (forall i b, blocks !! i = Some b ->
       Z.of_nat (length b) = cap /\
       b = take (Z.to_nat cap) (drop (i * Z.to_nat cap) input)) /\
    (forall k, 1 <= k -> total_len demo_frames = k * cap ->
       Z.of_nat (length blocks) = k /\ uPcmOffset a' = 0) /\
    (forall f, demo_frames = [f] -> 2 * len f = 5 * cap ->
       length blocks = 2%nat /\ 2 * uPcmOffset a' = cap) /\
    (cap = 1280 -> map len demo_frames = [700; 900; 2500] ->
       length blocks = 3%nat /\ uPcmOffset a' = 260).
Proof.
  apply (C2_block_completeness (demo_env 1280) demo_handle demo_frames
           (demo_world 1280) (demo_audio 1280) (zeros 1280) 2501).
  - exact demo_audio_ok.
  - reflexivity.
  - exact demo_frames_ok.
  - reflexivity.
Defined.






Lemma absorb_frames_ext clock1 clock2 cap d :
  (forall k, clock1 k = clock2 k) ->
  forall frames k st,
    absorb_frames clock1 cap d k frames st = absorb_frames clock2 cap d k frames st.
Proof.
  intros Hc. induction frames as [|f fs IH]; intros k st; [done|].
  cbn [absorb_frames]. cbn zeta. rewrite (Hc k). rewrite IH. reflexivity.
Qed.

(** C10 (outcome independence).  Two runs over the same frames from the same
    state, with the same clock but arbitrary encoder and allocator
    outcomes, both return; they leave the same handle (fill offset and
    timestamp included) and the same PCM buffer contents, and they pass the
    same blocks with the same timestamps to the encoder. *)
Theorem C10_outcome_independence env1 env2 p frames w a buf n1 n2 :
  (forall k, clock_ret env1 k = clock_ret env2 k) ->
  audio_ok w p a buf -> Forall frame_ok frames ->
  max_len frames < Z.of_nat n1 -> max_len frames < Z.of_nat n2 ->
  exists w1 w2 a1 a2 tr1 tr2,
    sendAudioFrames n1 env1 w p frames = Done w1 /\
    sendAudioFrames n2 env2 w p frames = Done w2 /\
    load_audio w1 p = Done a1 /\ load_audio w2 p = Done a2 /\
    uPcmOffset a1 = uPcmOffset a2 /\ uPcmTimestamp a1 = uPcmTimestamp a2 /\
    a1 = a2 /\
    load_bytes w1 (pPcmBuf a1) 0 (uPcmBufSize a1)
      = load_bytes w2 (pPcmBuf a2) 0 (uPcmBufSize a2) /\
    (exists buf', load_bytes w1 (pPcmBuf a1) 0 (uPcmBufSize a1) = Done buf') /\
    trace w1 = trace w ++ tr1 /\ trace w2 = trace w ++ tr2 /\
    blocks_of tr1 = blocks_of tr2.
Proof.
  intros Hc Hok Hfs Hn1 Hn2.
  destruct (sendAudioFrames_refines env1 p n1 frames w a buf Hfs Hok Hn1)
    as (w1 & tr1 & Hw1 & Hr1).
  destruct (sendAudioFrames_refines env2 p n2 frames w a buf Hfs Hok Hn2)
    as (w2 & tr2 & Hw2 & Hr2).
  cbn zeta in Hr1, Hr2.
  rewrite (absorb_frames_ext _ _ _ _ Hc) in Hr1.
  set (r := absorb_frames (clock_ret env2) _ _ _ frames _) in *.
  destruct Hr1 as (Hok1 & Htr1 & Hbl1 & _). destruct Hr2 as (Hok2 & Htr2 & Hbl2 & _).
  exists w1, w2, (with_acc r.1.2 a), (with_acc r.1.2 a), tr1, tr2.
  rewrite (load_audio_ok _ _ _ _ Hok1), (load_audio_ok _ _ _ _ Hok2).
  rewrite (load_pcm_ok _ _ _ _ Hok1), (load_pcm_ok _ _ _ _ Hok2).
  rewrite Hbl1, Hbl2. repeat split; try done. by eexists.
Qed.

Lemma C10_witness :
  exists w1 w2 a1 a2 tr1 tr2,
    sendAudioFrames 2501 (demo_env 1280) (demo_world 1280) demo_handle demo_frames
      = Done w1 /\
    sendAudioFrames 2501 (deaf_env 1280) (demo_world 1280) demo_handle demo_frames
      = Done w2 /\
    load_audio w1 demo_handle = Done a1 /\ load_audio w2 demo_handle = Done a2 /\
    uPcmOffset a1 = uPcmOffset a2 /\ uPcmTimestamp a1 = uPcmTimestamp a2 /\
    a1 = a2 /\
    load_bytes w1 (pPcmBuf a1) 0 (uPcmBufSize a1)
      = load_bytes w2 (pPcmBuf a2) 0 (uPcmBufSize a2) /\
    (exists buf', load_bytes w1 (pPcmBuf a1) 0 (uPcmBufSize a1) = Done buf') /\
    trace w1 = trace (demo_world 1280) ++ tr1 /\
    trace w2 = trace (demo_world 1280) ++ tr2 /\
    blocks_of tr1 = blocks_of tr2.
Proof.
  apply (C10_outcome_independence (demo_env 1280) (deaf_env 1280) demo_handle
           demo_frames (demo_world 1280) (demo_audio 1280) (zeros 1280) 2501 2501).
  - intros k. reflexivity.
  - exact demo_audio_ok.
  - exact demo_frames_ok.
  - reflexivity.
  - reflexivity.
Defined.

Lemma extends_refl P w : extends P w w.
Proof. exists []. by rewrite app_nil_r. Qed.

Lemma extends_trans P w1 w2 w3 : extends P w1 w2 -> extends P w2 w3 -> extends P w1 w3.
Proof.
  intros (t1 & H1 & F1 & I1 & T1) (t2 & H2 & F2 & I2 & T2).
  exists (t1 ++ t2). rewrite H2, H1, app_assoc, forallb_app, F1, F2. 
  repeat split; congruence.
Qed.

Lemma extends_emit P e w : P e = true -> extends P w (emit e w).
Proof. intros H. exists [e]. cbn. by rewrite H. Qed.

Lemma extends_same P w w' :
  trace w' = trace w -> n_imp w' = n_imp w -> threads w' = threads w -> extends P w w'.
Proof. intros H1 H2 H3. exists []. by rewrite app_nil_r. Qed.

Lemma store_audio_extends P w p a w' : store_audio w p a = Done w' -> extends P w w'.
Proof.
  unfold store_audio. destruct (heap w !! p) as [[]|]; try discriminate.
  intros [= <-]. by apply extends_same.
Qed.

Lemma store_bytes_extends P w p off src w' :
  store_bytes w p off src = Done w' -> extends P w w'.
Proof.
  unfold store_bytes. destruct (heap w !! p) as [[]|]; try discriminate.
  case_decide; try discriminate. intros [= <-]. by apply extends_same.
Qed.

(** splitting [do x <- m; k = Done r] *)
Lemma bind_Done {A B} (m : result A) (k : A -> result B) r :
  bind m k = Done r -> exists a, m = Done a /\ k a = Done r.
Proof. destruct m; cbn; try discriminate. eauto. Qed.

Ltac inv_bind H :=
  let a := fresh "x" in let Ha := fresh "E" in
  apply bind_Done in H; destruct H as (a & Ha & H).

(** inversion of the memory primitives *)
Lemma store_audio_inv w p a w' :
  store_audio w p a = Done w' ->
  (exists a0, heap w !! p = Some (OAudio a0)) /\
  w' = set_heap (<[p := OAudio a]> (heap w)) w.
Proof.
  unfold store_audio. destruct (heap w !! p) as [[]|]; try discriminate.
  intros [= <-]. eauto.
Qed.

Lemma store_track_info_inv w p ti w' :
  store_track_info w p ti = Done w' ->
  (exists t0, heap w !! p = Some (OTrackInfo t0)) /\
  w' = set_heap (<[p := OTrackInfo ti]> (heap w)) w.
Proof.
  unfold store_track_info. destruct (heap w !! p) as [[]|]; try discriminate.
  intros [= <-]. eauto.
Qed.

Lemma load_audio_inv w p a : load_audio w p = Done a -> heap w !! p = Some (OAudio a).
Proof.
  unfold load_audio. destruct (heap w !! p) as [[]|]; try discriminate. by intros [= <-].
Qed.

Lemma load_track_info_inv w p ti :
  load_track_info w p = Done ti -> heap w !! p = Some (OTrackInfo ti).
Proof.
  unfold load_track_info. destruct (heap w !! p) as [[]|]; try discriminate.
  by intros [= <-].
Qed.

Lemma load_track_info_intro w (p : ptr) ti :
  heap w !! p = Some (OTrackInfo ti) -> load_track_info w p = Done ti.
Proof. unfold load_track_info. by intros ->. Qed.

Lemma load_audio_intro w (p : ptr) a :
  heap w !! p = Some (OAudio a) -> load_audio w p = Done a.
Proof. unfold load_audio. by intros ->. Qed.

Lemma store_bytes_inv w p off src w' :
  store_bytes w p off src = Done w' ->
  exists bs, heap w !! p = Some (OBytes bs) /\
    w' = set_heap (<[p := OBytes (splice bs (Z.to_nat off) src)]> (heap w)) w.
Proof.
  unfold store_bytes. destruct (heap w !! p) as [[]|]; try discriminate.
  case_decide; [|discriminate]. intros [= <-]. by eexists.
Qed.

Lemma imp_calls_app t1 t2 : imp_calls (t1 ++ t2) = imp_calls t1 ++ imp_calls t2.
Proof. unfold imp_calls. by rewrite omap_app. Qed.

Lemma imp_calls_accum tr : forallb accum_event tr = true -> imp_calls tr = [].
Proof.
  induction tr as [|e tr IH]; [done|]. cbn [forallb]. intros [He Htr]%andb_prop.
  destruct e; try discriminate; apply (IH Htr).
Qed.

Lemma encode_and_dispatch_extends env w p w' :
  encode_and_dispatch env w p = Done w' -> extends accum_event w w'.
Proof.
  unfold encode_and_dispatch. intros H.
  inv_bind H. inv_bind H. inv_bind H. destruct x1 as [[w1 rc] xl].
  unfold AacEncoder_encode in E1.
  destruct (encode_ret env (n_enc w) x0) as [rc' out].
  inv_bind E1. injection E1 as <- <- <-.
  pose proof (store_bytes_extends accum_event _ _ _ _ _ E2) as X1.
  eapply extends_trans; [exact X1|]. clear X1 E2.
  case_decide.
  { injection H as <-. exists [EvEncode x0 (uPcmTimestamp x) rc'; EvLogError "aac encode failed"].
    cbn. by rewrite <- app_assoc. }
  case_decide.
  { injection H as <-. exists [EvEncode x0 (uPcmTimestamp x) rc'; EvLogError "OOM: pData"].
    cbn. by rewrite <- app_assoc. }
  unfold KVS_MALLOC in H. cbn [n_malloc tick_enc emit] in H.
  destruct (malloc_ret env (n_malloc x1)).
  - cbn [alloc] in H. case_decide.
    { injection H as <-. eexists [_; _; _]. cbn. rewrite <- !app_assoc. done. }
    inv_bind H. inv_bind H.
    pose proof (store_bytes_extends accum_event _ _ _ _ _ E2) as X2.
    unfold KvsApp_addFrame in H. inv_bind H. injection H as <-.
    destruct X2 as (t2 & Ht2 & Ft2 & It2 & Tt2). cbn in Ht2, It2, Tt2.
    eexists (_ :: _ :: t2 ++ [_]). cbn. rewrite Ht2. rewrite <- !app_assoc. cbn.
    rewrite forallb_app, Ft2. cbn. done.
  - case_decide; [|done].
    injection H as <-. eexists [_; _; _]. cbn. rewrite <- !app_assoc. done.
Qed.

Lemma sendAudioFrame_while_extends env p frm :
  forall fuel x w w',
    sendAudioFrame_while fuel env p frm x w = Done w' -> extends accum_event w w'.
Proof.
  induction fuel as [|fuel IH]; intros x w w' H; [discriminate|].
  cbn [sendAudioFrame_while] in H.
  case_decide; [|injection H as <-; apply extends_refl].
  inv_bind H. case_decide.
  - inv_bind H. inv_bind H. inv_bind H.
    eapply extends_trans; [eapply store_bytes_extends; eassumption|].
    eapply extends_trans; [eapply store_audio_extends; eassumption|].
    eapply IH; eassumption.
  - inv_bind H. inv_bind H. inv_bind H. inv_bind H. inv_bind H. inv_bind H. inv_bind H.
    eapply extends_trans; [eapply store_bytes_extends; eassumption|].
    eapply extends_trans; [eapply store_audio_extends; eassumption|].
    eapply extends_trans; [eapply encode_and_dispatch_extends; eassumption|].
    eapply extends_trans; [eapply store_audio_extends; eassumption|].
    eapply IH; eassumption.
Qed.

Lemma sendAudioFrame_extends fuel env w p frm w' r :
  sendAudioFrame fuel env w p frm = Done (w', r) -> extends accum_event w w'.
Proof.
  unfold sendAudioFrame. intros H. destruct frm as [frm|].
  2:{ injection H as <- <-. by apply extends_emit. }
  case_decide; [injection H as <- <-; by apply extends_emit|].
  inv_bind H. inv_bind H. inv_bind H. injection H as <- <-.
  eapply extends_trans; [|eapply sendAudioFrame_while_extends; eassumption].
  case_decide; [|injection E0 as <-; apply extends_refl].
  unfold getEpochTimestampInMs in E0.
  eapply extends_trans; [|eapply store_audio_extends; exact E0].
  eexists [_]. cbn. done.
Qed.



Lemma trace_ext_refl P w : trace_ext P w w.
Proof. exists []. by rewrite app_nil_r. Qed.

Lemma trace_ext_trans P w1 w2 w3 :
  trace_ext P w1 w2 -> trace_ext P w2 w3 -> trace_ext P w1 w3.
Proof.
  intros (t1 & H1 & F1 & T1) (t2 & H2 & F2 & T2).
  exists (t1 ++ t2). by rewrite H2, H1, app_assoc, forallb_app, F1, F2, T2, T1.
Qed.

Lemma extends_trace_ext w w' : extends accum_event w w' -> trace_ext loop_event w w'.
Proof.
  intros (tr & H & F & _ & T). exists tr. split; [done|]. split; [|done].
  rewrite forallb_forall in *. intros e He. specialize (F e He). by destruct e.
Qed.

Lemma IMP_trace env c w : trace (IMP env c w).1 = trace w ++ [EvImp c (IMP env c w).2].
Proof. reflexivity. Qed.

(** what a chain [c1 != 0 || c2 != 0 || ...] leaves in the trace: the calls
    made, all but the last returning 0 *)
Lemma imp_any_fails_trace env :
  forall cs w,
    exists rcs,
      trace (imp_any_fails env cs w).1
        = trace w ++ map (fun '(c, rc) => EvImp c rc) (zip cs rcs) /\
      heap (imp_any_fails env cs w).1 = heap w /\
      threads (imp_any_fails env cs w).1 = threads w /\
      (length rcs <= length cs)%nat /\
      ((imp_any_fails env cs w).2 = false ->
       length rcs = length cs /\ Forall (fun rc => rc = 0) rcs).
Proof.
  induction cs as [|c cs IH]; intros w.
  - exists []. cbn. rewrite app_nil_r. done.
  - cbn [imp_any_fails]. unfold IMP.
    set (rc := imp_ret env (n_imp w) c). case_decide as Hrc.
    + exists [rc]. cbn [fst snd]. split; [by destruct cs|]. split; [done|].
      split; [done|]. split; [cbn; lia|discriminate].
    + destruct (IH (emit (EvImp c rc) (tick_imp w))) as (rcs & Ht & Hh & Hth & Hl & Hf).
      exists (rc :: rcs). rewrite Ht, Hh, Hth.
      cbn [trace heap threads emit tick_imp zip zip_with map length].
      rewrite <- app_assoc. split; [done|]. split; [done|]. split; [done|]. split; [lia|].
      intros X. destruct (Hf X) as [Hlen Hall]. split; [lia|].
      constructor; [|done]. destruct (decide (rc = 0)); [done|]. contradiction.
Qed.

Lemma emit_trace_ext P e w : P e = true -> trace_ext P w (emit e w).
Proof. intros H. exists [e]. cbn. by rewrite H. Qed.

Lemma audioThread_begin_spec env p w w1 sk :
  audioThread_begin env p w = Done (w1, sk) ->
  exists tr, trace w1 = trace w ++ tr /\ forallb loop_event tr = true /\
             Forall (fun c => is_teardown c.1 = false) (imp_calls tr) /\
             threads w1 = threads w.
Proof.
  unfold audioThread_begin. intros H. case_decide.
  { injection H as <- <-. exists [EvLogError "Invalid parameter"]. cbn. done. }
  inv_bind H.
  set (cs := [IMP_AI_SetPubAttr; _; _; _; _; _]) in H.
  destruct (imp_any_fails_trace env cs w) as (rcs & Ht & _ & Hth & Hl & _).
  assert (forall rcs, forallb loop_event (map (fun '(c, rc) => EvImp c rc) (zip cs rcs)) = true
          /\ Forall (fun c => is_teardown c.1 = false)
               (imp_calls (map (fun '(c, rc) => EvImp c rc) (zip cs rcs)))) as Hz.
  { clear. intros rcs. subst cs.
    do 7 (destruct rcs as [|? rcs]; [cbn; repeat constructor|]).
    cbn; repeat constructor. }
  destruct (imp_any_fails env cs w) as [w2 failed]. cbn [fst snd] in Ht, Hth.
  destruct (Hz rcs) as [Hz1 Hz2].
  destruct failed; injection H as <- <-.
  - eexists (_ ++ [_]). cbn [trace emit LogError]. rewrite Ht, <- app_assoc.
    split; [reflexivity|]. rewrite forallb_app, Hz1. split; [done|].
    split; [|exact Hth].
    unfold imp_calls in *. rewrite omap_app. cbn. by rewrite app_nil_r.
  - eexists. split; [exact Ht|]. done.
Qed.

Lemma IMP_ext env c w : trace_ext loop_event w (IMP env c w).1.
Proof. exists [EvImp c (imp_ret env (n_imp w) c)]. done. Qed.

Lemma audioThread_iter_ext fuel env p res w w' c res' :
  audioThread_iter fuel env p res w = Done (w', c, res') -> trace_ext loop_event w w'.
Proof.
  unfold audioThread_iter, IMP_GetFrame. intros H.
  pose proof (IMP_ext env IMP_AI_PollingFrame w) as X1.
  destruct (IMP env IMP_AI_PollingFrame w) as [w1 rc1]. cbn [fst] in X1.
  eapply trace_ext_trans; [exact X1|]. clear X1.
  case_decide.
  { injection H as <- <- <-. by apply emit_trace_ext. }
  pose proof (IMP_ext env IMP_AI_GetFrame w1) as X2.
  destruct (IMP env IMP_AI_GetFrame w1) as [w2 rc2]. cbn [fst] in X2.
  eapply trace_ext_trans; [exact X2|]. clear X2.
  case_decide.
  { injection H as <- <- <-. by apply emit_trace_ext. }
  inv_bind H. destruct x as [w3 r].
  eapply trace_ext_trans;
    [apply extends_trace_ext; eapply sendAudioFrame_extends; exact E|].
  set (w4 := if decide (r <> 0) then _ else w3) in *.
  assert (trace_ext loop_event w3 w4) as X4.
  { subst w4. case_decide; [by apply emit_trace_ext|apply trace_ext_refl]. }
  eapply trace_ext_trans; [exact X4|]. clear X4.
  pose proof (IMP_ext env IMP_AI_ReleaseFrame w4) as X5.
  destruct (IMP env IMP_AI_ReleaseFrame w4) as [w5 rc5]. cbn [fst] in X5.
  eapply trace_ext_trans; [exact X5|]. clear X5.
  case_decide.
  { injection H as <- <- <-. by apply emit_trace_ext. }
  inv_bind H. destruct (isTerminating x); injection H as <- <- <-; apply trace_ext_refl.
Qed.

Lemma audioThread_while_ext fuel env p :
  forall n res w w' res',
    audioThread_while n fuel env p res w = Done (w', res') -> trace_ext loop_event w w'.
Proof.
  induction n as [|n IH]; intros res w w' res' H; [discriminate|].
  cbn [audioThread_while] in H. inv_bind H. destruct x as [[w1 c] r1].
  eapply trace_ext_trans; [eapply audioThread_iter_ext; exact E|].
  destruct c; [eapply IH; exact H|]. injection H as <- <-. apply trace_ext_refl.
Qed.

Lemma audioThread_teardown_spec env res w :
  exists rc tr2,
    trace (audioThread_teardown env res w).1
      = trace w ++ EvImp IMP_AI_DisableChn rc :: tr2 /\
    forallb loop_event tr2 = true /\
    (rc = 0 -> exists rc' tr3, tr2 = EvImp IMP_AI_Disable rc' :: tr3) /\
    threads (audioThread_teardown env res w).1 = threads w.
Proof.
  unfold audioThread_teardown. cbn [imp_any_fails]. unfold IMP.
  set (rc := imp_ret env (n_imp w) IMP_AI_DisableChn).
  case_decide as H1.
  { exists rc, [EvLogError "Audio device disable error"]. cbn.
    rewrite <- app_assoc. split; [done|]. split; [done|]. split; [|done].
    intros; contradiction. }
  cbn [n_imp emit tick_imp].
  set (rc' := imp_ret env (S (n_imp w)) IMP_AI_Disable).
  case_decide as H2.
  - exists rc, [EvImp IMP_AI_Disable rc'; EvLogError "Audio device disable error"].
    cbn. rewrite <- !app_assoc. split; [done|]. split; [done|]. split; [|done].
    intros _. eauto.
  - exists rc, [EvImp IMP_AI_Disable rc']. cbn. rewrite <- !app_assoc.
    split; [done|]. split; [done|]. split; [|done]. intros _. eauto.
Qed.

Lemma audioThread_exit_spec p res w w' r :
  audioThread_exit p res w = Done (w', r) ->
  r = res /\ trace w' = trace w ++ [EvSetTerminated p] /\
  threads w' = threads w /\
  exists a', load_audio w' p = Done a' /\ isTerminated a' = true.
Proof.
  unfold audioThread_exit. intros H. inv_bind H. inv_bind H. injection H as <- <-.
  unfold store_audio in E0. destruct (heap w !! p) as [[]|]; try discriminate.
  injection E0 as <-. split; [done|]. split; [done|]. split; [done|].
  eexists. unfold load_audio. cbn. rewrite lookup_insert_eq. done.
Qed.


(** ** Who stores [isTerminated] *)

Lemma audioThread_body_exit fuel env p w :
  audioThread fuel env p w
  = (do (w1, res) <- audioThread_body fuel env p w; audioThread_exit p res w1).
Proof.
  unfold audioThread, audioThread_body.
  destruct (audioThread_begin env p w) as [[w1 [r|]]| |]; reflexivity.
Qed.

Lemma handles_kept_refl w : handles_kept w w.
Proof. by intros q a. Qed.

Lemma handles_kept_trans w1 w2 w3 :
  handles_kept w1 w2 -> handles_kept w2 w3 -> handles_kept w1 w3.
Proof. intros H1 H2 q a H. by apply H1, H2. Qed.

Lemma handles_kept_heap w w' : heap w' = heap w -> handles_kept w w'.
Proof. intros H q a. unfold handle_at. by rewrite H. Qed.

Lemma flags_kept_refl w : flags_kept w w.
Proof. by intros q. Qed.

Lemma flags_kept_trans w1 w2 w3 : flags_kept w1 w2 -> flags_kept w2 w3 -> flags_kept w1 w3.
Proof. intros H1 H2 q H. by apply H1, H2. Qed.

Lemma handles_flags_kept w w' : handles_kept w w' -> flags_kept w w'.
Proof.
  intros H q. unfold terminated_at. destruct (handle_at w' q) as [a|] eqn:E; [|done].
  by rewrite (H q a E).
Qed.

Lemma flags_kept_heap w w' : heap w' = heap w -> flags_kept w w'.
Proof. intros H. by apply handles_flags_kept, handles_kept_heap. Qed.

Lemma handle_at_insert_ne h (p q : ptr) o w w' :
  heap w' = <[p := o]> h -> heap w = h -> q <> p -> handle_at w' q = handle_at w q.
Proof. intros H1 H2 Hq. unfold handle_at. rewrite H1, H2. by rewrite lookup_insert_ne. Qed.

(** writing an object that is not a handle *)
Lemma insert_kept (p : ptr) o w w' :
  heap w' = <[p := o]> (heap w) -> (forall a, o <> OAudio a) -> handles_kept w w'.
Proof.
  intros H Ho q a. unfold handle_at. rewrite H.
  destruct (decide (q = p)) as [->|Hq].
  - rewrite lookup_insert_eq. destruct o; try discriminate. intros _. by destruct (Ho _ eq_refl).
  - by rewrite lookup_insert_ne.
Qed.

Lemma store_bytes_kept w p off src w' : store_bytes w p off src = Done w' -> handles_kept w w'.
Proof.
  intros H. apply store_bytes_inv in H as (bs & _ & ->).
  eapply insert_kept; [reflexivity|discriminate].
Qed.

Lemma store_track_info_kept w p ti w' :
  store_track_info w p ti = Done w' -> handles_kept w w'.
Proof.
  intros H. apply store_track_info_inv in H as [_ ->].
  eapply insert_kept; [reflexivity|discriminate].
Qed.

Lemma KVS_MALLOC_kept env sz init w :
  (forall a, init <> OAudio a) -> handles_kept w (KVS_MALLOC env sz init w).1.
Proof.
  intros H. unfold KVS_MALLOC. destruct (malloc_ret env (n_malloc w)); cbn.
  - eapply insert_kept; [reflexivity|exact H].
  - by apply handles_kept_heap.
Qed.

Lemma KVS_FREE_kept p w w' : KVS_FREE p w = Done w' -> handles_kept w w'.
Proof.
  unfold KVS_FREE. case_decide; [intros [= <-]; apply handles_kept_refl|].
  destruct (heap w !! p) eqn:E; [|discriminate]. intros [= <-] q a.
  unfold handle_at. cbn. destruct (decide (q = p)) as [->|Hq].
  - by rewrite lookup_delete_eq.
  - by rewrite lookup_delete_ne.
Qed.

(** a store of the handle that leaves [isTerminated] as it is *)
Lemma store_audio_flags w (p : ptr) a' w' :
  store_audio w p a' = Done w' ->
  (forall a, handle_at w p = Some a -> isTerminated a' = true -> isTerminated a = true) ->
  flags_kept w w'.
Proof.
  intros H Ha. apply store_audio_inv in H as [[a0 H0] ->]. intros q.
  unfold terminated_at, handle_at. cbn.
  destruct (decide (q = p)) as [->|Hq].
  - rewrite lookup_insert_eq, H0. apply Ha. unfold handle_at. by rewrite H0.
  - by rewrite lookup_insert_ne.
Qed.

(** ... as it was when the handle was read, nothing having written the
    handle since *)
Lemma store_audio_flags_from w0 w (p : ptr) a0 a' w' :
  load_audio w0 p = Done a0 -> handles_kept w0 w ->
  store_audio w p a' = Done w' -> isTerminated a' = isTerminated a0 ->
  flags_kept w w'.
Proof.
  intros H0 Hk H Hf. eapply store_audio_flags; [exact H|].
  intros a Ha. apply Hk in Ha. apply load_audio_inv in H0.
  unfold handle_at in Ha. rewrite H0 in Ha. injection Ha as <-. by rewrite Hf.
Qed.

Lemma store_audio_load w (p : ptr) a w' : store_audio w p a = Done w' -> load_audio w' p = Done a.
Proof.
  intros H. apply store_audio_inv in H as [_ ->]. apply load_audio_intro. cbn.
  apply lookup_insert_eq.
Qed.

Lemma encode_and_dispatch_kept env w p w' :
  encode_and_dispatch env w p = Done w' -> handles_kept w w'.
Proof.
  unfold encode_and_dispatch. intros H.
  apply bind_Done in H as (a & Ea & H). apply bind_Done in H as (pcm & Ep & H).
  apply bind_Done in H as ([[w1 rc] xl] & Ee & H).
  unfold AacEncoder_encode in Ee.
  destruct (encode_ret env (n_enc w) pcm) as [rc' out].
  apply bind_Done in Ee as (w0 & Es & Ee). injection Ee as <- <- <-.
  eapply handles_kept_trans; [eapply store_bytes_kept; exact Es|].
  destruct (decide (rc' <> 0)).
  { injection H as <-. by apply handles_kept_heap. }
  destruct (decide (to_size _ = 0)).
  { injection H as <-. by apply handles_kept_heap. }
  match type of H with context [KVS_MALLOC env ?sz ?init ?w1] =>
    pose proof (KVS_MALLOC_kept env sz init w1 ltac:(discriminate)) as X;
    destruct (KVS_MALLOC env sz init w1) as [w2 pData] end.
  cbn [fst] in X. eapply handles_kept_trans; [eapply handles_kept_trans; [|exact X]|].
  { by apply handles_kept_heap. }
  case_decide.
  { injection H as <-. by apply handles_kept_heap. }
  apply bind_Done in H as (enc & El & H). apply bind_Done in H as (w3 & Ec & H).
  unfold KvsApp_addFrame in H. apply bind_Done in H as (data & Ed & H).
  injection H as <-.
  eapply handles_kept_trans; [eapply store_bytes_kept; exact Ec|].
  by apply handles_kept_heap.
Qed.

Lemma sendAudioFrame_while_flags env (p : ptr) frm :
  forall fuel x w w',
    sendAudioFrame_while fuel env p frm x w = Done w' -> flags_kept w w'.
Proof.
  induction fuel as [|fuel IH]; intros x w w' H; [discriminate|].
  cbn [sendAudioFrame_while] in H.
  case_decide; [|injection H as <-; apply flags_kept_refl].
  apply bind_Done in H as (a & Ea & H). case_decide.
  - apply bind_Done in H as (src & Esrc & H). apply bind_Done in H as (w1 & Eb & H).
    apply bind_Done in H as (w2 & Es & H).
    pose proof (store_bytes_kept _ _ _ _ _ Eb) as K1.
    eapply flags_kept_trans; [apply handles_flags_kept; exact K1|].
    eapply flags_kept_trans;
      [exact (store_audio_flags_from _ _ _ _ _ _ Ea K1 Es eq_refl)|].
    eapply IH; exact H.
  - apply bind_Done in H as (src & Esrc & H). apply bind_Done in H as (w1 & Eb & H).
    apply bind_Done in H as (w2 & Es & H). apply bind_Done in H as (w3 & Ed & H).
    apply bind_Done in H as (a3 & El & H). apply bind_Done in H as (d & Et & H).
    apply bind_Done in H as (w4 & Es4 & H).
    pose proof (store_bytes_kept _ _ _ _ _ Eb) as K1.
    eapply flags_kept_trans; [apply handles_flags_kept; exact K1|].
    eapply flags_kept_trans;
      [exact (store_audio_flags_from _ _ _ _ _ _ Ea K1 Es eq_refl)|].
    eapply flags_kept_trans;
      [apply handles_flags_kept; eapply encode_and_dispatch_kept; exact Ed|].
    eapply flags_kept_trans;
      [exact (store_audio_flags_from _ _ _ _ _ _ El (handles_kept_refl _) Es4 eq_refl)|].
    eapply IH; exact H.
Qed.

(** [sendAudioFrame] never touches [isTerminated] *)
Lemma sendAudioFrame_flags fuel env w (p : ptr) frm w' r :
  sendAudioFrame fuel env w p frm = Done (w', r) -> flags_kept w w'.
Proof.
  unfold sendAudioFrame. intros H. destruct frm as [frm|].
  2:{ injection H as <- <-. by apply flags_kept_heap. }
  case_decide; [injection H as <- <-; by apply flags_kept_heap|].
  apply bind_Done in H as (a & Ea & H). apply bind_Done in H as (w1 & E1 & H).
  apply bind_Done in H as (w2 & E2 & H). injection H as <- <-.
  eapply flags_kept_trans; [|eapply sendAudioFrame_while_flags; exact E2].
  case_decide; [|injection E1 as <-; apply flags_kept_refl].
  unfold getEpochTimestampInMs in E1.
  eapply flags_kept_trans; [|eapply (store_audio_flags_from w); [exact Ea| |exact E1|reflexivity]].
  - by apply flags_kept_heap.
  - by apply handles_kept_heap.
Qed.

Lemma device_ok_app c1 c2 : device_ok (c1 ++ c2) = device_ok c1 && device_ok c2.
Proof. apply forallb_app. Qed.

Lemma imp_any_fails_heap env cs w : heap (imp_any_fails env cs w).1 = heap w.
Proof. destruct (imp_any_fails_trace env cs w) as (rcs & _ & H & _). exact H. Qed.

(** a chain of configuration calls fails exactly when one of its calls does *)
Lemma imp_any_fails_device env cs :
  Forall (fun c => c <> IMP_AI_PollingFrame /\ is_teardown c = false) cs ->
  forall w, exists tr,
    trace (imp_any_fails env cs w).1 = trace w ++ tr /\
    device_ok (imp_calls tr) = negb (imp_any_fails env cs w).2.
Proof.
  induction cs as [|c cs IH]; intros Hcs w.
  - exists []. by rewrite app_nil_r.
  - inversion Hcs as [|? ? [Hc1 Hc2] Hcs']; subst.
    cbn [imp_any_fails]. unfold IMP. case_decide as Hrc.
    + eexists [_]. split; [reflexivity|]. cbn.
      destruct (Z.eqb_spec (imp_ret env (n_imp w) c) 0); [contradiction|].
      by destruct c.
    + destruct (IH Hcs' (emit (EvImp c (imp_ret env (n_imp w) c)) (tick_imp w)))
        as (tr & Ht & Hd).
      eexists (_ :: tr). rewrite Ht. cbn [trace emit tick_imp].
      rewrite <- app_assoc. split; [reflexivity|]. rewrite <- Hd.
      change (imp_calls (EvImp c (imp_ret env (n_imp w) c) :: tr))
        with ((c, imp_ret env (n_imp w) c) :: imp_calls tr).
      cbn [device_ok forallb].
      destruct (Z.eqb_spec (imp_ret env (n_imp w) c) 0); [|contradiction].
      by destruct c.
Qed.

(** the teardown calls do not count as failures *)
Lemma imp_any_fails_teardown env cs :
  Forall (fun c => is_teardown c = true) cs ->
  forall w, exists tr,
    trace (imp_any_fails env cs w).1 = trace w ++ tr /\
    device_ok (imp_calls tr) = true.
Proof.
  induction cs as [|c cs IH]; intros Hcs w.
  - exists []. by rewrite app_nil_r.
  - inversion Hcs as [|? ? Hc Hcs']; subst.
    cbn [imp_any_fails]. unfold IMP. case_decide as Hrc.
    + eexists [_]. split; [reflexivity|]. cbn. by destruct c.
    + destruct (IH Hcs' (emit (EvImp c (imp_ret env (n_imp w) c)) (tick_imp w)))
        as (tr & Ht & Hd).
      eexists (_ :: tr). rewrite Ht. cbn [trace emit tick_imp].
      rewrite <- app_assoc. split; [reflexivity|].
      change (imp_calls (EvImp c (imp_ret env (n_imp w) c) :: tr))
        with ((c, imp_ret env (n_imp w) c) :: imp_calls tr).
      cbn [device_ok forallb]. fold (device_ok (imp_calls tr)). rewrite Hd.
      by destruct c.
Qed.

Lemma terminating_at_load w (p : ptr) a :
  load_audio w p = Done a -> terminating_at w p = isTerminating a.
Proof.
  intros H. apply load_audio_inv in H. unfold terminating_at, handle_at. by rewrite H.
Qed.

Lemma terminated_at_load w (p : ptr) a :
  load_audio w p = Done a -> terminated_at w p = isTerminated a.
Proof.
  intros H. apply load_audio_inv in H. unfold terminated_at, handle_at. by rewrite H.
Qed.

(** the device setup does not touch the heap; it skips the loop exactly
    when a configuration call fails *)
Lemma audioThread_begin_heap env (p : ptr) w w1 sk :
  audioThread_begin env p w = Done (w1, sk) ->
  heap w1 = heap w /\
  exists tr, trace w1 = trace w ++ tr /\
    (p <> NULL -> device_ok (imp_calls tr) = match sk with None => true | Some _ => false end).
Proof.
  unfold audioThread_begin. intros H. case_decide as Hp.
  { injection H as <- <-. split; [done|]. eexists [_]. split; [reflexivity|]. done. }
  apply bind_Done in H as (a & Ea & H).
  match type of H with context [imp_any_fails env ?cs w] =>
    pose proof (imp_any_fails_heap env cs w) as Hh;
    destruct (imp_any_fails_device env cs) with (w := w) as (t & Ht & Hd);
      [repeat constructor; discriminate|];
    destruct (imp_any_fails env cs w) as [w0 failed] end.
  cbn [fst snd] in Hh, Ht, Hd. destruct failed; injection H as <- <-.
  - split; [exact Hh|]. exists (t ++ [EvLogError "Failed to setup audio"]).
    cbn [LogError trace emit]. rewrite Ht, <- app_assoc. split; [done|]. intros _.
    rewrite imp_calls_app, device_ok_app, Hd. reflexivity.
  - split; [exact Hh|]. exists t. done.
Qed.

Lemma audioThread_teardown_heap env res w :
  heap (audioThread_teardown env res w).1 = heap w /\
  exists tr, trace (audioThread_teardown env res w).1 = trace w ++ tr /\
             device_ok (imp_calls tr) = true.
Proof.
  unfold audioThread_teardown.
  match goal with |- context [imp_any_fails env ?cs w] =>
    pose proof (imp_any_fails_heap env cs w) as Hh;
    destruct (imp_any_fails_teardown env cs) with (w := w) as (t & Ht & Hd);
      [repeat constructor|];
    destruct (imp_any_fails env cs w) as [w0 failed] end.
  cbn [fst] in Hh, Ht. destruct failed; cbn [fst LogError heap trace emit].
  - split; [exact Hh|]. exists (t ++ [EvLogError "Audio device disable error"]).
    rewrite Ht, <- app_assoc. split; [done|].
    rewrite imp_calls_app, device_ok_app, Hd. reflexivity.
  - split; [exact Hh|]. by exists t.
Qed.

(** a pass through the loop body never stores [isTerminated]; it leaves the
    loop on a failed fetch, on a failed release, or with [isTerminating]
    set *)
Lemma audioThread_iter_flags fuel env (p : ptr) res w w' c res' :
  audioThread_iter fuel env p res w = Done (w', c, res') ->
  flags_kept w w' /\
  exists tr, trace w' = trace w ++ tr /\
    (c = Break -> device_ok (imp_calls tr) = true -> terminating_at w' p = true).
Proof.
  unfold audioThread_iter, IMP_GetFrame, IMP. intros H.
  case_decide.
  { injection H as <- <- <-. split; [by apply flags_kept_heap|].
    eexists [_; _]. cbn [LogError trace emit tick_imp].
    rewrite <- app_assoc. split; [reflexivity|]. discriminate. }
  cbn [n_imp emit tick_imp] in H. case_decide as Hget.
  { injection H as <- <- <-. split; [by apply flags_kept_heap|].
    eexists [_; _; _]. cbn [LogError trace emit tick_imp].
    rewrite <- !app_assoc. split; [reflexivity|]. intros _. cbn.
    destruct (Z.eqb_spec (imp_ret env (S (n_imp w)) IMP_AI_GetFrame) 0); [contradiction|done]. }
  apply bind_Done in H as ([w3 r] & E & H).
  pose proof (sendAudioFrame_flags _ _ _ _ _ _ _ E) as F1.
  destruct (sendAudioFrame_extends _ _ _ _ _ _ _ E) as (t1 & Ht1 & Hf1 & _).
  pose proof (imp_calls_accum _ Hf1) as Hi1.
  cbn [trace emit tick_imp] in Ht1.
  set (w4 := if decide (r <> 0) then _ else w3) in *.
  assert (heap w4 = heap w3 /\ exists t2, trace w4 = trace w3 ++ t2 /\ imp_calls t2 = [])
    as (Hh4 & t2 & Ht2 & Hi2).
  { subst w4. destruct (decide (r <> 0)); (split; [reflexivity|]);
      [eexists [_]; split; reflexivity|].
    exists []. by rewrite app_nil_r. }
  set (rc := imp_ret env (n_imp w4) IMP_AI_ReleaseFrame) in *.
  assert (heap w' = heap w4 /\
          exists t3, trace w' = trace w4 ++ EvImp IMP_AI_ReleaseFrame rc :: t3 /\
                     imp_calls t3 = [] /\
                     (c = Break -> rc = 0 -> terminating_at w' p = true))
    as (Hh5 & t3 & Ht3 & Hi3 & Hc).
  { case_decide as Hrel.
    - injection H as <- <- <-. split; [reflexivity|]. eexists [_].
      cbn [LogError trace emit tick_imp]. rewrite <- app_assoc.
      split; [reflexivity|]. split; [reflexivity|]. intros _ X. contradiction.
    - apply bind_Done in H as (a & Ea & H).
      destruct (isTerminating a) eqn:Hterm; injection H as <- <- <-;
        (split; [reflexivity|]); exists []; (split; [reflexivity|]);
        (split; [reflexivity|]); [|discriminate].
      intros _ _. by rewrite (terminating_at_load _ _ _ Ea). }
  split.
  - eapply flags_kept_trans; [|apply flags_kept_heap; exact Hh5].
    eapply flags_kept_trans; [|apply flags_kept_heap; exact Hh4].
    eapply flags_kept_trans; [|exact F1]. by apply flags_kept_heap.
  - exists ([EvImp IMP_AI_PollingFrame (imp_ret env (n_imp w) IMP_AI_PollingFrame);
             EvImp IMP_AI_GetFrame (imp_ret env (S (n_imp w)) IMP_AI_GetFrame)]
            ++ t1 ++ t2 ++ [EvImp IMP_AI_ReleaseFrame rc] ++ t3).
    rewrite Ht3, Ht2, Ht1, <- !app_assoc. split; [reflexivity|].
    intros Hb. rewrite !imp_calls_app, Hi1, Hi2, Hi3. cbn.
    intros Hd. apply andb_prop in Hd as [_ Hd]. apply andb_prop in Hd as [Hd _].
    apply Hc; [exact Hb|]. by apply Z.eqb_eq.
Qed.

Lemma audioThread_while_flags fuel env (p : ptr) :
  forall n res w w' res',
    audioThread_while n fuel env p res w = Done (w', res') ->
    flags_kept w w' /\
    exists tr, trace w' = trace w ++ tr /\
      (device_ok (imp_calls tr) = true -> terminating_at w' p = true).
Proof.
  induction n as [|n IH]; intros res w w' res' H; [discriminate|].
  cbn [audioThread_while] in H. apply bind_Done in H as ([[w1 c] r1] & E & H).
  destruct (audioThread_iter_flags _ _ _ _ _ _ _ _ E) as (F1 & t1 & Ht1 & Hc1).
  destruct c.
  - destruct (IH _ _ _ _ H) as (F2 & t2 & Ht2 & Hc2).
    split; [by eapply flags_kept_trans|].
    exists (t1 ++ t2). rewrite Ht2, Ht1, app_assoc. split; [done|].
    rewrite imp_calls_app, device_ok_app. intros [_ Hd]%andb_prop. by apply Hc2.
  - injection H as <- <-. split; [exact F1|]. exists t1. split; [done|]. by apply Hc1.
Qed.

Lemma terminating_at_heap w w' (p : ptr) : heap w' = heap w -> terminating_at w' p = terminating_at w p.
Proof. intros H. unfold terminating_at, handle_at. by rewrite H. Qed.

(** the worker up to line 268: it stores [isTerminated] nowhere, and unless
    a device call has failed it gets there with [isTerminating] set *)
Lemma audioThread_body_flags fuel env (p : ptr) w w1 res :
  audioThread_body fuel env p w = Done (w1, res) ->
  flags_kept w w1 /\
  exists tr, trace w1 = trace w ++ tr /\
    (p <> NULL -> device_ok (imp_calls tr) = true -> terminating_at w1 p = true).
Proof.
  unfold audioThread_body. intros H.
  apply bind_Done in H as ([w0 sk] & E & H).
  destruct (audioThread_begin_heap _ _ _ _ _ E) as (Hh0 & t0 & Ht0 & Hd0).
  destruct sk as [r|].
  { injection H as <- <-. split; [by apply flags_kept_heap|]. exists t0.
    split; [done|]. intros Hp Hd. rewrite (Hd0 Hp) in Hd. discriminate. }
  apply bind_Done in H as ([w2 r2] & E2 & H).
  destruct (audioThread_while_flags _ _ _ _ _ _ _ _ E2) as (F2 & t2 & Ht2 & Hc2).
  destruct (audioThread_teardown_heap env r2 w2) as (Hh3 & t3 & Ht3 & Hd3).
  injection H as H. rewrite H in Hh3, Ht3. cbn [fst] in Hh3, Ht3.
  split.
  - eapply flags_kept_trans; [by apply flags_kept_heap|].
    eapply flags_kept_trans; [exact F2|]. by apply flags_kept_heap.
  - exists (t0 ++ t2 ++ t3). rewrite Ht3, Ht2, Ht0, <- !app_assoc. split; [done|].
    intros Hp. rewrite !imp_calls_app, !device_ok_app.
    intros [_ [Hd _]%andb_prop]%andb_prop.
    rewrite (terminating_at_heap _ _ _ Hh3). by apply Hc2.
Qed.

(** the last statement of the worker: one store, of [isTerminated] *)
Lemma audioThread_exit_store (p : ptr) res w w' r :
  audioThread_exit p res w = Done (w', r) ->
  exists a, load_audio w p = Done a /\ r = res /\
    w' = emit (EvSetTerminated p)
           (set_heap (<[p := OAudio (set_isTerminated true a)]> (heap w)) w).
Proof.
  unfold audioThread_exit. intros H.
  apply bind_Done in H as (a & Ea & H). apply bind_Done in H as (w1 & Es & H).
  injection H as <- <-. apply store_audio_inv in Es as [_ ->]. by exists a.
Qed.

(** ** The caller's code never stores [isTerminated] *)

Lemma initAudioTrackInfo_flags env (p : ptr) w w' r :
  initAudioTrackInfo env p w = Done (w', r) -> flags_kept w w'.
Proof.
  unfold initAudioTrackInfo. intros H.
  case_decide; [injection H as <- <-; by apply flags_kept_heap|].
  apply bind_Done in H as (a & Ea & H).
  case_decide; [|injection H as <- <-; apply flags_kept_refl].
  match type of H with context [KVS_MALLOC env ?sz ?init w] =>
    pose proof (KVS_MALLOC_kept env sz init w ltac:(discriminate)) as K1;
    destruct (KVS_MALLOC env sz init w) as [w1 pInfo] end.
  cbn [fst] in K1.
  case_decide.
  { injection H as <- <-. apply handles_flags_kept.
    eapply handles_kept_trans; [exact K1|]. by apply handles_kept_heap. }
  apply bind_Done in H as (w2 & E2 & H).
  pose proof (handles_kept_trans _ _ _ K1 (store_track_info_kept _ _ _ _ E2)) as K2.
  unfold Mkv_generateAacCodecPrivateData in H.
  destruct (mkv_ret env (n_ext w2)) as [rc blob].
  case_decide.
  - cbn [alloc] in H. rewrite decide_False in H by (intros X; by apply X).
    apply bind_Done in H as (w3 & E3 & H). apply bind_Done in H as (w4 & E4 & H).
    injection H as <- <-.
    assert (handles_kept w w3) as K3.
    { eapply handles_kept_trans; [exact K2|].
      eapply handles_kept_trans; [|eapply store_track_info_kept; exact E3].
      eapply insert_kept; [reflexivity|discriminate]. }
    eapply flags_kept_trans; [apply handles_flags_kept; exact K3|].
    exact (store_audio_flags_from _ _ _ _ _ _ Ea K3 E4 eq_refl).
  - rewrite decide_True in H by done. apply bind_Done in H as (w3 & E3 & H).
    injection H as <- <-. apply handles_flags_kept.
    eapply handles_kept_trans; [exact K2|].
    eapply handles_kept_trans; [|eapply KVS_FREE_kept; exact E3].
    by apply handles_kept_heap.
Qed.

Lemma initAacEncoder_flags env (p : ptr) w w' r :
  initAacEncoder env p w = Done (w', r) -> flags_kept w w'.
Proof.
  unfold initAacEncoder. intros H.
  case_decide; [injection H as <- <-; by apply flags_kept_heap|].
  apply bind_Done in H as (a & Ea & H).
  assert (handles_kept w (AacEncoder_create env w).1.1) as K1.
  { unfold AacEncoder_create. destruct (aac_create_ret env (n_ext w)); cbn.
    - eapply insert_kept; [reflexivity|discriminate].
    - by apply handles_kept_heap. }
  destruct (AacEncoder_create env w) as [[w1 hdl] out]. cbn [fst] in K1.
  apply bind_Done in H as (w2 & E2 & H).
  assert (flags_kept w w2) as F2.
  { eapply flags_kept_trans; [apply handles_flags_kept; exact K1|].
    eapply (store_audio_flags_from w); [exact Ea|exact K1|exact E2|by destruct out]. }
  pose proof (store_audio_load _ _ _ _ E2) as L2.
  case_decide; [injection H as <- <-;
                eapply flags_kept_trans; [exact F2|by apply flags_kept_heap]|].
  match type of H with context [KVS_MALLOC env ?sz ?init w2] =>
    pose proof (KVS_MALLOC_kept env sz init w2 ltac:(discriminate)) as K3;
    destruct (KVS_MALLOC env sz init w2) as [w3 p3] end.
  cbn [fst] in K3.
  apply bind_Done in H as (w4 & E4 & H).
  assert (flags_kept w w4) as F4.
  { eapply flags_kept_trans; [exact F2|].
    eapply flags_kept_trans; [apply handles_flags_kept; exact K3|].
    exact (store_audio_flags_from _ _ _ _ _ _ L2 K3 E4 eq_refl). }
  pose proof (store_audio_load _ _ _ _ E4) as L4.
  case_decide; [injection H as <- <-;
                eapply flags_kept_trans; [exact F4|by apply flags_kept_heap]|].
  match type of H with context [KVS_MALLOC env ?sz ?init w4] =>
    pose proof (KVS_MALLOC_kept env sz init w4 ltac:(discriminate)) as K5;
    destruct (KVS_MALLOC env sz init w4) as [w5 p5] end.
  cbn [fst] in K5.
  apply bind_Done in H as (w6 & E6 & H).
  assert (flags_kept w w6) as F6.
  { eapply flags_kept_trans; [exact F4|].
    eapply flags_kept_trans; [apply handles_flags_kept; exact K5|].
    exact (store_audio_flags_from _ _ _ _ _ _ L4 K5 E6 eq_refl). }
  pose proof (store_audio_load _ _ _ _ E6) as L6.
  case_decide; [injection H as <- <-;
                eapply flags_kept_trans; [exact F6|by apply flags_kept_heap]|].
  apply bind_Done in H as (w7 & E7 & H). injection H as <- <-.
  eapply flags_kept_trans; [exact F6|].
  exact (store_audio_flags_from _ _ _ _ _ _ L6 (handles_kept_refl _) E7 eq_refl).
Qed.

(** a store of a handle whose [isTerminated] is clear *)
Lemma store_audio_flags_clear w (p : ptr) a' w' :
  store_audio w p a' = Done w' -> isTerminated a' = false -> flags_kept w w'.
Proof.
  intros H Hf. eapply store_audio_flags; [exact H|]. intros a _. by rewrite Hf.
Qed.

(** lines 381-421 of [T31Audio_create]: the new handle starts with
    [isTerminated] clear and no store sets it *)
Lemma T31Audio_create_init_flags env h w w' p r :
  T31Audio_create_init env h w = Done (w', p, r) -> flags_kept w w'.
Proof.
  unfold T31Audio_create_init. intros H.
  assert (flags_kept w (KVS_MALLOC env SizeofT31Audio (OAudio T31Audio_zero) w).1) as F1.
  { unfold KVS_MALLOC. destruct (malloc_ret env (n_malloc w)); cbn;
      [|by apply flags_kept_heap].
    intros q. unfold terminated_at, handle_at. cbn.
    destruct (decide (q = brk w)) as [->|Hq].
    - rewrite lookup_insert_eq. discriminate.
    - by rewrite lookup_insert_ne. }
  destruct (KVS_MALLOC env _ _ w) as [w1 pAudio]. cbn [fst] in F1.
  apply bind_Done in H as ([w2 res] & E & H). injection H as <- <- <-.
  eapply flags_kept_trans; [exact F1|]. clear F1.
  case_decide; [injection E as <- <-; by apply flags_kept_heap|].
  apply bind_Done in E as (wa & Ea & E).
  eapply flags_kept_trans; [exact (store_audio_flags_clear _ _ _ _ Ea eq_refl)|].
  assert (heap (Lock_Init env wa).1 = heap wa \/
          exists l, heap (Lock_Init env wa).1 = <[l := OLock]> (heap wa)) as X2.
  { unfold Lock_Init. destruct (lock_init_ret env (n_ext wa)); cbn; eauto. }
  assert (flags_kept wa (Lock_Init env wa).1) as F2.
  { destruct X2 as [X|[l X]]; [by apply flags_kept_heap|].
    apply handles_flags_kept. eapply insert_kept; [exact X|discriminate]. }
  clear X2. destruct (Lock_Init env wa) as [wb l]. cbn [fst] in F2.
  eapply flags_kept_trans; [exact F2|]. clear F2.
  apply bind_Done in E as (wc & Ec & E).
  eapply flags_kept_trans; [exact (store_audio_flags_clear _ _ _ _ Ec eq_refl)|].
  case_decide; [injection E as <- <-; by apply flags_kept_heap|].
  cbn [audioConfigurationInit] in E.
  apply bind_Done in E as (wd & Ed & E).
  eapply flags_kept_trans; [exact (store_audio_flags_clear _ _ _ _ Ed eq_refl)|].
  case_decide; [injection E as <- <-; by apply flags_kept_heap|].
  apply bind_Done in E as ([we re] & Ee & E).
  eapply flags_kept_trans; [eapply initAudioTrackInfo_flags; exact Ee|].
  case_decide; [injection E as <- <-; by apply flags_kept_heap|].
  apply bind_Done in E as ([wf rf] & Ef & E).
  eapply flags_kept_trans; [eapply initAacEncoder_flags; exact Ef|].
  case_decide; [injection E as <- <-; by apply flags_kept_heap|].
  assert (heap (pthread_create env pAudio wf).1.1 = heap wf) as X3.
  { unfold pthread_create. by case_decide. }
  destruct (pthread_create env pAudio wf) as [[wg rc] t]. cbn [fst] in X3.
  eapply flags_kept_trans; [apply flags_kept_heap; exact X3|].
  apply bind_Done in E as (a & Eg & E). apply bind_Done in E as (wh & Eh & E).
  eapply flags_kept_trans;
    [eapply (store_audio_flags_from wg); [exact Eg|apply handles_kept_refl|exact Eh|
                                          by destruct t]|].
  case_decide; injection E as <- <-; [by apply flags_kept_heap|apply flags_kept_refl].
Qed.

(** the clone accessor writes no handle at all *)
Lemma clone_kept env (p : ptr) w w' q :
  T31Audio_getAudioTrackInfoClone env p w = Done (w', q) -> handles_kept w w'.
Proof.
  unfold T31Audio_getAudioTrackInfoClone. intros H.
  case_decide; [injection H as <- <-; apply handles_kept_refl|].
  apply bind_Done in H as (a & Ea & H). apply bind_Done in H as ([w1 rc] & E1 & H).
  assert (handles_kept w w1) as K1.
  { unfold Lock in E1. destruct (heap w !! lock a) as [[]|]; try discriminate.
    injection E1 as <- <-. by apply handles_kept_heap. }
  eapply handles_kept_trans; [exact K1|]. clear K1 E1.
  case_decide; [injection H as <- <-; by apply handles_kept_heap|].
  apply bind_Done in H as (a1 & Ea1 & H). apply bind_Done in H as ([w2 pInfo] & E2 & H).
  apply bind_Done in H as (w3 & E3 & H). injection H as <- <-.
  assert (handles_kept w2 w3) as K3.
  { unfold Unlock in E3. destruct (heap w2 !! lock a1) as [[]|]; try discriminate.
    injection E3 as <-. by apply handles_kept_heap. }
  eapply handles_kept_trans; [|exact K3]. clear K3 E3.
  case_decide; [|injection E2 as <- <-; apply handles_kept_refl].
  match type of E2 with context [KVS_MALLOC env ?sz ?init w1] =>
    pose proof (KVS_MALLOC_kept env sz init w1 ltac:(discriminate)) as K2;
    destruct (KVS_MALLOC env sz init w1) as [w4 p4] end.
  cbn [fst] in K2. eapply handles_kept_trans; [exact K2|]. clear K2.
  case_decide; [injection E2 as <- <-; by apply handles_kept_heap|].
  apply bind_Done in E2 as (ti & Eti & E2). apply bind_Done in E2 as (w5 & E5 & E2).
  injection E2 as <- <-. eapply store_track_info_kept; exact E5.
Qed.

(** ** The flag and the workers *)

Lemma exits_only_refl w : exits_only w w.
Proof.
  split; [done|]. split; [|by left]. intros i th H. by exists th.
Qed.

Lemma exits_only_trans w1 w2 w3 :
  exits_only w1 w2 -> exits_only w2 w3 -> exits_only w1 w3.
Proof.
  intros (L1 & T1 & F1) (L2 & T2 & F2). split; [congruence|]. split.
  - intros i th H. destruct (T1 i th H) as (th2 & H2 & A2 & X2).
    destruct (T2 i th2 H2) as (th3 & H3 & A3 & X3).
    exists th3. split; [exact H3|]. split; [congruence|].
    intros Hx. specialize (X2 Hx). subst th2. by apply X3.
  - intros q H. destruct (F2 q H) as [H2|(i & st & r & H2 & Hl & H3)].
    + destruct (F1 q H2) as [H1|(i & st & r & H1 & Hl & H2')]; [by left|].
      right. exists i, st, r. split; [exact H1|]. split; [exact Hl|].
      destruct (T2 i _ H2') as (th3 & H3 & _ & X3). rewrite H3. f_equal. by apply X3.
    + right. assert (i < length (threads w1))%nat as Hi.
      { rewrite <- L1. by eapply lookup_lt_Some. }
      apply lookup_lt_is_Some_2 in Hi as [th1 H1].
      destruct (T1 i th1 H1) as (th2 & H2' & A2 & X2).
      rewrite H2 in H2'. injection H2' as <-. cbn in A2.
      exists i, (th_state th1), r. split; [|split; [|exact H3]].
      * rewrite H1. f_equal. destruct th1. cbn in *. by subst.
      * destruct (is_exited (th_state th1)) eqn:Hx; [|done].
        specialize (X2 eq_refl). subst th1. cbn in Hx. congruence.
Qed.

(** whoever leaves the flags and the workers alone *)
Lemma flags_kept_exits w w' :
  flags_kept w w' -> threads w' = threads w -> exits_only w w'.
Proof.
  intros F T. split; [by rewrite T|]. split.
  - intros i th H. exists th. by rewrite T.
  - intros q H. left. by apply F.
Qed.

(** a step of a worker: it sets [isTerminated] of its own handle, at the
    moment it returns, and nothing else *)
Lemma thread_step_flags fuel env th w w1 th' :
  thread_step fuel env th w = Done (w1, th') ->
  threads w1 = threads w /\ th_arg th' = th_arg th /\
  (is_exited (th_state th) = true -> th' = th) /\
  (forall q, terminated_at w1 q = true ->
     terminated_at w q = true \/
     q = th_arg th /\ is_exited (th_state th) = false /\
     exists r, th' = mkThread q (WExited r)).
Proof.
  unfold thread_step. intros H. destruct (th_state th) as [|r0|r0] eqn:Hst.
  - apply bind_Done in H as ([w0 sk] & E & H).
    destruct (audioThread_begin_spec _ _ _ _ _ E) as (t1 & _ & _ & _ & Hth1).
    destruct (audioThread_begin_heap _ _ _ _ _ E) as (Hh1 & _).
    destruct sk as [res|].
    + apply bind_Done in H as ([w2 r2] & E2 & H). injection H as <- <-.
      destruct (audioThread_exit_spec _ _ _ _ _ E2) as (_ & _ & Hth2 & _).
      destruct (audioThread_exit_store _ _ _ _ _ E2) as (a & Ha & -> & ->).
      split; [by rewrite <- Hth1|]. split; [done|]. split; [discriminate|].
      intros q. unfold terminated_at, handle_at. cbn.
      destruct (decide (q = th_arg th)) as [->|Hq].
      * intros _. right. eauto.
      * rewrite lookup_insert_ne by done. rewrite Hh1. by left.
    + injection H as <- <-. split; [done|]. split; [done|]. split; [discriminate|].
      intros q Hq. left. revert Hq. by apply flags_kept_heap.
  - apply bind_Done in H as ([[w0 c] r1] & E & H).
    destruct (audioThread_iter_ext _ _ _ _ _ _ _ _ E) as (t1 & _ & _ & Hth1).
    destruct (audioThread_iter_flags _ _ _ _ _ _ _ _ E) as (F1 & _).
    destruct c.
    + injection H as <- <-. split; [done|]. split; [done|]. split; [discriminate|].
      intros q Hq. left. by apply F1.
    + destruct (audioThread_teardown_spec env r1 w0) as (rc & t2 & _ & _ & _ & Hth2).
      destruct (audioThread_teardown_heap env r1 w0) as (Hh2 & _).
      destruct (audioThread_teardown env r1 w0) as [w2 r2]. cbn [fst] in Hth2, Hh2.
      apply bind_Done in H as ([w3 r3] & E3 & H). injection H as <- <-.
      destruct (audioThread_exit_spec _ _ _ _ _ E3) as (_ & _ & Hth3 & _).
      destruct (audioThread_exit_store _ _ _ _ _ E3) as (a & Ha & -> & ->).
      split; [congruence|]. split; [done|]. split; [discriminate|].
      intros q. unfold terminated_at, handle_at. cbn.
      destruct (decide (q = th_arg th)) as [->|Hq].
      * intros _. right. eauto.
      * rewrite lookup_insert_ne by done. rewrite Hh2. intros Hq'. left.
        apply F1. exact Hq'.
  - injection H as <- <-. split; [done|]. split; [done|]. split; [done|]. by left.
Qed.

Lemma step_thread_at_exits fuel env i w w' :
  step_thread_at fuel env i w = Done w' -> exits_only w w'.
Proof.
  unfold step_thread_at. intros H.
  destruct (threads w !! i) as [th|] eqn:Hi; [|injection H as <-; apply exits_only_refl].
  apply bind_Done in H as ([w1 th'] & E & H). injection H as <-.
  destruct (thread_step_flags _ _ _ _ _ _ E) as (Hth & Harg & Hex & Hfl).
  pose proof (lookup_lt_Some _ _ _ Hi) as Hlt.
  split; [cbn; by rewrite length_insert, Hth|]. split.
  - intros j thj Hj. cbn. rewrite Hth. destruct (decide (j = i)) as [->|Hji].
    + rewrite Hi in Hj. injection Hj as <-. exists th'.
      rewrite list_lookup_insert_eq by exact Hlt. done.
    + exists thj. by rewrite list_lookup_insert_ne.
  - intros q Hq. change (terminated_at w1 q = true) in Hq.
    destruct (Hfl q Hq) as [H1|(-> & Hl & r & ->)]; [by left|].
    right. exists i, (th_state th), r. split; [|split; [exact Hl|]].
    + rewrite Hi. by destruct th.
    + cbn. rewrite Hth. by rewrite list_lookup_insert_eq.
Qed.

Lemma run_sched_exits fuel env :
  forall order w w', run_sched fuel env order w = Done w' -> exits_only w w'.
Proof.
  induction order as [|i order IH]; intros w w' H.
  - injection H as <-. apply exits_only_refl.
  - cbn [run_sched] in H. apply bind_Done in H as (w1 & E & H).
    eapply exits_only_trans; [eapply step_thread_at_exits; exact E|].
    eapply IH; exact H.
Qed.

Lemma sleepInMs_exits fuel env ms w w' :
  sleepInMs fuel env ms w = Done w' -> exits_only w w'.
Proof.
  unfold sleepInMs. intros H.
  eapply exits_only_trans; [|eapply run_sched_exits; exact H].
  apply flags_kept_exits; [by apply flags_kept_heap|reflexivity].
Qed.

(** the wait of lines 439-442 ends only on a set flag *)
Lemma terminate_wait_exits fuel env (p : ptr) :
  forall n w w', terminate_wait n fuel env p w = Done w' ->
    exits_only w w' /\ terminated_at w' p = true.
Proof.
  induction n as [|n IH]; intros w w' H; [discriminate|].
  cbn [terminate_wait] in H. apply bind_Done in H as (a & Ea & H).
  destruct (isTerminated a) eqn:Hterm.
  - injection H as <-. split; [apply exits_only_refl|].
    by rewrite (terminated_at_load _ _ _ Ea).
  - apply bind_Done in H as (w1 & E1 & H).
    destruct (IH _ _ H) as [X1 X2]. split; [|exact X2].
    eapply exits_only_trans; [eapply sleepInMs_exits; exact E1|exact X1].
Qed.

Lemma pthread_join_exits fuel env t :
  forall n w w', pthread_join n fuel env t w = Done w' -> exits_only w w'.
Proof.
  induction n as [|n IH]; intros w w' H; [discriminate|].
  cbn [pthread_join] in H. case_decide; [|discriminate].
  destruct (threads w !! Z.to_nat (t - 1)) as [th|]; [|discriminate].
  destruct (th_state th).
  - apply bind_Done in H as (w1 & E & H).
    eapply exits_only_trans; [eapply step_thread_at_exits; exact E|].
    eapply IH; exact H.
  - apply bind_Done in H as (w1 & E & H).
    eapply exits_only_trans; [eapply step_thread_at_exits; exact E|].
    eapply IH; exact H.
  - injection H as <-. apply flags_kept_exits; [by apply flags_kept_heap|reflexivity].
Qed.

(** [T31Audio_terminate] never sets [isTerminated] itself: the flag it
    waits for is set by a worker of the handle, which has returned by the
    time the call returns *)
Lemma T31Audio_terminate_exits fuel env (p : ptr) w w' :
  T31Audio_terminate fuel env p w = Done w' ->
  exits_only w w' /\
  (p <> NULL -> terminated_at w p = false ->
   exists i st r, threads w !! i = Some (mkThread p st) /\ is_exited st = false /\
                  threads w' !! i = Some (mkThread p (WExited r))).
Proof.
  unfold T31Audio_terminate. intros H. cbn zeta in H.
  destruct (decide (p <> NULL)) as [Hp|Hp].
  2:{ injection H as <-. split; [apply exits_only_refl|]. intros X. contradiction. }
  apply bind_Done in H as (a & Ea & H). apply bind_Done in H as (w1 & E1 & H).
  apply bind_Done in H as (w2 & E2 & H). apply bind_Done in H as (a2 & Ea2 & H).
  apply bind_Done in H as (w3 & E3 & H).
  assert (exits_only w (emit (EvSetTerminating p) w1)) as X1.
  { apply flags_kept_exits.
    - eapply flags_kept_trans; [|by apply flags_kept_heap].
      exact (store_audio_flags_from _ _ _ _ _ _ Ea (handles_kept_refl _) E1 eq_refl).
    - apply store_audio_inv in E1 as [_ ->]. reflexivity. }
  destruct (terminate_wait_exits _ _ _ _ _ _ E2) as [X2 Hset].
  pose proof (pthread_join_exits _ _ _ _ _ _ E3) as X3.
  assert (exits_only w3 w') as X4.
  { apply flags_kept_exits.
    - apply handles_flags_kept. eapply KVS_FREE_kept; exact H.
    - unfold KVS_FREE in H. case_decide; [by injection H as <-|].
      destruct (heap w3 !! p); [|discriminate]. by injection H as <-. }
  pose proof (exits_only_trans _ _ _ X1 X2) as X12.
  pose proof (exits_only_trans _ _ _ X3 X4) as X34.
  split; [by eapply exits_only_trans|].
  intros _ Hclear. destruct X12 as (_ & _ & F). destruct (F p Hset) as [Y|(i & st & r & Y1 & Y2 & Y3)].
  { rewrite Y in Hclear. discriminate. }
  exists i, st, r. split; [exact Y1|]. split; [exact Y2|].
  destruct X34 as (_ & T & _). destruct (T i _ Y3) as (th' & Z1 & _ & Z3).
  rewrite Z1. f_equal. by apply Z3.
Qed.

(** the calls of the worker up to line 268 *)
Lemma audioThread_body_trace fuel env p w w1 res :
  audioThread_body fuel env p w = Done (w1, res) ->
  exists tr,
    trace w1 = trace w ++ tr /\ forallb loop_event tr = true /\
    match audioThread_begin env p w with
    | Done (_, None) =>
      exists tr1 rc tr2,
        tr = tr1 ++ EvImp IMP_AI_DisableChn rc :: tr2 /\
        (rc = 0 -> exists rc' tr3, tr2 = EvImp IMP_AI_Disable rc' :: tr3)
    | _ => Forall (fun c => is_teardown c.1 = false) (imp_calls tr)
    end.
Proof.
  unfold audioThread_body. intros H.
  apply bind_Done in H as ([w0 sk] & E & H). rewrite E.
  destruct (audioThread_begin_spec _ _ _ _ _ E) as (t1 & Ht1 & Hf1 & Hn1 & _).
  destruct sk as [r|].
  - injection H as <- <-. by exists t1.
  - apply bind_Done in H as ([w3 r3] & E1 & H).
    destruct (audioThread_while_ext _ _ _ _ _ _ _ _ E1) as (t2 & Ht2 & Hf2 & _).
    destruct (audioThread_teardown_spec env r3 w3) as (rc & t3 & Ht3 & Hf3 & Hd & _).
    injection H as H. rewrite H in Ht3. cbn [fst] in Ht3.
    exists (t1 ++ t2 ++ EvImp IMP_AI_DisableChn rc :: t3).
    split; [rewrite Ht3, Ht2, Ht1, <- !app_assoc; done|].
    split; [rewrite !forallb_app, Hf1, Hf2; cbn; by rewrite Hf3|].
    exists (t1 ++ t2), rc, t3. rewrite <- app_assoc. done.
Qed.

(** C9, as amended.  Whenever the worker returns, the store of line 271 is
    its last action, and the only store of [isTerminated] it makes: up to
    that store ([audioThread_body]) no handle has had its flag turned on.
    When the device was configured (the loop was entered), the channel
    disable has been attempted before the store, and the device disable too
    if the channel disable returned 0; when the configuration failed, no
    teardown call has been made.  Unless a configuration call, a frame
    fetch or a frame release has failed, [isTerminating] is set by the time
    [isTerminated] is stored.

    Nobody else sets the flag: the caller's part of [T31Audio_create] turns
    no flag on, [T31Audio_getAudioTrackInfoClone] writes no handle at all,
    and across [T31Audio_terminate], which lets the workers run while it
    waits, a flag is turned on only in a handle whose worker has gone from
    running to returned; a call that found the flag of its handle clear
    returns only after such a worker has returned. *)
Theorem C9_worker_exit :
  (forall fuel env (p : ptr) w w' res,
     audioThread fuel env p w = Done (w', res) ->
     exists w1 a1 tr,
       audioThread_body fuel env p w = Done (w1, res) /\
       trace w1 = trace w ++ tr /\ forallb loop_event tr = true /\
       flags_kept w w1 /\
       load_audio w1 p = Done a1 /\
       w' = emit (EvSetTerminated p)
              (set_heap (<[p := OAudio (set_isTerminated true a1)]> (heap w1)) w1) /\
       match audioThread_begin env p w with
       | Done (_, None) =>
         exists tr1 rc tr2,
           tr = tr1 ++ EvImp IMP_AI_DisableChn rc :: tr2 /\
           (rc = 0 -> exists rc' tr3, tr2 = EvImp IMP_AI_Disable rc' :: tr3)
       | _ => Forall (fun c => is_teardown c.1 = false) (imp_calls tr)
       end /\
       (p <> NULL -> device_ok (imp_calls tr) = true -> isTerminating a1 = true)) /\
  (forall env h w w' p r,
     T31Audio_create_init env h w = Done (w', p, r) -> flags_kept w w') /\
  (forall env p w w' q,
     T31Audio_getAudioTrackInfoClone env p w = Done (w', q) -> handles_kept w w') /\
  (forall fuel env (p : ptr) w w',
     T31Audio_terminate fuel env p w = Done w' ->
     exits_only w w' /\
     (p <> NULL -> terminated_at w p = false ->
      exists i st r, threads w !! i = Some (mkThread p st) /\ is_exited st = false /\
                     threads w' !! i = Some (mkThread p (WExited r)))).
Proof.
  split; [|split; [|split]].
  - intros fuel env p w w' res H. rewrite audioThread_body_exit in H.
    apply bind_Done in H as ([w1 r1] & E & H).
    destruct (audioThread_exit_store _ _ _ _ _ H) as (a1 & Ha1 & -> & ->).
    destruct (audioThread_body_trace _ _ _ _ _ _ E) as (tr & Ht & Hf & Hm).
    destruct (audioThread_body_flags _ _ _ _ _ _ E) as (F & tr' & Ht' & Hd).
    assert (tr' = tr) as -> by (rewrite Ht in Ht'; by apply app_inv_head in Ht').
    exists w1, a1, tr. split; [exact E|]. split; [exact Ht|]. split; [exact Hf|].
    split; [exact F|]. split; [exact Ha1|]. split; [reflexivity|]. split; [exact Hm|].
    intros Hp Hok. rewrite <- (terminating_at_load _ _ _ Ha1). by apply Hd.
  - intros env h w w' p r. apply T31Audio_create_init_flags.
  - intros env p w w' q. apply clone_kept.
  - intros fuel env p w w'. apply T31Audio_terminate_exits.
Qed.

Lemma demo_world_exited_eq :
  audioThread 101 (demo_env 64) demo_handle (demo_world_terminating 64)
    = Done (demo_world_exited 64, 0).
Proof. vm_compute. reflexivity. Qed.

Lemma C9_witness :
  exists w1 a1 tr,
    audioThread_body 101 (demo_env 64) demo_handle (demo_world_terminating 64)
      = Done (w1, 0) /\
    trace w1 = trace (demo_world_terminating 64) ++ tr /\
    forallb loop_event tr = true /\
    flags_kept (demo_world_terminating 64) w1 /\
    load_audio w1 demo_handle = Done a1 /\
    demo_world_exited 64
      = emit (EvSetTerminated demo_handle)
          (set_heap (<[demo_handle := OAudio (set_isTerminated true a1)]> (heap w1)) w1) /\
    match audioThread_begin (demo_env 64) demo_handle (demo_world_terminating 64) with
    | Done (_, None) =>
      exists tr1 rc tr2,
        tr = tr1 ++ EvImp IMP_AI_DisableChn rc :: tr2 /\
        (rc = 0 -> exists rc' tr3, tr2 = EvImp IMP_AI_Disable rc' :: tr3)
    | _ => Forall (fun c => is_teardown c.1 = false) (imp_calls tr)
    end /\
    (demo_handle <> NULL -> device_ok (imp_calls tr) = true -> isTerminating a1 = true).
Proof.
  exact (proj1 C9_worker_exit 101%nat (demo_env 64) demo_handle
           (demo_world_terminating 64) (demo_world_exited 64) 0
           demo_world_exited_eq).
Defined.

(** C9 as stated fails, in the heap itself.  (1) The worker whose device
    configuration fails sets [isTerminated] without a single teardown call
    and while [isTerminating] is clear; the request of line 438 that follows
    leaves both flags set, in the other order, and [T31Audio_terminate]
    returns.  (2) So does the worker whose frame fetch fails, nobody having
    asked for termination.  (3) When the channel disable fails, the worker
    sets [isTerminated] although the device disable was never attempted. *)
Lemma C9_counterexample :
  (terminated_at demo_world_failed demo_handle = true /\
   terminating_at demo_world_failed demo_handle = false /\
   existsb (fun c => is_teardown c.1) (imp_calls (trace demo_world_failed)) = false /\
   terminated_at demo_world_failed_requested demo_handle = true /\
   terminating_at demo_world_failed_requested demo_handle = true /\
   result_is_done
     (T31Audio_terminate 4 (nogain_env 64) demo_handle demo_world_failed) = true) /\
  (terminated_at (demo_world 64) demo_handle = false /\
   terminated_at demo_world_nofetch demo_handle = true /\
   terminating_at demo_world_nofetch demo_handle = false) /\
  (terminated_at (demo_world_terminating 64) demo_handle = false /\
   terminated_at demo_world_nodisable demo_handle = true /\
   imp_calls (trace demo_world_nodisable)
     = [(IMP_AI_SetPubAttr, 0); (IMP_AI_Enable, 0); (IMP_AI_SetChnParam, 0);
        (IMP_AI_EnableChn, 0); (IMP_AI_SetVol, 0); (IMP_AI_SetGain, 0);
        (IMP_AI_PollingFrame, 0); (IMP_AI_GetFrame, 0); (IMP_AI_ReleaseFrame, 0);
        (IMP_AI_DisableChn, 1)]).
Proof.
  repeat match goal with |- _ /\ _ => split end; vm_compute; reflexivity.
Qed.

(** ** The worker on a silent device *)

(** a pass whose poll fails goes back to the loop head: [isTerminating] is
    not read *)
Lemma audioThread_iter_timeout fuel env p res w :
  imp_ret env (n_imp w) IMP_AI_PollingFrame <> 0 ->
  audioThread_iter fuel env p res w
    = Done (LogError "Audio Polling Frame Data error"
              (IMP env IMP_AI_PollingFrame w).1, Continue, res).
Proof.
  intros H. unfold audioThread_iter, IMP. by rewrite decide_True.
Qed.

Lemma audioThread_while_timeout fuel env p :
  (forall k, imp_ret env k IMP_AI_PollingFrame <> 0) ->
  forall n res w, audioThread_while n fuel env p res w = OutOfFuel.
Proof.
  intros H. induction n as [|n IH]; intros res w; [done|].
  cbn [audioThread_while]. rewrite audioThread_iter_timeout by apply H.
  cbn [bind]. apply IH.
Qed.

(** ** The caller's wait *)

Lemma run_sched_no_thread fuel env order w :
  threads w = [] -> run_sched fuel env order w = Done w.
Proof.
  intros H. induction order as [|i order IH]; [done|].
  cbn [run_sched]. unfold step_thread_at. rewrite H. cbn. exact IH.
Qed.

(** without a worker nobody stores [isTerminated]: the wait of lines 439-442
    never ends *)
Lemma terminate_wait_no_worker fuel env p a :
  isTerminated a = false ->
  forall n w,
    threads w = [] -> load_audio w p = Done a ->
    terminate_wait n fuel env p w = OutOfFuel.
Proof.
  intros Hna. induction n as [|n IH]; intros w Hth Hl; [done|].
  cbn [terminate_wait]. rewrite Hl. cbn [bind]. rewrite Hna.
  unfold sleepInMs. rewrite run_sched_no_thread by exact Hth.
  cbn [bind]. apply IH; [exact Hth|exact Hl].
Qed.

(** ** A creation that fails leaves no worker *)

Lemma idle_same p w w' :
  heap w' = heap w -> brk w' = brk w -> threads w' = threads w ->
  idle p w -> idle p w'.
Proof. unfold idle. intros -> -> ->. done. Qed.

Lemma idle_alloc p o w : idle p w -> idle p (alloc o w).1.
Proof.
  intros (Ht & Hb & a & Ha & Hf). split; [done|]. split; [cbn; lia|].
  exists a. cbn. rewrite lookup_insert_ne by lia. done.
Qed.

Lemma idle_load p w a : idle p w -> load_audio w p = Done a -> isTerminated a = false.
Proof.
  intros (_ & _ & a0 & Ha & Hf). unfold load_audio. rewrite Ha. by intros [= <-].
Qed.

Lemma idle_store_audio p w a w' :
  idle p w -> isTerminated a = false -> store_audio w p a = Done w' -> idle p w'.
Proof.
  intros (Ht & Hb & a0 & Ha & Hf) Hna. unfold store_audio. rewrite Ha. intros [= <-].
  split; [done|]. split; [done|]. exists a. cbn. by rewrite lookup_insert_eq.
Qed.

Lemma idle_store_track_info p q ti w w' :
  idle p w -> store_track_info w q ti = Done w' -> idle p w' /\ q <> p.
Proof.
  intros (Ht & Hb & a0 & Ha & Hf). unfold store_track_info.
  destruct (heap w !! q) as [[]|] eqn:Hq; try discriminate. intros [= <-].
  assert (q <> p) as Hne by (intros ->; rewrite Ha in Hq; discriminate).
  split; [|done]. split; [done|]. split; [done|]. exists a0. cbn.
  by rewrite lookup_insert_ne.
Qed.

Ltac idle_from w0 := apply (idle_same _ w0); [reflexivity|reflexivity|reflexivity|assumption].

Lemma idle_KVS_MALLOC env sz o p w : idle p w -> idle p (KVS_MALLOC env sz o w).1.
Proof.
  intros H. unfold KVS_MALLOC. destruct (malloc_ret env (n_malloc w)).
  - pose proof (idle_alloc p o (tick_malloc w) (idle_same _ _ _ eq_refl eq_refl eq_refl H)) as X.
    destruct (alloc o (tick_malloc w)) as [w1 q]. cbn [fst] in *.
    idle_from w1.
  - idle_from w.
Qed.

Lemma idle_KVS_FREE p q w w' : q <> p -> idle p w -> KVS_FREE q w = Done w' -> idle p w'.
Proof.
  intros Hne I. unfold KVS_FREE.
  case_decide; [intros [= <-]; exact I|].
  destruct I as (Ht & Hb & a0 & Ha & Hf).
  destruct (heap w !! q); [|discriminate]. intros [= <-].
  split; [done|]. split; [done|]. exists a0. cbn. by rewrite lookup_delete_ne.
Qed.

Lemma idle_LogError p msg w : idle p w -> idle p (LogError msg w).
Proof. intros H. idle_from w. Qed.

Lemma initAudioTrackInfo_idle env p w w' r :
  idle p w -> initAudioTrackInfo env p w = Done (w', r) -> idle p w'.
Proof.
  unfold initAudioTrackInfo. intros I H.
  case_decide; [injection H as <- <-; by apply idle_LogError|].
  inv_bind H. pose proof (idle_load _ _ _ I E) as Hx.
  case_decide; [|by injection H as <- <-].
  pose proof (idle_KVS_MALLOC env SizeofAudioTrackInfo (OTrackInfo TrackInfo_zero) p w I) as I1.
  destruct (KVS_MALLOC env _ _ w) as [w1 pInfo]. cbn [fst] in I1.
  case_decide; [injection H as <- <-; by apply idle_LogError|].
  inv_bind H. destruct (idle_store_track_info _ _ _ _ _ I1 E0) as [I2 Hne].
  unfold Mkv_generateAacCodecPrivateData in H.
  destruct (mkv_ret env (n_ext x0)) as [rc blob].
  case_decide.
  - pose proof (idle_alloc p (OBytes blob) (tick_ext x0)
                  (idle_same _ _ _ eq_refl eq_refl eq_refl I2)) as I3.
    destruct (alloc (OBytes blob) (tick_ext x0)) as [w3 q3].
    cbn [fst] in I3. rewrite decide_False in H by (intros X; by apply X).
    inv_bind H. inv_bind H. injection H as <- <-.
    assert (idle p (emit (EvMkvPrivateData rc q3) w3)) as I4 by idle_from w3.
    destruct (idle_store_track_info _ _ _ _ _ I4 E1) as [I5 _].
    eapply idle_store_audio; [exact I5| |exact E2]. exact Hx.
  - rewrite decide_True in H by done. inv_bind H. injection H as <- <-.
    eapply idle_KVS_FREE; [exact Hne| |exact E1]. idle_from x0.
Qed.

Lemma initAacEncoder_idle env p w w' r :
  idle p w -> initAacEncoder env p w = Done (w', r) -> idle p w'.
Proof.
  unfold initAacEncoder. intros I H.
  case_decide; [injection H as <- <-; by apply idle_LogError|].
  inv_bind H. pose proof (idle_load _ _ _ I E) as Hx.
  assert (idle p (AacEncoder_create env w).1.1) as I1.
  { unfold AacEncoder_create. destruct (aac_create_ret env (n_ext w)).
    - pose proof (idle_alloc p OAacEncoder (tick_ext w)
                    (idle_same _ _ _ eq_refl eq_refl eq_refl I)) as X.
      destruct (alloc OAacEncoder (tick_ext w)) as [w1 q]. cbn [fst] in *.
      idle_from w1.
    - idle_from w. }
  destruct (AacEncoder_create env w) as [[w1 hdl] out]. cbn [fst] in I1.
  inv_bind H.
  assert (idle p x0) as I2.
  { eapply idle_store_audio; [exact I1| |exact E0]. by destruct out. }
  case_decide; [injection H as <- <-; by apply idle_LogError|].
  match type of H with context [KVS_MALLOC env ?sz ?init x0] =>
    pose proof (idle_KVS_MALLOC env sz init p x0 I2) as I3;
    destruct (KVS_MALLOC env sz init x0) as [w2 p2] end.
  cbn [fst] in I3. inv_bind H.
  assert (idle p x1) as I4.
  { eapply idle_store_audio; [exact I3| |exact E1]. by destruct out. }
  case_decide; [injection H as <- <-; by apply idle_LogError|].
  match type of H with context [KVS_MALLOC env ?sz ?init x1] =>
    pose proof (idle_KVS_MALLOC env sz init p x1 I4) as I5;
    destruct (KVS_MALLOC env sz init x1) as [w3 p3] end.
  cbn [fst] in I5. inv_bind H.
  assert (idle p x2) as I6.
  { eapply idle_store_audio; [exact I5| |exact E2]. by destruct out. }
  case_decide; [injection H as <- <-; by apply idle_LogError|].
  inv_bind H. injection H as <- <-.
  eapply idle_store_audio; [exact I6| |exact E3]. by destruct out.
Qed.

(** lines 381-421 on a world without threads: when a step after the
    allocation of the handle fails, no worker was started and the flag is
    clear *)
Lemma T31Audio_create_init_idle env h w w1 p res :
  threads w = [] ->
  T31Audio_create_init env h w = Done (w1, p, res) ->
  res <> ERRNO_NONE -> p <> NULL -> idle p w1.
Proof.
  unfold T31Audio_create_init. intros Hth H Hres Hp.
  unfold KVS_MALLOC in H. destruct (malloc_ret env (n_malloc w)).
  2:{ inv_bind H. destruct x as [w2 r2]. by injection H as <- <- <-. }
  cbn [alloc] in H. inv_bind H. destruct x as [w2 r2]. injection H as <- <- <-.
  change (brk (tick_malloc w)) with (brk w) in *.
  rewrite decide_False in E by exact Hp.
  inv_bind E.
  assert (idle (brk w) x) as I1.
  { unfold store_audio in E0. cbn in E0. rewrite lookup_insert_eq in E0.
    injection E0 as <-. split; [done|]. split; [cbn; lia|].
    eexists. cbn. rewrite lookup_insert_eq. done. }
  clear E0. revert E I1. generalize (brk w) as p. intros p E I1.
  assert (idle p (Lock_Init env x).1) as I2.
  { unfold Lock_Init. destruct (lock_init_ret env (n_ext x)).
    - pose proof (idle_alloc p OLock (tick_ext x)
                    (idle_same _ _ _ eq_refl eq_refl eq_refl I1)) as X.
      destruct (alloc OLock (tick_ext x)) as [w3 q]. cbn [fst] in *.
      idle_from w3.
    - idle_from x. }
  destruct (Lock_Init env x) as [w3 l]. cbn [fst] in I2.
  inv_bind E.
  assert (idle p x0) as I3 by (eapply idle_store_audio; [exact I2| |exact E0]; done).
  case_decide; [injection E as <- <-; by apply idle_LogError|].
  cbn [audioConfigurationInit] in E. inv_bind E.
  assert (idle p x1) as I4 by (eapply idle_store_audio; [exact I3| |exact E1]; done).
  case_decide; [injection E as <- <-; by apply idle_LogError|].
  inv_bind E. destruct x2 as [w4 r4].
  pose proof (initAudioTrackInfo_idle _ _ _ _ _ I4 E2) as I5.
  case_decide; [injection E as <- <-; by apply idle_LogError|].
  inv_bind E. destruct x2 as [w5 r5].
  pose proof (initAacEncoder_idle _ _ _ _ _ I5 E3) as I6.
  case_decide; [injection E as <- <-; by apply idle_LogError|].
  unfold pthread_create in E.
  destruct (decide (pthread_create_ret env (n_ext w5) = 0)) as [Hz|Hnz].
  - inv_bind E. inv_bind E. rewrite decide_False in E by (intros X; by apply X).
    injection E as <- <-. done.
  - inv_bind E. inv_bind E. rewrite decide_True in E by done.
    injection E as <- <-. apply idle_LogError.
    assert (idle p (emit (EvThreadCreate (pthread_create_ret env (n_ext w5)) p)
                      (tick_ext w5))) as I7 by idle_from w5.
    eapply idle_store_audio; [exact I7| |exact E5].
    eapply idle_load; [exact I7|exact E4].
Qed.

(** a creation step that fails after the handle was allocated: the
    rollback waits for a worker that does not exist *)
Lemma failed_create_hangs env h w w1 p res :
  threads w = [] ->
  T31Audio_create_init env h w = Done (w1, p, res) ->
  res <> ERRNO_NONE -> p <> NULL ->
  forall fuel, T31Audio_create fuel env h w = OutOfFuel.
Proof.
  intros Hth Hinit Hres Hp fuel.
  destruct (T31Audio_create_init_idle _ _ _ _ _ _ Hth Hinit Hres Hp)
    as (Ht1 & _ & a & Ha & Hna).
  unfold T31Audio_create. rewrite Hinit. cbn [bind].
  rewrite decide_True by exact Hres.
  unfold T31Audio_terminate. rewrite decide_True by exact Hp.
  unfold load_audio, store_audio. rewrite Ha. cbn [bind].
  rewrite (terminate_wait_no_worker fuel env p (set_isTerminating true a)); [done|done|done|].
  unfold load_audio. cbn. by rewrite lookup_insert_eq.
Qed.

(** when the handle itself cannot be allocated the rollback has nothing to
    wait for: NULL is returned *)
Lemma create_oom_returns fuel env h w :
  malloc_ret env (n_malloc w) = false ->
  exists w', T31Audio_create fuel env h w = Done (w', NULL).
Proof.
  intros H. unfold T31Audio_create, T31Audio_create_init, KVS_MALLOC. rewrite H.
  rewrite decide_True by done. cbn [bind].
  rewrite decide_True by done. unfold T31Audio_terminate.
  rewrite decide_False by (intros X; by apply X). cbn [bind]. eauto.
Qed.

(** C5 fails on the code.  Whenever a creation step fails after the handle
    was allocated, [T31Audio_create] does not return, whatever the fuel: the
    rollback calls [T31Audio_terminate], which waits for [isTerminated], a
    flag only a running worker sets.  This is the case when the lock cannot
    be created, when the codec private data cannot be generated, when the
    encoder cannot be created, when the second to fourth allocation fails
    (track info, PCM buffer, encoded-frame buffer) and when the thread
    cannot be started.  Only when the handle itself cannot be allocated
    does the call return NULL. *)
Theorem C5_failed_create_never_returns :
  (forall fuel env h w,
     malloc_ret env (n_malloc w) = false ->
     exists w', T31Audio_create fuel env h w = Done (w', NULL)) /\
  (forall env h w w1 p res,
     threads w = [] ->
     T31Audio_create_init env h w = Done (w1, p, res) ->
     res <> ERRNO_NONE -> p <> NULL ->
     forall fuel, T31Audio_create fuel env h w = OutOfFuel) /\
  (forall fuel,
     T31Audio_create fuel lockfail_env 77 world0 = OutOfFuel /\
     T31Audio_create fuel mkvfail_env 77 world0 = OutOfFuel /\
     T31Audio_create fuel aacfail_env 77 world0 = OutOfFuel /\
     T31Audio_create fuel (oom_env 1) 77 world0 = OutOfFuel /\
     T31Audio_create fuel (oom_env 2) 77 world0 = OutOfFuel /\
     T31Audio_create fuel (oom_env 3) 77 world0 = OutOfFuel /\
     T31Audio_create fuel threadfail_env 77 world0 = OutOfFuel).
Proof.
  split; [exact create_oom_returns|].
  split; [exact failed_create_hangs|].
  intros fuel.
  repeat match goal with |- _ /\ _ => split end;
    (eapply failed_create_hangs;
     [reflexivity | vm_compute; reflexivity | discriminate | discriminate]).
Qed.

Lemma C5_witness :
  threads world0 = [] /\
  (exists w1 p res,
     T31Audio_create_init lockfail_env 77 world0 = Done (w1, p, res) /\
     res <> ERRNO_NONE /\ p <> NULL) /\
  forall fuel, T31Audio_create fuel lockfail_env 77 world0 = OutOfFuel.
Proof.
  split; [reflexivity|].
  assert (exists w1 p res,
            T31Audio_create_init lockfail_env 77 world0 = Done (w1, p, res) /\
            res <> ERRNO_NONE /\ p <> NULL) as H.
  { vm_compute. eexists _, _, _. split; [reflexivity|]. split; discriminate. }
  split; [exact H|].
  destruct H as (w1 & p & res & Hi & Hr & Hp).
  exact (proj1 (proj2 C5_failed_create_never_returns) lockfail_env 77 world0 w1 p res
           eq_refl Hi Hr Hp).
Defined.

(** ** What [T31Audio_terminate] releases *)

Lemma grows_refl P w : grows P w w.
Proof. exists []. by rewrite app_nil_r. Qed.

Lemma grows_trans P w1 w2 w3 : grows P w1 w2 -> grows P w2 w3 -> grows P w1 w3.
Proof.
  intros (t1 & H1 & F1) (t2 & H2 & F2). exists (t1 ++ t2).
  rewrite H2, H1, app_assoc, forallb_app, F1, F2. done.
Qed.

Lemma grows_same P w w' : trace w' = trace w -> grows P w w'.
Proof. intros H. exists []. by rewrite app_nil_r. Qed.

Lemma grows_emit (P : event -> bool) e w : P e = true -> grows P w (emit e w).
Proof. intros H. exists [e]. cbn. by rewrite H. Qed.

Lemma forallb_weaken (P Q : event -> bool) tr :
  (forall e, P e = true -> Q e = true) -> forallb P tr = true -> forallb Q tr = true.
Proof.
  intros HPQ. induction tr as [|e tr IH]; [done|]. cbn.
  intros [He Htr]%andb_prop. by rewrite (HPQ _ He), (IH Htr).
Qed.

Lemma loop_worker_event e : loop_event e = true -> worker_event e = true.
Proof. by destruct e. Qed.

Lemma worker_wait_event e : worker_event e = true -> wait_event e = true.
Proof. by destruct e. Qed.

Lemma trace_ext_grows w w' : trace_ext loop_event w w' -> grows worker_event w w'.
Proof.
  intros (tr & Ht & Hf & _). exists tr. split; [done|].
  eapply forallb_weaken; [apply loop_worker_event|done].
Qed.

Lemma thread_step_grows fuel env th w w' th' :
  thread_step fuel env th w = Done (w', th') -> grows worker_event w w'.
Proof.
  unfold thread_step. intros H. destruct (th_state th) as [|r|r].
  - inv_bind H. destruct x as [w1 sk].
    destruct (audioThread_begin_spec _ _ _ _ _ E) as (t1 & Ht1 & Hf1 & _ & Hth1).
    assert (grows worker_event w w1) as G1.
    { exists t1. split; [done|]. eapply forallb_weaken; [apply loop_worker_event|done]. }
    destruct sk as [res|].
    + inv_bind H. destruct x as [w2 r2]. injection H as <- <-.
      destruct (audioThread_exit_spec _ _ _ _ _ E0) as (_ & Ht2 & _).
      eapply grows_trans; [exact G1|]. by exists [EvSetTerminated (th_arg th)].
    + injection H as <- <-. exact G1.
  - inv_bind H. destruct x as [[w1 c] r1].
    pose proof (trace_ext_grows _ _ (audioThread_iter_ext _ _ _ _ _ _ _ _ E)) as G1.
    destruct c.
    + injection H as <- <-. exact G1.
    + destruct (audioThread_teardown_spec env r1 w1) as (rc & t2 & Ht2 & Hf2 & _ & Hth2).
      destruct (audioThread_teardown env r1 w1) as [w2 r2]. cbn [fst] in Ht2, Hth2.
      inv_bind H. destruct x as [w3 r3]. injection H as <- <-.
      destruct (audioThread_exit_spec _ _ _ _ _ E0) as (_ & Ht3 & _).
      eapply grows_trans; [exact G1|].
      eapply grows_trans; [|by exists [EvSetTerminated (th_arg th)]].
      exists (EvImp IMP_AI_DisableChn rc :: t2). split; [done|]. cbn.
      eapply forallb_weaken; [apply loop_worker_event|done].
  - injection H as <- <-. apply grows_refl.
Qed.

Lemma step_thread_at_grows fuel env i w w' :
  step_thread_at fuel env i w = Done w' -> grows worker_event w w'.
Proof.
  unfold step_thread_at. intros H.
  destruct (threads w !! i) as [th|]; [|injection H as <-; apply grows_refl].
  inv_bind H. destruct x as [w1 th']. injection H as <-.
  eapply grows_trans; [eapply thread_step_grows; exact E|]. by apply grows_same.
Qed.

Lemma run_sched_grows fuel env :
  forall order w w', run_sched fuel env order w = Done w' -> grows worker_event w w'.
Proof.
  induction order as [|i order IH]; intros w w' H.
  - injection H as <-. apply grows_refl.
  - cbn [run_sched] in H. inv_bind H.
    eapply grows_trans; [eapply step_thread_at_grows; exact E|]. eapply IH; exact H.
Qed.

Lemma grows_weaken (P Q : event -> bool) w w' :
  (forall e, P e = true -> Q e = true) -> grows P w w' -> grows Q w w'.
Proof.
  intros HPQ (tr & Ht & Hf). exists tr. split; [done|]. by eapply forallb_weaken.
Qed.

Lemma sleepInMs_grows fuel env ms w w' :
  sleepInMs fuel env ms w = Done w' -> grows wait_event w w'.
Proof.
  unfold sleepInMs. intros H.
  eapply grows_trans;
    [|eapply grows_weaken; [apply worker_wait_event|eapply run_sched_grows; exact H]].
  eapply grows_trans; [|by apply grows_emit]. by apply grows_same.
Qed.

Lemma terminate_wait_grows fuel env p :
  forall n w w', terminate_wait n fuel env p w = Done w' -> grows wait_event w w'.
Proof.
  induction n as [|n IH]; intros w w' H; [discriminate|].
  cbn [terminate_wait] in H. inv_bind H.
  destruct (isTerminated x); [injection H as <-; apply grows_refl|].
  inv_bind H.
  eapply grows_trans; [eapply sleepInMs_grows; exact E0|]. eapply IH; exact H.
Qed.

Lemma pthread_join_grows fuel env t :
  forall n w w', pthread_join n fuel env t w = Done w' -> grows wait_event w w'.
Proof.
  induction n as [|n IH]; intros w w' H; [discriminate|].
  cbn [pthread_join] in H. case_decide; [|discriminate].
  destruct (threads w !! Z.to_nat (t - 1)) as [th|]; [|discriminate].
  destruct (th_state th).
  - inv_bind H. eapply grows_trans; [|eapply IH; exact H].
    eapply grows_weaken; [apply worker_wait_event|eapply step_thread_at_grows; exact E].
  - inv_bind H. eapply grows_trans; [|eapply IH; exact H].
    eapply grows_weaken; [apply worker_wait_event|eapply step_thread_at_grows; exact E].
  - injection H as <-. by apply grows_emit.
Qed.

Lemma frees_app t1 t2 : frees (t1 ++ t2) = frees t1 ++ frees t2.
Proof. unfold frees. by rewrite omap_app. Qed.

Lemma frees_wait tr : forallb wait_event tr = true -> frees tr = [].
Proof.
  induction tr as [|e tr IH]; [done|]. cbn [forallb]. intros [He Htr]%andb_prop.
  destruct e; try discriminate; apply (IH Htr).
Qed.

(** on a handle that is not NULL, a call that returns has released the
    handle as its last action, and nothing before *)
Lemma T31Audio_terminate_frees fuel env p w w' :
  p <> NULL -> T31Audio_terminate fuel env p w = Done w' ->
  exists tr, trace w' = trace w ++ tr ++ [EvFree p] /\
             forallb wait_event tr = true /\ frees tr = [] /\
             heap w' !! p = None.
Proof.
  unfold T31Audio_terminate. intros Hp H. cbn zeta in H.
  rewrite decide_True in H by done.
  inv_bind H. inv_bind H. inv_bind H. inv_bind H. inv_bind H.
  assert (grows wait_event w x3) as (tr & Ht & Hf).
  { eapply grows_trans; [|eapply pthread_join_grows; exact E3].
    eapply grows_trans; [|eapply terminate_wait_grows; exact E1].
    eapply grows_trans; [|by apply (grows_emit wait_event (EvSetTerminating p))].
    unfold store_audio in E0. destruct (heap w !! p) as [[]|]; try discriminate.
    injection E0 as <-. by apply grows_same. }
  unfold KVS_FREE in H. rewrite decide_False in H by done.
  destruct (heap x3 !! p); [|discriminate]. injection H as <-.
  exists tr. cbn [trace emit set_heap heap]. rewrite Ht, <- app_assoc.
  split; [done|]. split; [done|]. split; [by apply frees_wait|].
  apply lookup_delete_eq.
Qed.

Lemma T31Audio_terminate_null fuel env w : T31Audio_terminate fuel env NULL w = Done w.
Proof. reflexivity. Qed.

(** C6 fails on the code.  On a NULL handle [T31Audio_terminate] does
    nothing.  On the handle of a created pipeline it stores
    [isTerminating], waits for the worker, joins it and releases the handle
    structure, and nothing else: the lock, the track info, its codec
    private blob, the encoder, the PCM buffer and the encoded-frame buffer
    are still allocated afterwards, and no pointer to them is left.  On any
    handle, a call that returns makes one release, of the handle, as its
    last action. *)
Theorem C6_terminate_releases_only_the_handle :
  (forall fuel env w, T31Audio_terminate fuel env NULL w = Done w) /\
  (forall fuel env p w w',
     p <> NULL -> T31Audio_terminate fuel env p w = Done w' ->
     exists tr, trace w' = trace w ++ tr ++ [EvFree p] /\
                forallb wait_event tr = true /\ frees tr = [] /\
                heap w' !! p = None) /\
  let a := demo_audio 64 in
  let w2 := demo_world_terminated 64 in
  result_is_done (T31Audio_create 4 (demo_env 64) 77 world0) = true /\
  load_audio (demo_world 64) demo_handle = Done a /\
  result_is_done (T31Audio_terminate 4 (demo_env 64) demo_handle (demo_world 64))
    = true /\
  frees (trace w2) = [demo_handle] /\
  kind_at w2 demo_handle = 0%nat /\
  kind_at w2 (lock a) = 4%nat /\
  kind_at w2 (pAudioTrackInfo a) = 2%nat /\
  kind_at w2 (pCodecPrivate (demo_track_info 64)) = 1%nat /\
  kind_at w2 (xAacEncHandle a) = 5%nat /\
  kind_at w2 (pPcmBuf a) = 1%nat /\
  kind_at w2 (pFrameBuf a) = 1%nat.
Proof.
  split; [intros; apply T31Audio_terminate_null|].
  split; [intros fuel env p w w'; apply T31Audio_terminate_frees|].
  cbn zeta. repeat match goal with |- _ /\ _ => split end; vm_compute; reflexivity.
Qed.

Lemma demo_world_terminated_eq :
  T31Audio_terminate 4 (demo_env 64) demo_handle (demo_world 64)
    = Done (demo_world_terminated 64).
Proof. vm_compute. reflexivity. Qed.

Lemma C6_witness :
  demo_handle <> NULL /\
  exists tr,
    trace (demo_world_terminated 64)
      = trace (demo_world 64) ++ tr ++ [EvFree demo_handle] /\
    forallb wait_event tr = true /\ frees tr = [] /\
    heap (demo_world_terminated 64) !! demo_handle = None.
Proof.
  assert (demo_handle <> NULL) as H by discriminate.
  split; [exact H|].
  exact (proj1 (proj2 C6_terminate_releases_only_the_handle) 4%nat (demo_env 64)
           demo_handle (demo_world 64) (demo_world_terminated 64) H
           demo_world_terminated_eq).
Defined.

(** lines 470-476: the clone is a new structure holding the fields of the
    live one, pointer to the codec private data included *)
Lemma clone_copies_fields env p w w' q a ti :
  load_audio w p = Done a ->
  load_track_info w (pAudioTrackInfo a) = Done ti ->
  pAudioTrackInfo a < brk w ->
  T31Audio_getAudioTrackInfoClone env p w = Done (w', q) -> q <> NULL ->
  q <> pAudioTrackInfo a /\
  load_track_info w' q = Done ti /\
  load_track_info w' (pAudioTrackInfo a) = Done ti.
Proof.
  intros Ha Hti Hb H Hq. unfold T31Audio_getAudioTrackInfoClone in H.
  case_decide; [by injection H as <- <-|].
  rewrite Ha in H. cbn [bind] in H. inv_bind H. destruct x as [w1 rc].
  unfold Lock in E. destruct (heap w !! lock a) as [[]|]; try discriminate.
  injection E as <- <-.
  case_decide; [by injection H as <- <-|].
  inv_bind H. change (load_audio w p = Done x) in E. rewrite Ha in E.
  injection E as <-. inv_bind H. destruct x as [w2 pInfo].
  inv_bind H. injection H as <- <-.
  case_decide; [|by injection E as <- <-].
  unfold KVS_MALLOC in E.
  cbn [n_malloc emit tick_ext] in E.
  destruct (malloc_ret env (n_malloc w)); [|by injection E as <- <-].
  cbn [alloc brk heap tick_malloc emit tick_ext] in E.
  case_decide; [by injection E as <- <-|].
  inv_bind E. inv_bind E. injection E as <- <-.
  unfold load_track_info in E1, Hti. cbn in E1.
  rewrite lookup_insert_ne in E1 by lia.
  destruct (heap w !! pAudioTrackInfo a) as [[]|] eqn:Hh; try discriminate.
  injection Hti as ->. injection E1 as <-.
  unfold store_track_info in E2. cbn in E2. rewrite lookup_insert_eq in E2.
  injection E2 as <-.
  unfold Unlock in E0. cbn in E0.
  destruct (_ !! lock a) as [[]|]; try discriminate. injection E0 as <-.
  split; [lia|]. unfold load_track_info. cbn.
  rewrite lookup_insert_eq. split; [done|].
  rewrite !lookup_insert_ne by lia. by rewrite Hh.
Qed.

(** C7 fails on the code.  The structure returned by the clone accessor is
    a fresh allocation, but its [pCodecPrivate] is the pointer stored in
    the live track info: a byte written through the clone is read back
    through the handle, and once the blob is released through the clone the
    handle's pointer dangles.  On any handle with a track info, a clone
    that is not NULL is a second structure with the fields of the live
    one, [pCodecPrivate] included. *)
Theorem C7_clone_aliases_codec_private :
  (forall env p w w' q a ti,
     load_audio w p = Done a ->
     load_track_info w (pAudioTrackInfo a) = Done ti ->
     pAudioTrackInfo a < brk w ->
     T31Audio_getAudioTrackInfoClone env p w = Done (w', q) -> q <> NULL ->
     q <> pAudioTrackInfo a /\
     load_track_info w' q = Done ti /\
     load_track_info w' (pAudioTrackInfo a) = Done ti) /\
  let a := demo_audio 64 in
  let ti := demo_track_info 64 in
  let w2 := demo_world_cloned 64 in
  let q := demo_clone 64 in
  result_is_done (T31Audio_getAudioTrackInfoClone (demo_env 64) demo_handle
                    (demo_world 64)) = true /\
  q <> NULL /\ q <> pAudioTrackInfo a /\
  load_track_info (demo_world 64) (pAudioTrackInfo a) = Done ti /\
  load_track_info w2 (pAudioTrackInfo a) = Done ti /\
  load_track_info w2 q = Done ti /\
  pCodecPrivate ti <> NULL /\
  load_bytes w2 (pCodecPrivate ti) 0 1 = Done [x12] /\
  (do ti' <- load_track_info w2 q;
   do w3 <- store_bytes w2 (pCodecPrivate ti') 0 [xff];
   load_bytes w3 (pCodecPrivate ti) 0 1) = Done [xff] /\
  (do ti' <- load_track_info w2 q;
   do w4 <- KVS_FREE (pCodecPrivate ti') w2;
   load_bytes w4 (pCodecPrivate ti) 0 1) = Fault.
Proof.
  split; [exact clone_copies_fields|].
  cbn zeta. repeat match goal with |- _ /\ _ => split end;
    try (vm_compute; reflexivity); vm_compute; discriminate.
Qed.

Lemma demo_world_cloned_eq :
  T31Audio_getAudioTrackInfoClone (demo_env 64) demo_handle (demo_world 64)
    = Done (demo_world_cloned 64, demo_clone 64).
Proof. vm_compute. reflexivity. Qed.

Lemma demo_audio_eq : load_audio (demo_world 64) demo_handle = Done (demo_audio 64).
Proof. vm_compute. reflexivity. Qed.

Lemma demo_track_info_eq :
  load_track_info (demo_world 64) (pAudioTrackInfo (demo_audio 64))
    = Done (demo_track_info 64).
Proof. vm_compute. reflexivity. Qed.

Lemma C7_witness :
  demo_clone 64 <> NULL /\
  demo_clone 64 <> pAudioTrackInfo (demo_audio 64) /\
  load_track_info (demo_world_cloned 64) (demo_clone 64) = Done (demo_track_info 64) /\
  load_track_info (demo_world_cloned 64) (pAudioTrackInfo (demo_audio 64))
    = Done (demo_track_info 64).
Proof.
  assert (demo_clone 64 <> NULL) as H by (vm_compute; discriminate).
  split; [exact H|].
  refine (proj1 C7_clone_aliases_codec_private (demo_env 64) demo_handle (demo_world 64)
            (demo_world_cloned 64) (demo_clone 64) (demo_audio 64) (demo_track_info 64)
            demo_audio_eq demo_track_info_eq _ demo_world_cloned_eq H).
  vm_compute. reflexivity.
Defined.

(** ** The caller's wait on a silent device *)

Lemma imp_any_fails_ok env cs :
  (forall k c, In c cs -> imp_ret env k c = 0) ->
  forall w, exists w',
    imp_any_fails env cs w = (w', false) /\ heap w' = heap w /\ threads w' = threads w.
Proof.
  induction cs as [|c cs IH]; intros H w; [by exists w|].
  cbn [imp_any_fails]. unfold IMP. rewrite H by (left; reflexivity).
  rewrite decide_False by (intros X; by apply X).
  destruct (IH (fun k c' Hc => H k c' (or_intror Hc))
              (emit (EvImp c 0) (tick_imp w))) as (w' & Hw & Hh & Ht).
  exists w'. by rewrite Hw, Hh, Ht.
Qed.

(** a step of a worker that only sees poll timeouts: it stays in the loop
    and leaves the heap alone *)
Lemma thread_step_timeout fuel env p st w a :
  (forall k c, c <> IMP_AI_PollingFrame -> imp_ret env k c = 0) ->
  (forall k, imp_ret env k IMP_AI_PollingFrame <> 0) ->
  p <> NULL -> load_audio w p = Done a ->
  (st = WReady \/ exists r, st = WPolling r) ->
  exists w' r,
    thread_step fuel env (mkThread p st) w = Done (w', mkThread p (WPolling r)) /\
    heap w' = heap w /\ threads w' = threads w.
Proof.
  intros Hok Hto Hp Hl [->|[r ->]]; unfold thread_step; cbn [th_state th_arg].
  - unfold audioThread_begin. rewrite decide_False by exact Hp.
    rewrite Hl. cbn [bind].
    match goal with |- context [imp_any_fails env ?cs w] =>
      destruct (imp_any_fails_ok env cs) with (w := w) as (w' & Hw & Hh & Ht) end.
    { intros k c Hc. apply Hok. intros ->. cbn in Hc. intuition discriminate. }
    rewrite Hw. cbn [bind]. exists w', ERRNO_NONE. done.
  - rewrite audioThread_iter_timeout by apply Hto. cbn [bind].
    eexists _, r. split; [reflexivity|]. done.
Qed.

Lemma terminate_wait_timeout fuel env p a :
  (forall k c, c <> IMP_AI_PollingFrame -> imp_ret env k c = 0) ->
  (forall k, imp_ret env k IMP_AI_PollingFrame <> 0) ->
  (forall k, sched env k = [0%nat]) ->
  p <> NULL -> isTerminated a = false ->
  forall n w st,
    threads w = [mkThread p st] -> (st = WReady \/ exists r, st = WPolling r) ->
    load_audio w p = Done a ->
    terminate_wait n fuel env p w = OutOfFuel.
Proof.
  intros Hok Hto Hs Hp Hna. induction n as [|n IH]; intros w st Hth Hst Hl; [done|].
  cbn [terminate_wait]. rewrite Hl. cbn [bind]. rewrite Hna.
  unfold sleepInMs. rewrite Hs. cbn [run_sched]. unfold step_thread_at.
  cbn [threads emit tick_ext]. rewrite Hth. cbn [lookup list_lookup].
  destruct (thread_step_timeout fuel env p st
              (emit (EvSleep (to_size (10 * 1000))) (tick_ext w)) a Hok Hto Hp)
    as (w' & r & Hstep & Hh & Ht); [exact Hl|exact Hst|].
  rewrite Hstep. cbn [bind].
  eapply (IH _ (WPolling r)).
  - cbn [threads set_threads]. rewrite Ht. cbn [threads emit tick_ext]. rewrite Hth.
    reflexivity.
  - right. by exists r.
  - unfold load_audio in *. cbn [heap set_threads]. rewrite Hh. exact Hl.
Qed.

(** a termination request on a pipeline whose device only times out is
    never answered *)
Lemma terminate_hangs_timeout env p w a st :
  (forall k c, c <> IMP_AI_PollingFrame -> imp_ret env k c = 0) ->
  (forall k, imp_ret env k IMP_AI_PollingFrame <> 0) ->
  (forall k, sched env k = [0%nat]) ->
  p <> NULL -> load_audio w p = Done a -> isTerminated a = false ->
  threads w = [mkThread p st] -> (st = WReady \/ exists r, st = WPolling r) ->
  forall fuel, T31Audio_terminate fuel env p w = OutOfFuel.
Proof.
  intros Hok Hto Hs Hp Hl Hna Hth Hst fuel.
  unfold T31Audio_terminate. rewrite decide_True by exact Hp.
  rewrite Hl. cbn [bind].
  unfold load_audio in Hl. unfold store_audio.
  destruct (heap w !! p) as [[]|] eqn:Hh; try discriminate.
  cbn [bind].
  rewrite (terminate_wait_timeout fuel env p (set_isTerminating true a) Hok Hto Hs Hp
             Hna fuel _ st); [done|exact Hth|exact Hst|].
  unfold load_audio. cbn. by rewrite lookup_insert_eq.
Qed.

(** C4 fails on the code.  With a pending termination request
    ([isTerminating] is set in the handle) and a device on which every poll
    times out, the worker loop never leaves, whatever the number of passes:
    [continue] at line 235 skips the check of line 258.  Hence
    [T31Audio_terminate] on a created pipeline whose device stays silent
    does not return either.  The pass that processes a frame does reach
    the check and leaves the loop. *)
Theorem C4_timeout_skips_termination_check :
  (forall fuel env p,
     (forall k, imp_ret env k IMP_AI_PollingFrame <> 0) ->
     forall n res w, audioThread_while n fuel env p res w = OutOfFuel) /\
  (exists a, load_audio (demo_world_terminating 64) demo_handle = Done a /\
             isTerminating a = true) /\
  match audioThread_iter 101 (demo_env 64) demo_handle ERRNO_NONE
          (demo_world_terminating 64) with
  | Done (_, c, _) => c = Break
  | _ => False
  end /\
  forall n fuel,
    audioThread_while n fuel (timeout_env 64) demo_handle ERRNO_NONE
      (demo_world_terminating 64) = OutOfFuel /\
    audioThread n (timeout_env 64) demo_handle (demo_world_terminating 64) = OutOfFuel /\
    T31Audio_terminate n (timeout_env 64) demo_handle (demo_world 64) = OutOfFuel.
Proof.
  split; [exact audioThread_while_timeout|].
  split; [vm_compute; eexists; split; reflexivity|].
  split; [vm_compute; reflexivity|].
  assert (forall k, imp_ret (timeout_env 64) k IMP_AI_PollingFrame <> 0) as Hto
    by (intros k; discriminate).
  intros n fuel. split; [by apply audioThread_while_timeout|]. split.
  - assert (exists w1, audioThread_begin (timeout_env 64) demo_handle
                         (demo_world_terminating 64) = Done (w1, None)) as [w1 Hb]
      by (vm_compute; eexists; reflexivity).
    unfold audioThread. rewrite Hb. cbn [bind].
    by rewrite audioThread_while_timeout.
  - apply (terminate_hangs_timeout (timeout_env 64) demo_handle (demo_world 64)
             (demo_audio 64) WReady).
    + intros k c Hc. by destruct c.
    + exact Hto.
    + reflexivity.
    + discriminate.
    + vm_compute. reflexivity.
    + reflexivity.
    + vm_compute. reflexivity.
    + by left.
Qed.

Lemma C4_witness :
  (forall k, imp_ret (timeout_env 64) k IMP_AI_PollingFrame <> 0) /\
  forall n res w,
    audioThread_while n 101 (timeout_env 64) demo_handle res w = OutOfFuel.
Proof.
  assert (forall k, imp_ret (timeout_env 64) k IMP_AI_PollingFrame <> 0) as H
    by (intros k; discriminate).
  split; [exact H|].
  exact (proj1 C4_timeout_skips_termination_check 101%nat (timeout_env 64)
           demo_handle H).
Defined.

(** * Further properties of the code *)

(** ** The return code and the edge cases of [sendAudioFrame] *)

(** X1.  The value [sendAudioFrame] returns tells one thing only: it is
    not ERRNO_NONE exactly when the handle or the frame pointer is NULL.
    In that case the call logs "Invalid parameter" and does nothing
    else. *)
Theorem X1_sendAudioFrame_return_code fuel env w p frm w' r :
  sendAudioFrame fuel env w p frm = Done (w', r) ->
  (r <> ERRNO_NONE <-> p = NULL \/ frm = None) /\
  (p = NULL \/ frm = None -> w' = LogError "Invalid parameter" w).
Proof.
  unfold sendAudioFrame. intros H. destruct frm as [frm|].
  2:{ injection H as <- <-. split; [split; [by right|discriminate]|done]. }
  case_decide as Hp.
  { injection H as <- <-. split; [split; [by left|discriminate]|done]. }
  inv_bind H. inv_bind H. inv_bind H. injection H as <- <-.
  split; [split|]; [done| |]; intros [?|?]; done.
Qed.

Lemma X1_witness :
  exists w',
    sendAudioFrame 0 (demo_env 64) world0 NULL (Some (mkFrame [] 0)) = Done (w', 145) /\
    (145 <> ERRNO_NONE <-> NULL = NULL \/ Some (mkFrame [] 0) = None) /\
    (NULL = NULL \/ Some (mkFrame [] 0) = None ->
     w' = LogError "Invalid parameter" world0).
Proof.
  exists (LogError "Invalid parameter" world0). split; [reflexivity|].
  exact (X1_sendAudioFrame_return_code 0 (demo_env 64) world0 NULL
           (Some (mkFrame [] 0)) _ 145 eq_refl).
Defined.

(** X2.  A frame whose [len] is zero or negative is absorbed without
    touching the PCM buffer or the fill offset and without any encoder
    call.  On an empty buffer the timestamp is nevertheless re-seeded from
    the clock; otherwise the call changes nothing at all. *)
Theorem X2_sendAudioFrame_empty_frame n env w p frm a :
  p <> NULL -> load_audio w p = Done a -> len frm <= 0 ->
  exists w',
    sendAudioFrame (S n) env w p (Some frm) = Done (w', ERRNO_NONE) /\
    load_audio w' p = Done (seed env w a) /\
    trace w' = trace w ++
      (if decide (uPcmOffset a = 0)
       then [EvClock (to_u64 (clock_ret env (n_clock w)))] else []) /\
    (forall q, q <> p -> heap w' !! q = heap w !! q) /\
    (uPcmOffset a <> 0 -> w' = w).
Proof.
  intros Hp Ha Hl. unfold sendAudioFrame, seed.
  rewrite decide_False by exact Hp. rewrite Ha. cbn [bind].
  unfold load_audio in Ha. destruct (heap w !! p) as [[]|] eqn:Hh; try discriminate.
  injection Ha as ->.
  destruct (decide (uPcmOffset a = 0)) as [Hz|Hnz].
  - unfold getEpochTimestampInMs, store_audio. cbn [heap emit tick_clock].
    rewrite Hh. cbn [bind sendAudioFrame_while].
    rewrite decide_False by lia. cbn [bind].
    eexists. split; [reflexivity|]. unfold load_audio. cbn.
    rewrite lookup_insert_eq. split; [done|]. split; [done|].
    split; [|done]. intros q Hq. by rewrite lookup_insert_ne.
  - cbn [bind sendAudioFrame_while]. rewrite decide_False by lia. cbn [bind].
    exists w. split; [done|]. unfold load_audio. rewrite Hh, app_nil_r. done.
Qed.

Lemma X2_witness :
  exists w',
    sendAudioFrame 1 (demo_env 64) (demo_world 64) demo_handle
      (Some (mkFrame [] (-5))) = Done (w', ERRNO_NONE) /\
    load_audio w' demo_handle = Done (seed (demo_env 64) (demo_world 64) (demo_audio 64)) /\
    trace w' = trace (demo_world 64) ++
      (if decide (uPcmOffset (demo_audio 64) = 0)
       then [EvClock (to_u64 (clock_ret (demo_env 64) (n_clock (demo_world 64))))]
       else []) /\
    (forall q, q <> demo_handle -> heap w' !! q = heap (demo_world 64) !! q) /\
    (uPcmOffset (demo_audio 64) <> 0 -> w' = demo_world 64).
Proof.
  refine (X2_sendAudioFrame_empty_frame 0 (demo_env 64) (demo_world 64) demo_handle
            (mkFrame [] (-5)) (demo_audio 64) _ demo_audio_eq _).
  - discriminate.
  - cbn. lia.
Defined.

(** cutting a byte sequence into blocks of [cap] bytes and a shorter rest
    can be done in one way only *)
Lemma chunks_unique (cap : nat) :
  (0 < cap)%nat ->
  forall (bs1 bs2 : list (list byte)) (t1 t2 : list byte),
    Forall (fun b => length b = cap) bs1 -> Forall (fun b => length b = cap) bs2 ->
    (length t1 < cap)%nat -> (length t2 < cap)%nat ->
    concat bs1 ++ t1 = concat bs2 ++ t2 -> bs1 = bs2 /\ t1 = t2.
Proof.
  intros Hcap. induction bs1 as [|b1 bs1 IH]; intros bs2 t1 t2 H1 H2 L1 L2 E.
  - destruct bs2 as [|b2 bs2]; [done|]. exfalso.
    inversion H2 as [|? ? Hb2 _]; subst. cbn in E.
    apply (f_equal length) in E. rewrite <- app_assoc, !length_app in E. lia.
  - inversion H1 as [|? ? Hb1 H1']; subst.
    destruct bs2 as [|b2 bs2].
    + exfalso. cbn in E. apply (f_equal length) in E.
      rewrite <- app_assoc, !length_app in E. lia.
    + inversion H2 as [|? ? Hb2 H2']; subst. cbn [concat] in E.
      rewrite <- !app_assoc in E.
      apply app_inj_1 in E as [-> E]; [|lia].
      destruct (IH bs2 t1 t2 H1' H2' L1 L2 E) as [-> ->]. done.
Qed.

(** X3.  What reaches the encoder depends on the bytes, not on the frames
    they come in.  Two runs that start from the same handle state, with
    bytes already waiting in the PCM buffer or not, and absorb the same
    byte sequence cut into frames in two different ways, pass the same
    blocks to the encoder and end with the same fill offset and the same
    bytes below it. *)
Theorem X3_blocks_independent_of_framing
    env1 env2 p fs1 fs2 w1 w2 a buf n1 n2 :
  audio_ok w1 p a buf -> audio_ok w2 p a buf ->
  Forall frame_ok fs1 -> Forall frame_ok fs2 ->
  max_len fs1 < Z.of_nat n1 -> max_len fs2 < Z.of_nat n2 ->
  concat (map frame_bytes fs1) = concat (map frame_bytes fs2) ->
  exists w1' a1 buf1 tr1 w2' a2 buf2 tr2,
    sendAudioFrames n1 env1 w1 p fs1 = Done w1' /\
    sendAudioFrames n2 env2 w2 p fs2 = Done w2' /\
    audio_ok w1' p a1 buf1 /\ trace w1' = trace w1 ++ tr1 /\
    audio_ok w2' p a2 buf2 /\ trace w2' = trace w2 ++ tr2 /\
    encoded_blocks tr1 = encoded_blocks tr2 /\
    uPcmOffset a1 = uPcmOffset a2 /\
    take (Z.to_nat (uPcmOffset a1)) buf1 = take (Z.to_nat (uPcmOffset a2)) buf2.
Proof.
  intros Hok1 Hok2 Hf1 Hf2 Hn1 Hn2 Hsame.
  destruct (sendAudioFrames_spec env1 p fs1 w1 a buf n1 Hok1 Hf1 Hn1)
    as (w1' & a1 & buf1 & tr1 & Hw1 & Hok1' & Htr1 & Hc1 & Hcat1 & Hlen1 & _ & Ho1).
  destruct (sendAudioFrames_spec env2 p fs2 w2 a buf n2 Hok2 Hf2 Hn2)
    as (w2' & a2 & buf2 & tr2 & Hw2 & Hok2' & Htr2 & Hc2 & Hcat2 & Hlen2 & _ & Ho2).
  exists w1', a1, buf1, tr1, w2', a2, buf2, tr2.
  pose proof (ok_size _ _ _ _ Hok1) as Hsz.
  pose proof (ok_pcm_len _ _ _ _ Hok1') as Hl1.
  pose proof (ok_pcm_len _ _ _ _ Hok2') as Hl2.
  assert (length (take (Z.to_nat (uPcmOffset a1)) buf1) = Z.to_nat (uPcmOffset a1)) as Lt1
    by (rewrite length_take; lia).
  assert (length (take (Z.to_nat (uPcmOffset a2)) buf2) = Z.to_nat (uPcmOffset a2)) as Lt2
    by (rewrite length_take; lia).
  destruct (chunks_unique (Z.to_nat (uPcmBufSize a)) ltac:(lia)
              (encoded_blocks tr1) (encoded_blocks tr2)
              (take (Z.to_nat (uPcmOffset a1)) buf1)
              (take (Z.to_nat (uPcmOffset a2)) buf2)) as [Eb Et].
  - eapply Forall_impl; [exact Hlen1|]. cbn. intros; lia.
  - eapply Forall_impl; [exact Hlen2|]. cbn. intros; lia.
  - lia.
  - lia.
  - rewrite Hcat1, Hcat2, Hsame. done.
  - repeat match goal with |- _ /\ _ => split end; try assumption.
    apply (f_equal length) in Et. rewrite Lt1, Lt2 in Et. lia.
Qed.

Lemma X3_witness :
  exists w1' a1 buf1 tr1 w2' a2 buf2 tr2,
    sendAudioFrames 2501 (demo_env 1280) (demo_world 1280) demo_handle demo_frames
      = Done w1' /\
    sendAudioFrames 4101 (deaf_env 1280) (demo_world 1280) demo_handle demo_one_frame
      = Done w2' /\
    audio_ok w1' demo_handle a1 buf1 /\ trace w1' = trace (demo_world 1280) ++ tr1 /\
    audio_ok w2' demo_handle a2 buf2 /\ trace w2' = trace (demo_world 1280) ++ tr2 /\
    encoded_blocks tr1 = encoded_blocks tr2 /\
    uPcmOffset a1 = uPcmOffset a2 /\
    take (Z.to_nat (uPcmOffset a1)) buf1 = take (Z.to_nat (uPcmOffset a2)) buf2.
Proof.
  apply (X3_blocks_independent_of_framing (demo_env 1280) (deaf_env 1280) demo_handle
           demo_frames demo_one_frame (demo_world 1280) (demo_world 1280)
           (demo_audio 1280) (zeros 1280) 2501 4101).
  - exact demo_audio_ok.
  - exact demo_audio_ok.
  - exact demo_frames_ok.
  - repeat constructor; vm_compute; discriminate.
  - reflexivity.
  - reflexivity.
  - vm_compute. reflexivity.
Defined.

(** ** The creation steps, one by one *)

Lemma heap_ok_fresh w q : heap_ok w -> brk w <= q -> heap w !! q = None.
Proof.
  intros [_ H] Hq. destruct (heap w !! q) eqn:E; [|done].
  pose proof (H q o E) as Hlt. simpl in Hlt. lia.
Qed.

Lemma heap_ok_below w q o : heap_ok w -> heap w !! q = Some o -> 0 < q < brk w.
Proof. intros [_ H] E. exact (H q o E). Qed.

(** X4.  [initAudioTrackInfo] cleans up after itself: whenever it returns
    an error the heap is as it was found, what was allocated on the way has
    been released, and the handle has not been written. *)
Theorem X4_initAudioTrackInfo_failure_restores_heap env p w w' r :
  heap_ok w ->
  initAudioTrackInfo env p w = Done (w', r) -> r <> ERRNO_NONE ->
  heap w' = heap w /\
  exists tr, trace w' = trace w ++ tr /\ frees tr = mallocs tr.
Proof.
  unfold initAudioTrackInfo. intros Hok H Hr.
  pose proof (heap_ok_fresh w (brk w) Hok ltac:(lia)) as Hfresh.
  destruct Hok as [Hbrk _].
  case_decide.
  { injection H as <- <-. split; [done|]. by eexists [_]. }
  inv_bind H. case_decide; [|by injection H as <- <-].
  unfold KVS_MALLOC in H. destruct (malloc_ret env (n_malloc w)).
  - wsimpl. rewrite decide_False in H by (unfold NULL; lia).
    inv_bind H. apply store_track_info_inv in E0 as [_ ->].
    unfold Mkv_generateAacCodecPrivateData in H. wsimpl.
    destruct (mkv_ret env (n_ext w)) as [rc blob].
    case_decide.
    + wsimpl. rewrite decide_False in H by (intros X; by apply X).
      inv_bind H. inv_bind H. by injection H as <- <-.
    + rewrite decide_True in H by done. inv_bind H. injection H as <- <-.
      unfold KVS_FREE in E0. rewrite decide_False in E0 by (unfold NULL; lia).
      wsimpl. rewrite lookup_insert_eq in E0. injection E0 as <-. wsimpl.
      split.
      * rewrite insert_insert_eq, delete_insert_eq. by apply delete_id.
      * eexists [_; _; _; _]. rewrite <- !app_assoc. split; [reflexivity|].
        cbn. rewrite decide_False by (unfold NULL; lia). done.
  - rewrite decide_True in H by done. injection H as <- <-. split; [done|].
    eexists [_; _]. wsimpl. rewrite <- app_assoc. split; [reflexivity|]. done.
Qed.

Lemma heap_ok_bare_world : heap_ok bare_world.
Proof.
  split; [reflexivity|]. apply map_Forall_insert_2; [done|]. apply map_Forall_empty.
Qed.

Lemma X4_witness :
  exists w',
    initAudioTrackInfo mkvfail_env 1 bare_world = Done (w', 309) /\
    heap w' = heap bare_world /\
    exists tr, trace w' = trace bare_world ++ tr /\ frees tr = mallocs tr.
Proof.
  eexists. split; [vm_compute; reflexivity|].
  refine (X4_initAudioTrackInfo_failure_restores_heap mkvfail_env 1 bare_world _ 309
            heap_ok_bare_world _ _).
  - vm_compute. reflexivity.
  - discriminate.
Defined.

Ltac heap_ok_tac :=
  split;
  [ wsimpl; lia
  | wsimpl; repeat (apply map_Forall_insert_2; [lia|]);
    eapply map_Forall_impl; [eassumption|cbn; intros; lia] ].

Lemma initAudioTrackInfo_success env p w w' a :
  heap_ok w -> load_audio w p = Done a -> p <> NULL ->
  initAudioTrackInfo env p w = Done (w', ERRNO_NONE) ->
  (pAudioTrackInfo a <> NULL -> w' = w) /\
  (pAudioTrackInfo a = NULL ->
   exists blob,
     mkv_ret env (n_ext w) = (0, blob) /\
     load_audio w' p = Done (set_pAudioTrackInfo (brk w) a) /\
     load_track_info w' (brk w)
       = Done (mkTrackInfo AUDIO_TRACK_NAME AUDIO_CODEC_NAME
                 (sampleRate (xAudioConf a)) (channelNumber (xAudioConf a))
                 (brk w + 1) (to_size (Z.of_nat (length blob)))) /\
     heap w' !! (brk w + 1) = Some (OBytes blob) /\
     brk w' = brk w + 2 /\ heap_ok w' /\ threads w' = threads w /\
     n_ext w' = S (n_ext w) /\ n_malloc w' = S (n_malloc w) /\
     (forall q, q < brk w -> q <> p -> heap w' !! q = heap w !! q)).
Proof.
  unfold initAudioTrackInfo. intros Hok Ha Hp H.
  pose proof (heap_ok_below _ _ _ Hok (load_audio_inv _ _ _ Ha)) as Hpb.
  destruct Hok as [Hbrk Hall].
  rewrite decide_False in H by exact Hp. rewrite Ha in H. cbn [bind] in H.
  case_decide as Hti.
  2:{ injection H as <-. split; [done|]. intros X. by destruct Hti. }
  split; [intros X; by destruct X|]. intros _.
  unfold KVS_MALLOC in H. destruct (malloc_ret env (n_malloc w)).
  2:{ rewrite decide_True in H by done. discriminate. }
  wsimpl. rewrite decide_False in H by (unfold NULL; lia).
  inv_bind H. apply store_track_info_inv in E as [_ ->].
  unfold Mkv_generateAacCodecPrivateData in H. wsimpl.
  destruct (mkv_ret env (n_ext w)) as [rc blob].
  case_decide as Hrc.
  2:{ rewrite decide_True in H by done. inv_bind H. discriminate. }
  subst rc. wsimpl. rewrite decide_False in H by (intros X; by apply X).
  inv_bind H. inv_bind H. injection H as <-.
  apply store_track_info_inv in E as [_ ->].
  apply store_audio_inv in E0 as [_ ->].
  exists blob. split; [done|]. unfold load_audio, load_track_info. wsimpl.
  rewrite lookup_insert_eq. split; [done|].
  rewrite lookup_insert_ne by lia. rewrite lookup_insert_eq. split; [done|].
  rewrite !lookup_insert_ne by lia. rewrite lookup_insert_eq. split; [done|].
  split; [lia|]. split; [heap_ok_tac|]. split; [done|]. split; [done|]. split; [done|].
  intros q Hq Hqp. rewrite !lookup_insert_ne by lia. done.
Qed.

(** X5.  What a successful [initAudioTrackInfo] builds: a handle that
    already has a track info is left alone, nothing is allocated; otherwise
    the handle points to a new track info that carries the two static
    names, the sample rate and the channel number of the configuration, and
    the codec private data as the generator produced it, with its length. *)
Theorem X5_initAudioTrackInfo_success env p w w' a :
  heap_ok w -> load_audio w p = Done a -> p <> NULL ->
  initAudioTrackInfo env p w = Done (w', ERRNO_NONE) ->
  (pAudioTrackInfo a <> NULL -> w' = w) /\
  (pAudioTrackInfo a = NULL ->
   exists blob,
     mkv_ret env (n_ext w) = (0, blob) /\
     load_audio w' p = Done (set_pAudioTrackInfo (brk w) a) /\
     load_track_info w' (brk w)
       = Done (mkTrackInfo AUDIO_TRACK_NAME AUDIO_CODEC_NAME
                 (sampleRate (xAudioConf a)) (channelNumber (xAudioConf a))
                 (brk w + 1) (to_size (Z.of_nat (length blob)))) /\
     heap w' !! (brk w + 1) = Some (OBytes blob) /\
     (forall q, q < brk w -> q <> p -> heap w' !! q = heap w !! q)).
Proof.
  intros Hok Ha Hp H.
  destruct (initAudioTrackInfo_success env p w w' a Hok Ha Hp H) as [H1 H2].
  split; [exact H1|]. intros Hn.
  destruct (H2 Hn) as (blob & X1 & X2 & X3 & X4 & _ & _ & _ & _ & _ & X5).
  exists blob. done.
Qed.

Lemma X5_witness :
  exists w' blob,
    initAudioTrackInfo (demo_env 64) 1 bare_world = Done (w', ERRNO_NONE) /\
    mkv_ret (demo_env 64) (n_ext bare_world) = (0, blob) /\
    load_audio w' 1 = Done (set_pAudioTrackInfo (brk bare_world) T31Audio_zero) /\
    load_track_info w' (brk bare_world)
      = Done (mkTrackInfo AUDIO_TRACK_NAME AUDIO_CODEC_NAME
                (sampleRate (xAudioConf T31Audio_zero))
                (channelNumber (xAudioConf T31Audio_zero))
                (brk bare_world + 1) (to_size (Z.of_nat (length blob)))) /\
    heap w' !! (brk bare_world + 1) = Some (OBytes blob).
Proof.
  assert (exists w', initAudioTrackInfo (demo_env 64) 1 bare_world
                     = Done (w', ERRNO_NONE)) as [w' Hw]
    by (vm_compute; eexists; reflexivity).
  destruct (X5_initAudioTrackInfo_success (demo_env 64) 1 bare_world w' T31Audio_zero
              heap_ok_bare_world eq_refl ltac:(discriminate) Hw) as [_ H].
  destruct (H eq_refl) as (blob & H1 & H2 & H3 & H4 & _).
  exists w', blob. done.
Defined.

(** X6.  [initAacEncoder] does not clean up: when the encoder was created
    and a buffer allocation fails afterwards, the function reports the
    error, releases nothing, and returns with the encoder still allocated
    but not recorded in the handle.  When it is the second allocation that
    fails, the PCM buffer stays allocated as well. *)
Theorem X6_initAacEncoder_failure_keeps_encoder env p w w' r a n :
  heap_ok w -> load_audio w p = Done a -> p <> NULL ->
  aac_create_ret env (n_ext w) = Some n ->
  initAacEncoder env p w = Done (w', r) -> r <> ERRNO_NONE ->
  exists a' tr,
    load_audio w' p = Done a' /\ xAacEncHandle a' = xAacEncHandle a /\
    heap w' !! brk w = Some OAacEncoder /\
    trace w' = trace w ++ tr /\ frees tr = [] /\
    (r = 358 /\ pPcmBuf a' = NULL \/
     r = 363 /\ pPcmBuf a' = brk w + 1 /\ pFrameBuf a' = NULL /\
     heap w' !! (brk w + 1) = Some (OBytes (zeros (to_size n)))).
Proof.
  unfold initAacEncoder. intros Hok Ha Hp Hn H Hr.
  pose proof (heap_ok_below _ _ _ Hok (load_audio_inv _ _ _ Ha)) as Hpb.
  destruct Hok as [Hbrk _].
  rewrite decide_False in H by exact Hp. rewrite Ha in H. cbn [bind] in H.
  unfold AacEncoder_create in H. rewrite Hn in H. wsimpl.
  inv_bind H. apply store_audio_inv in E as [_ ->].
  rewrite decide_False in H by (unfold NULL; lia).
  unfold KVS_MALLOC in H. wsimpl.
  destruct (malloc_ret env (n_malloc w)).
  - wsimpl. inv_bind H. apply store_audio_inv in E as [_ ->].
    rewrite decide_False in H by (unfold NULL; lia).
    wsimpl. destruct (malloc_ret env (S (n_malloc w))).
    + wsimpl. inv_bind H. apply store_audio_inv in E as [_ ->].
      rewrite decide_False in H by (unfold NULL; lia).
      inv_bind H. by injection H as <- <-.
    + wsimpl. inv_bind H. apply store_audio_inv in E as [_ ->].
      rewrite decide_True in H by done. injection H as <- <-.
      eexists _, [_; _; _; _]. unfold load_audio. wsimpl.
      rewrite lookup_insert_eq. split; [reflexivity|]. split; [reflexivity|].
      rewrite !lookup_insert_ne by lia. rewrite lookup_insert_eq. split; [done|].
      rewrite <- !app_assoc. split; [reflexivity|]. split; [reflexivity|].
      right. split; [done|]. split; [reflexivity|]. split; [reflexivity|].
      rewrite !lookup_insert_ne by lia. by rewrite lookup_insert_eq.
  - wsimpl. inv_bind H. apply store_audio_inv in E as [_ ->].
    rewrite decide_True in H by done. injection H as <- <-.
    eexists _, [_; _; _]. unfold load_audio. wsimpl.
    rewrite lookup_insert_eq. split; [reflexivity|]. split; [reflexivity|].
    rewrite !lookup_insert_ne by lia. rewrite lookup_insert_eq. split; [done|].
    rewrite <- !app_assoc. split; [reflexivity|]. split; [reflexivity|].
    left. done.
Qed.

Lemma X6_witness :
  exists w' a' tr,
    initAacEncoder (oom_env 0) 1 bare_world = Done (w', 358) /\
    load_audio w' 1 = Done a' /\ xAacEncHandle a' = xAacEncHandle T31Audio_zero /\
    heap w' !! brk bare_world = Some OAacEncoder /\
    trace w' = trace bare_world ++ tr /\ frees tr = [].
Proof.
  assert (exists w', initAacEncoder (oom_env 0) 1 bare_world = Done (w', 358)) as [w' Hw]
    by (vm_compute; eexists; reflexivity).
  destruct (X6_initAacEncoder_failure_keeps_encoder (oom_env 0) 1 bare_world w' 358
              T31Audio_zero 64 heap_ok_bare_world eq_refl ltac:(discriminate) eq_refl Hw
              ltac:(discriminate)) as (a' & tr & H1 & H2 & H3 & H4 & H5 & _).
  exists w', a', tr. done.
Defined.

Lemma initAacEncoder_success env p w w' a :
  heap_ok w -> load_audio w p = Done a -> p <> NULL ->
  initAacEncoder env p w = Done (w', ERRNO_NONE) ->
  exists n,
    aac_create_ret env (n_ext w) = Some n /\
    load_audio w' p
      = Done (set_xAacEncHandle (brk w)
                (set_pFrameBuf (brk w + 2)
                   (set_pPcmBuf (brk w + 1)
                      (set_uPcmOffset 0
                         (set_uPcmTimestamp 0 (set_uPcmBufSize (to_size n) a)))))) /\
    heap w' !! brk w = Some OAacEncoder /\
    heap w' !! (brk w + 1) = Some (OBytes (zeros (to_size n))) /\
    heap w' !! (brk w + 2) = Some (OBytes (zeros (to_size (xFrameBufSize a)))) /\
    brk w' = brk w + 3 /\ heap_ok w' /\ threads w' = threads w /\
    n_ext w' = S (n_ext w) /\
    (forall q, q < brk w -> q <> p -> heap w' !! q = heap w !! q).
Proof.
  unfold initAacEncoder. intros Hok Ha Hp H.
  pose proof (heap_ok_below _ _ _ Hok (load_audio_inv _ _ _ Ha)) as Hpb.
  destruct Hok as [Hbrk Hall].
  rewrite decide_False in H by exact Hp. rewrite Ha in H. cbn [bind] in H.
  unfold AacEncoder_create in H.
  destruct (aac_create_ret env (n_ext w)) as [n|].
  2:{ wsimpl. inv_bind H. rewrite decide_True in H by done. discriminate. }
  wsimpl. inv_bind H. apply store_audio_inv in E as [_ ->].
  rewrite decide_False in H by (unfold NULL; lia).
  unfold KVS_MALLOC in H. wsimpl.
  destruct (malloc_ret env (n_malloc w)).
  2:{ wsimpl. inv_bind H. rewrite decide_True in H by done. discriminate. }
  wsimpl. inv_bind H. apply store_audio_inv in E as [_ ->].
  rewrite decide_False in H by (unfold NULL; lia).
  wsimpl. destruct (malloc_ret env (S (n_malloc w))).
  2:{ wsimpl. inv_bind H. rewrite decide_True in H by done. discriminate. }
  wsimpl. inv_bind H. apply store_audio_inv in E as [_ ->].
  rewrite decide_False in H by (unfold NULL; lia).
  inv_bind H. injection H as <-. apply store_audio_inv in E as [_ ->].
  exists n. split; [done|]. unfold load_audio. wsimpl.
  replace (brk w + 1 + 1) with (brk w + 2) by lia.
  rewrite lookup_insert_eq. split; [done|].
  rewrite !lookup_insert_ne by lia. rewrite lookup_insert_eq. split; [done|].
  rewrite !lookup_insert_ne by lia. rewrite lookup_insert_eq. split; [done|].
  rewrite !lookup_insert_ne by lia. rewrite lookup_insert_eq. split; [done|].
  split; [lia|]. split; [heap_ok_tac|]. split; [done|]. split; [done|].
  intros q Hq Hqp. rewrite !lookup_insert_ne by lia. done.
Qed.

(** ** What [T31Audio_create] leaves behind *)

(** the layout of a successful creation: seven consecutive allocations, the
    handle first *)
Lemma T31Audio_create_init_success env h w w' p :
  heap_ok w -> T31Audio_create_init env h w = Done (w', p, ERRNO_NONE) ->
  exists n blob,
    p = brk w /\
    mkv_ret env (S (n_ext w)) = (0, blob) /\
    aac_create_ret env (S (S (n_ext w))) = Some n /\
    heap w' !! p
      = Some (OAudio (mkAudio (brk w + 1) (Z.of_nat (length (threads w)) + 1)
                        false false h (brk w + 2) created_conf (brk w + 4) 0
                        (brk w + 5) 0 (to_size n) (brk w + 6) (8 * 1024))) /\
    heap w' !! (brk w + 1) = Some OLock /\
    heap w' !! (brk w + 2)
      = Some (OTrackInfo (mkTrackInfo AUDIO_TRACK_NAME AUDIO_CODEC_NAME 16000 1
                            (brk w + 3) (to_size (Z.of_nat (length blob))))) /\
    heap w' !! (brk w + 3) = Some (OBytes blob) /\
    heap w' !! (brk w + 4) = Some OAacEncoder /\
    heap w' !! (brk w + 5) = Some (OBytes (zeros (to_size n))) /\
    heap w' !! (brk w + 6) = Some (OBytes (zeros (8 * 1024))) /\
    brk w' = brk w + 7 /\ heap_ok w' /\
    threads w' = threads w ++ [mkThread p WReady] /\
    (forall q, q < brk w -> heap w' !! q = heap w !! q).
Proof.
  unfold T31Audio_create_init. intros Hok H.
  pose proof Hok as [Hbrk Hall].
  unfold KVS_MALLOC in H. destruct (malloc_ret env (n_malloc w)).
  2:{ rewrite decide_True in H by done. cbn [bind] in H. discriminate. }
  wsimpl. rewrite decide_False in H by (unfold NULL; lia).
  inv_bind H. destruct x as [w1 r1]. injection H as -> <- ->.
  inv_bind E. apply store_audio_inv in E0 as [_ ->].
  unfold Lock_Init in E. wsimpl.
  destruct (lock_init_ret env (n_ext w)).
  2:{ inv_bind E. rewrite decide_True in E by done. discriminate. }
  wsimpl. inv_bind E. apply store_audio_inv in E0 as [_ ->].
  rewrite decide_False in E by (unfold NULL; lia).
  cbn [audioConfigurationInit] in E. inv_bind E.
  apply store_audio_inv in E0 as [_ ->].
  rewrite decide_False in E by (intros X; by apply X).
  inv_bind E. destruct x as [w2 r2].
  case_decide as Hr2; [discriminate|].
  assert (r2 = ERRNO_NONE) as -> by (destruct (decide (r2 = ERRNO_NONE)); [done|contradiction]).
  match type of E0 with initAudioTrackInfo _ _ ?w0 = _ =>
    match type of E0 with context [OAudio ?a0] =>
      destruct (initAudioTrackInfo_success env (brk w) w0 w2 a0) as [_ Hti]
    end end; [heap_ok_tac| |unfold NULL; lia|exact E0|].
  { unfold load_audio. wsimpl. by rewrite lookup_insert_eq. }
  destruct (Hti eq_refl) as (blob & Hmkv & Hl2 & Hinfo & Hblob & Hb2 & Hok2 & Hth2 & Hx2 & _ & Hk2).
  clear Hti E0. wsimpl.
  inv_bind E. destruct x as [w3 r3].
  case_decide as Hr3; [discriminate|].
  assert (r3 = ERRNO_NONE) as -> by (destruct (decide (r3 = ERRNO_NONE)); [done|contradiction]).
  destruct (initAacEncoder_success env (brk w) w2 w3 _ Hok2 Hl2 ltac:(unfold NULL; lia) E0)
    as (n & Haac & Hl3 & Henc & Hpcm & Hfrm & Hb3 & Hok3 & Hth3 & Hx3 & Hk3).
  clear E0.
  unfold pthread_create in E.
  destruct (decide (pthread_create_ret env (n_ext w3) = 0)) as [Hz|Hnz].
  2:{ inv_bind E. inv_bind E. rewrite decide_True in E by done. discriminate. }
  inv_bind E. inv_bind E. rewrite decide_False in E by (intros X; by apply X).
  injection E as <-.
  change (load_audio w3 (brk w) = Done x) in E0. rewrite Hl3 in E0. injection E0 as <-.
  apply store_audio_inv in E1 as [_ ->].
  exists n, blob. wsimpl. rewrite Hb2 in *. wsimpl.
  replace (brk w + 1 + 1) with (brk w + 2) in * by lia.
  replace (brk w + 2 + 1) with (brk w + 3) in * by lia.
  replace (brk w + 2 + 2) with (brk w + 4) in * by lia.
  replace (brk w + 4 + 1) with (brk w + 5) in * by lia.
  replace (brk w + 4 + 2) with (brk w + 6) in * by lia.
  split; [done|]. split; [exact Hmkv|]. rewrite Hx2 in Haac. split; [exact Haac|].
  rewrite lookup_insert_eq. split.
  { rewrite Hth3, Hth2. reflexivity. }
  rewrite !lookup_insert_ne by lia.
  split.
  { rewrite Hk3 by lia. rewrite Hk2 by lia. wsimpl.
    rewrite !lookup_insert_ne by lia. by rewrite lookup_insert_eq. }
  split.
  { rewrite Hk3 by lia. apply load_track_info_inv in Hinfo. exact Hinfo. }
  split; [rewrite Hk3 by lia; exact Hblob|].
  split; [exact Henc|]. split; [exact Hpcm|]. split; [exact Hfrm|].
  split; [lia|]. split.
  { destruct Hok3 as [Hb Hf]. split; [wsimpl; lia|]. wsimpl.
    apply map_Forall_insert_2; [lia|]. exact Hf. }
  split; [by rewrite Hth3, Hth2|].
  intros q Hq. rewrite lookup_insert_ne by lia.
  rewrite Hk3 by lia. rewrite Hk2 by lia. wsimpl.
  rewrite !lookup_insert_ne by lia. done.
Qed.

Lemma heap_ok_world0 : heap_ok world0.
Proof. split; [reflexivity|apply map_Forall_empty]. Qed.

(** the postcondition of a creation that returns a handle *)
Lemma T31Audio_create_ready fuel env h w w' p :
  heap_ok w ->
  (forall k n, aac_create_ret env k = Some n -> to_size n <> 0) ->
  T31Audio_create fuel env h w = Done (w', p) -> p <> NULL ->
  exists a buf,
    audio_ok w' p a buf /\
    uPcmOffset a = 0 /\ isTerminating a = false /\ isTerminated a = false /\
    kvsAppHandle a = h /\ xAudioConf a = created_conf /\
    xFrameBufSize a = 8 * 1024 /\
    threads w' = threads w ++ [mkThread p WReady] /\
    tid a = Z.of_nat (length (threads w)) + 1 /\
    heap w' !! lock a = Some OLock /\
    heap w' !! xAacEncHandle a = Some OAacEncoder /\
    (forall q, q < brk w -> heap w' !! q = heap w !! q).
Proof.
  intros Hok Hn H Hp. unfold T31Audio_create in H.
  inv_bind H. destruct x as [[w1 p1] res].
  case_decide as Hres.
  { inv_bind H. injection H as _ <-. by destruct Hp. }
  injection H as -> ->.
  assert (res = ERRNO_NONE) as -> by (destruct (decide (res = ERRNO_NONE)); [done|contradiction]).
  destruct (T31Audio_create_init_success env h w w' p Hok E)
    as (n & blob & -> & Hmkv & Haac & Ha & Hlock & Hinfo & Hblob & Henc & Hpcm & Hfrm
        & Hbrk & Hok' & Hth & Hkeep).
  pose proof (Hn _ _ Haac) as Hnz.
  assert (0 < to_size n < SIZE_MOD) as Hsz.
  { unfold to_size in *. pose proof (Z.mod_pos_bound n SIZE_MOD ltac:(done)). lia. }
  destruct Hok as [Hb0 _]. destruct Hok' as [Hb1 Hall].
  exists (mkAudio (brk w + 1) (Z.of_nat (length (threads w)) + 1) false false h
            (brk w + 2) created_conf (brk w + 4) 0 (brk w + 5) 0 (to_size n)
            (brk w + 6) (8 * 1024)), (zeros (to_size n)).
  split.
  { constructor; cbn.
    - exact Ha.
    - exact Hpcm.
    - unfold zeros. rewrite length_replicate. unfold to_size, SIZE_MOD in *. lia.
    - exists (zeros (8 * 1024)). split; [exact Hfrm|]. vm_compute. discriminate.
    - lia.
    - unfold to_size, SIZE_MOD in *. lia.
    - unfold to_size, SIZE_MOD in *. lia.
    - vm_compute. split; discriminate.
    - vm_compute. split; [reflexivity|discriminate].
    - vm_compute. split; [discriminate|reflexivity].
    - exact Hb1.
    - exact Hall. }
  cbn. repeat match goal with |- _ /\ _ => split end; try done.
Qed.


Lemma demo_world_eq :
  T31Audio_create 1 (demo_env 64) 77 world0 = Done (demo_world 64, demo_handle).
Proof. vm_compute. reflexivity. Qed.


(** ** The block duration of a large block *)








(** ** The clone accessor *)

(** the accessor adds one object at most and writes to no other *)
Lemma clone_frame env p w w' q :
  T31Audio_getAudioTrackInfoClone env p w = Done (w', q) ->
  forall x, x < brk w -> heap w' !! x = heap w !! x.
Proof.
  unfold T31Audio_getAudioTrackInfoClone. intros H x Hx.
  case_decide; [by injection H as <- <-|].
  inv_bind H. inv_bind H. destruct x1 as [w1 rc].
  unfold Lock in E0. destruct (heap w !! lock x0) as [[]|]; try discriminate.
  injection E0 as <- <-.
  case_decide; [by injection H as <- <-|].
  inv_bind H. inv_bind H. destruct x2 as [w2 pInfo]. inv_bind H. injection H as <- <-.
  unfold Unlock in E2. destruct (heap w2 !! lock x1) as [[]|]; try discriminate.
  injection E2 as <-. wsimpl.
  case_decide; [|by injection E1 as <- <-].
  unfold KVS_MALLOC in E1. wsimpl.
  destruct (malloc_ret env (n_malloc w)).
  2:{ rewrite decide_True in E1 by done. by injection E1 as <- <-. }
  wsimpl. case_decide.
  { injection E1 as <- <-. wsimpl. by rewrite lookup_insert_ne by lia. }
  inv_bind E1. inv_bind E1. injection E1 as <- <-.
  apply store_track_info_inv in E3 as [_ ->]. wsimpl.
  rewrite !lookup_insert_ne by lia. done.
Qed.

(** X8.  Creation and the clone accessor, end to end: on a handle returned
    by [T31Audio_create], a clone that is not NULL describes the audio
    track of the configuration (the two static names, 16000 Hz, one
    channel) and points to the codec private data exactly as the generator
    produced them during creation. *)
Theorem X8_clone_after_create fuel env h w w1 p w2 q :
  heap_ok w ->
  T31Audio_create fuel env h w = Done (w1, p) -> p <> NULL ->
  T31Audio_getAudioTrackInfoClone env p w1 = Done (w2, q) -> q <> NULL ->
  exists blob pb,
    mkv_ret env (S (n_ext w)) = (0, blob) /\
    load_track_info w2 q
      = Done (mkTrackInfo AUDIO_TRACK_NAME AUDIO_CODEC_NAME 16000 1 pb
                (to_size (Z.of_nat (length blob)))) /\
    heap w2 !! pb = Some (OBytes blob).
Proof.
  intros Hok H Hp Hc Hq. unfold T31Audio_create in H.
  inv_bind H. destruct x as [[w0 p0] res].
  case_decide as Hres.
  { inv_bind H. injection H as _ <-. by destruct Hp. }
  injection H as -> ->.
  assert (res = ERRNO_NONE) as -> by (destruct (decide (res = ERRNO_NONE)); [done|contradiction]).
  destruct (T31Audio_create_init_success env h w w1 p Hok E)
    as (n & blob & -> & Hmkv & _ & Ha & _ & Hinfo & Hblob & _ & _ & _ & Hbrk & _).
  exists blob, (brk w + 3). split; [exact Hmkv|].
  assert (load_audio w1 (brk w)
            = Done (mkAudio (brk w + 1) (Z.of_nat (length (threads w)) + 1) false false h
                      (brk w + 2) created_conf (brk w + 4) 0 (brk w + 5) 0 (to_size n)
                      (brk w + 6) (8 * 1024))) as Hla
    by (apply load_audio_intro; exact Ha).
  assert (load_track_info w1 (brk w + 2)
            = Done (mkTrackInfo AUDIO_TRACK_NAME AUDIO_CODEC_NAME 16000 1 (brk w + 3)
                      (to_size (Z.of_nat (length blob))))) as Hlt
    by (apply load_track_info_intro; exact Hinfo).
  destruct (clone_copies_fields env (brk w) w1 w2 q _ _ Hla Hlt
              ltac:(cbn [pAudioTrackInfo]; lia) Hc Hq) as (_ & Hclone & _).
  split; [exact Hclone|].
  rewrite (clone_frame _ _ _ _ _ Hc) by lia. exact Hblob.
Qed.

Lemma X8_witness :
  exists blob pb,
    mkv_ret (demo_env 64) (S (n_ext world0)) = (0, blob) /\
    load_track_info (demo_world_cloned 64) (demo_clone 64)
      = Done (mkTrackInfo AUDIO_TRACK_NAME AUDIO_CODEC_NAME 16000 1 pb
                (to_size (Z.of_nat (length blob)))) /\
    heap (demo_world_cloned 64) !! pb = Some (OBytes blob).
Proof.
  refine (X8_clone_after_create 1 (demo_env 64) 77 world0 (demo_world 64) demo_handle
            (demo_world_cloned 64) (demo_clone 64) heap_ok_world0 demo_world_eq _
            demo_world_cloned_eq _).
  - discriminate.
  - vm_compute. discriminate.
Defined.

(** X9.  The lock discipline of the clone accessor.  A NULL handle is
    answered with NULL without any call.  Otherwise the lock of the handle
    is taken first; when that fails the accessor logs, returns NULL and
    does not unlock; when it succeeds the lock is released exactly once,
    as the last action, whether a clone could be made or not.  In every
    case the objects that existed before the call are left as they were. *)
Theorem X9_clone_lock_discipline env p w w' q :
  T31Audio_getAudioTrackInfoClone env p w = Done (w', q) ->
  (forall x, x < brk w -> heap w' !! x = heap w !! x) /\
  exists tr,
    trace w' = trace w ++ tr /\
    (p = NULL /\ tr = [] /\ q = NULL \/
     exists a,
       p <> NULL /\ load_audio w p = Done a /\
       ((exists rc, rc <> LOCK_OK /\ q = NULL /\
           tr = [EvLock (lock a) rc; EvLogError "Failed to lock"]) \/
        lock_calls tr = [EvLock (lock a) LOCK_OK; EvUnlock (lock a)] /\
        last tr = Some (EvUnlock (lock a)) /\
        (q = NULL \/ q = brk w /\ pAudioTrackInfo a <> NULL))).
Proof.
  intros H. split; [exact (clone_frame _ _ _ _ _ H)|].
  unfold T31Audio_getAudioTrackInfoClone in H.
  case_decide as Hp.
  { injection H as <- <-. exists []. rewrite app_nil_r. split; [done|]. by left. }
  inv_bind H. inv_bind H. destruct x0 as [w1 rc].
  unfold Lock in E0. destruct (heap w !! lock x) as [[]|]; try discriminate.
  injection E0 as <- <-.
  case_decide as Hrc.
  { injection H as <- <-. eexists [_; _]. wsimpl. rewrite <- app_assoc.
    split; [reflexivity|]. right. exists x. split; [done|]. split; [done|].
    left. eexists. split; [exact Hrc|]. done. }
  assert (lock_ret env (n_ext w) = LOCK_OK) as Hz
    by (destruct (decide (lock_ret env (n_ext w) = LOCK_OK)); [done|contradiction]).
  rewrite Hz in *. clear Hrc.
  inv_bind H. change (load_audio w p = Done x0) in E0. rewrite E in E0.
  injection E0 as <-.
  inv_bind H. destruct x0 as [w2 pInfo]. inv_bind H. injection H as <- <-.
  unfold Unlock in E1. destruct (heap w2 !! lock x) as [[]|]; try discriminate.
  injection E1 as <-. wsimpl.
  case_decide as Hti.
  2:{ injection E0 as <- <-. eexists [_; _]. wsimpl. rewrite <- app_assoc.
      split; [reflexivity|]. right. exists x. split; [done|]. split; [done|].
      right. split; [done|]. split; [done|]. by left. }
  unfold KVS_MALLOC in E0. wsimpl.
  destruct (malloc_ret env (n_malloc w)).
  2:{ rewrite decide_True in E0 by done. injection E0 as <- <-.
      eexists [_; _; _; _]. wsimpl. rewrite <- !app_assoc.
      split; [reflexivity|]. right. exists x. split; [done|]. split; [done|].
      right. split; [done|]. split; [done|]. by left. }
  wsimpl. case_decide as Hb.
  { injection E0 as <- <-. eexists [_; _; _; _]. wsimpl. rewrite <- !app_assoc.
    split; [reflexivity|]. right. exists x. split; [done|]. split; [done|].
    right. split; [done|]. split; [done|]. by left. }
  inv_bind E0. inv_bind E0. injection E0 as <- <-.
  apply store_track_info_inv in E2 as [_ ->]. wsimpl.
  eexists [_; _; _]. rewrite <- !app_assoc.
  split; [reflexivity|]. right. exists x. split; [done|]. split; [done|].
  right. split; [done|]. split; [done|]. by right.
Qed.

Lemma X9_witness :
  (forall x, x < brk (demo_world 64) ->
     heap (demo_world_cloned 64) !! x = heap (demo_world 64) !! x) /\
  exists tr,
    trace (demo_world_cloned 64) = trace (demo_world 64) ++ tr /\
    (demo_handle = NULL /\ tr = [] /\ demo_clone 64 = NULL \/
     exists a,
       demo_handle <> NULL /\ load_audio (demo_world 64) demo_handle = Done a /\
       ((exists rc, rc <> LOCK_OK /\ demo_clone 64 = NULL /\
           tr = [EvLock (lock a) rc; EvLogError "Failed to lock"]) \/
        lock_calls tr = [EvLock (lock a) LOCK_OK; EvUnlock (lock a)] /\
        last tr = Some (EvUnlock (lock a)) /\
        (demo_clone 64 = NULL \/
         demo_clone 64 = brk (demo_world 64) /\ pAudioTrackInfo a <> NULL))).
Proof.
  exact (X9_clone_lock_discipline (demo_env 64) demo_handle (demo_world 64)
           (demo_world_cloned 64) (demo_clone 64) demo_world_cloned_eq).
Defined.

(** ** The worker and the device frames *)

Lemma frame_steps_trans s1 s2 s3 t1 t2 :
  frame_steps s1 s2 t1 -> frame_steps s2 s3 t2 -> frame_steps s1 s3 (t1 ++ t2).
Proof.
  intros H1 H2 rest. by rewrite imp_calls_app, <- app_assoc, H1, H2.
Qed.

Lemma frame_steps_quiet s tr : imp_calls tr = [] -> frame_steps s s tr.
Proof. intros H rest. by rewrite H. Qed.

Lemma imp_calls_imp c rc tr : imp_calls (EvImp c rc :: tr) = (c, rc) :: imp_calls tr.
Proof. reflexivity. Qed.

Lemma release_failed_cons c rc cs :
  release_failed ((c, rc) :: cs)
  = match c with IMP_AI_ReleaseFrame => negb (Z.eqb rc 0) | _ => false end
    || release_failed cs.
Proof. reflexivity. Qed.

Lemma release_failed_app c1 c2 :
  release_failed (c1 ++ c2) = release_failed c1 || release_failed c2.
Proof. apply existsb_app. Qed.

(** a chain of device calls other than the three frame calls leaves the
    frame where it is *)
Lemma imp_any_fails_frames env cs s :
  s <> Fetched ->
  Forall (fun c => c <> IMP_AI_PollingFrame /\ c <> IMP_AI_GetFrame /\
                   c <> IMP_AI_ReleaseFrame) cs ->
  forall w, exists tr,
    trace (imp_any_fails env cs w).1 = trace w ++ tr /\
    frame_steps s s tr /\ release_failed (imp_calls tr) = false.
Proof.
  intros Hs. induction cs as [|c cs IH]; intros Hcs w.
  - exists []. rewrite app_nil_r. split; [done|]. split; [|done]. by intros rest.
  - inversion Hcs as [|? ? (Hc0 & Hc1 & Hc2) Hcs']; subst.
    cbn [imp_any_fails]. unfold IMP. case_decide.
    + eexists [_]. split; [reflexivity|]. split.
      * intros rest. cbn. by destruct s, c.
      * cbn. by destruct c.
    + destruct (IH Hcs' (emit (EvImp c (imp_ret env (n_imp w) c)) (tick_imp w)))
        as (tr & Ht & Hp & Hr).
      eexists (_ :: tr). rewrite Ht. cbn [trace emit tick_imp].
      rewrite <- app_assoc. split; [reflexivity|]. split.
      * intros rest. specialize (Hp rest). rewrite imp_calls_imp.
        cbn [app frame_protocol]. by destruct s, c.
      * rewrite imp_calls_imp, release_failed_cons, Hr. by destruct c.
Qed.

(** a pass through the loop body: the fetched frame goes to
    IMP_AI_ReleaseFrame at once; the pass ends without a frame, or leaves
    the loop on a failed release *)
Lemma audioThread_iter_frames fuel env p res w w' c res' :
  audioThread_iter fuel env p res w = Done (w', c, res') ->
  exists tr,
    trace w' = trace w ++ tr /\
    (frame_steps NoFrame NoFrame tr /\ release_failed (imp_calls tr) = false \/
     c = Break /\ frame_steps NoFrame ReleaseFailed tr /\
     release_failed (imp_calls tr) = true).
Proof.
  unfold audioThread_iter, IMP_GetFrame, IMP. intros H.
  case_decide.
  { injection H as <- <- <-. eexists [_; _]. cbn [LogError trace emit tick_imp].
    rewrite <- app_assoc. split; [reflexivity|]. left. split; [|reflexivity].
    intros rest. reflexivity. }
  cbn [n_imp emit tick_imp] in H. case_decide as Hget.
  { injection H as <- <- <-. eexists [_; _; _]. cbn [LogError trace emit tick_imp].
    rewrite <- !app_assoc. split; [reflexivity|]. left. split; [|reflexivity].
    intros rest. cbn.
    destruct (Z.eqb_spec (imp_ret env (S (n_imp w)) IMP_AI_GetFrame) 0); [contradiction|done]. }
  assert (imp_ret env (S (n_imp w)) IMP_AI_GetFrame = 0) as Hz
    by (destruct (decide (imp_ret env (S (n_imp w)) IMP_AI_GetFrame = 0)); [done|contradiction]).
  inv_bind H. destruct x as [w3 r].
  destruct (sendAudioFrame_extends _ _ _ _ _ _ _ E) as (t1 & Ht1 & Hf1 & _).
  pose proof (imp_calls_accum _ Hf1) as Hi1.
  cbn [trace emit tick_imp] in Ht1.
  set (w4 := if decide (r <> 0) then _ else w3) in *.
  assert (exists t2, trace w4 = trace w3 ++ t2 /\ imp_calls t2 = []) as (t2 & Ht2 & Hi2).
  { subst w4. destruct (decide (r <> 0)); [eexists [_]; split; reflexivity|].
    exists []. by rewrite app_nil_r. }
  set (rc := imp_ret env (n_imp w4) IMP_AI_ReleaseFrame) in *.
  assert (exists t3, trace w' = trace w4 ++ EvImp IMP_AI_ReleaseFrame rc :: t3 /\
                     imp_calls t3 = [] /\ (rc <> 0 -> c = Break)) as (t3 & Ht3 & Hi3 & Hc).
  { case_decide.
    - injection H as <- <- <-. eexists [_]. cbn [LogError trace emit tick_imp].
      rewrite <- app_assoc. done.
    - inv_bind H. exists []. destruct (isTerminating x); by injection H as <- <- <-. }
  exists ([EvImp IMP_AI_PollingFrame (imp_ret env (n_imp w) IMP_AI_PollingFrame);
           EvImp IMP_AI_GetFrame (imp_ret env (S (n_imp w)) IMP_AI_GetFrame)]
          ++ t1 ++ t2 ++ [EvImp IMP_AI_ReleaseFrame rc] ++ t3).
  rewrite Ht3, Ht2, Ht1, <- !app_assoc. split; [reflexivity|].
  destruct (Z.eqb_spec rc 0) as [Hrc|Hrc].
  - left. split.
    + intros rest. rewrite !imp_calls_app, Hi1, Hi2, Hi3. cbn. rewrite Hz, Hrc. reflexivity.
    + rewrite !imp_calls_app, Hi1, Hi2, Hi3. cbn. by rewrite Hrc.
  - right. split; [by apply Hc|]. split.
    + intros rest. rewrite !imp_calls_app, Hi1, Hi2, Hi3. cbn. rewrite Hz.
      destruct (Z.eqb_spec rc 0); [contradiction|reflexivity].
    + rewrite !imp_calls_app, Hi1, Hi2, Hi3. cbn.
      destruct (Z.eqb_spec rc 0); [contradiction|reflexivity].
Qed.

Lemma audioThread_while_frames fuel env p :
  forall n res w w' res',
    audioThread_while n fuel env p res w = Done (w', res') ->
    exists tr s,
      trace w' = trace w ++ tr /\ frame_steps NoFrame s tr /\
      s = (if release_failed (imp_calls tr) then ReleaseFailed else NoFrame).
Proof.
  induction n as [|n IH]; intros res w w' res' H; [discriminate|].
  cbn [audioThread_while] in H. inv_bind H. destruct x as [[w1 c] r1].
  destruct (audioThread_iter_frames _ _ _ _ _ _ _ _ E) as (t1 & Ht1 & Hp1).
  destruct c.
  - destruct Hp1 as [[Hp1 Hr1]|[? _]]; [|discriminate].
    destruct (IH _ _ _ _ H) as (t2 & s & Ht2 & Hp2 & Hs).
    exists (t1 ++ t2), s. rewrite Ht2, Ht1, app_assoc. split; [done|].
    split; [by eapply frame_steps_trans|].
    by rewrite imp_calls_app, release_failed_app, Hr1.
  - injection H as <- <-. destruct Hp1 as [[Hp1 Hr1]|(_ & Hp1 & Hr1)].
    + exists t1, NoFrame. by rewrite Hr1.
    + exists t1, ReleaseFailed. by rewrite Hr1.
Qed.

(** the frame calls of a whole run of the worker *)
Lemma audioThread_frames fuel env arg w w' res :
  audioThread fuel env arg w = Done (w', res) ->
  exists tr,
    trace w' = trace w ++ tr /\
    frame_protocol NoFrame (imp_calls tr)
      = Some (if release_failed (imp_calls tr) then ReleaseFailed else NoFrame).
Proof.
  unfold audioThread. intros H. inv_bind H. destruct x as [w1 sk].
  assert (exists t1, trace w1 = trace w ++ t1 /\ frame_steps NoFrame NoFrame t1 /\
            release_failed (imp_calls t1) = false) as (t1 & Ht1 & Hp1 & Hr1).
  { unfold audioThread_begin in E. case_decide.
    { injection E as <- <-. eexists [_]. split; [reflexivity|]. split; [|reflexivity].
      intros rest. reflexivity. }
    inv_bind E.
    match type of E with context [imp_any_fails env ?cs w] =>
      destruct (imp_any_fails_frames env cs NoFrame) with (w := w) as (t & Ht & Hp & Hr);
      [discriminate|repeat constructor; discriminate|];
      destruct (imp_any_fails env cs w) as [w0 failed] end.
    cbn [fst] in Ht. destruct failed; injection E as <- <-.
    - exists (t ++ [EvLogError "Failed to setup audio"]).
      cbn [LogError trace emit]. rewrite Ht, <- app_assoc. split; [done|]. split.
      + eapply frame_steps_trans; [exact Hp|]. by apply frame_steps_quiet.
      + rewrite imp_calls_app. cbn. by rewrite app_nil_r.
    - by exists t. }
  inv_bind H. destruct x as [w2 r2].
  destruct (audioThread_exit_spec _ _ _ _ _ H) as (_ & Ht3 & _).
  assert (exists t2 s, trace w2 = trace w1 ++ t2 /\ frame_steps NoFrame s t2 /\
            s = (if release_failed (imp_calls t2) then ReleaseFailed else NoFrame))
    as (t2 & s & Ht2 & Hp2 & Hs).
  { destruct sk as [r|].
    { injection E0 as <- <-. exists [], NoFrame. rewrite app_nil_r.
      split; [done|]. split; [|done]. by intros rest. }
    inv_bind E0. destruct x as [w3 r3].
    destruct (audioThread_while_frames _ _ _ _ _ _ _ _ E1) as (ta & s & Hta & Hpa & Hs).
    assert (s <> Fetched) as Hsf by (intros X; rewrite X in Hs; destruct (release_failed (imp_calls ta)); discriminate Hs).
    unfold audioThread_teardown in E0.
    match type of E0 with context [imp_any_fails env ?cs w3] =>
      destruct (imp_any_fails_frames env cs s Hsf) with (w := w3) as (tb & Htb & Hpb & Hrb);
      [repeat constructor; discriminate|];
      destruct (imp_any_fails env cs w3) as [w4 failed] end.
    cbn [fst] in Htb. destruct failed; injection E0 as <- <-.
    - exists (ta ++ tb ++ [EvLogError "Audio device disable error"]), s.
      cbn [LogError trace emit]. rewrite Htb, Hta, <- !app_assoc. split; [done|]. split.
      + eapply frame_steps_trans; [exact Hpa|].
        eapply frame_steps_trans; [exact Hpb|]. by apply frame_steps_quiet.
      + rewrite !imp_calls_app, !release_failed_app, Hrb. cbn.
        by rewrite !orb_false_r.
    - exists (ta ++ tb), s. rewrite Htb, Hta, <- app_assoc. split; [done|]. split.
      + eapply frame_steps_trans; [exact Hpa|exact Hpb].
      + by rewrite imp_calls_app, release_failed_app, Hrb, orb_false_r. }
  exists (t1 ++ t2 ++ [EvSetTerminated arg]).
  rewrite Ht3, Ht2, Ht1, <- !app_assoc. split; [done|].
  rewrite !imp_calls_app, !release_failed_app, Hr1. cbn [orb].
  rewrite Hp1, Hp2. cbn. rewrite orb_false_r. by rewrite <- Hs.
Qed.

(** X10.  The worker keeps the frame protocol of the device: in every run
    that returns, IMP_AI_ReleaseFrame is called right after each successful
    IMP_AI_GetFrame, before any other device call and also when the frame
    could not be encoded, and at no other time.  When every release
    returns 0 no frame is held when the worker exits.  When a release
    fails, the worker makes no poll, fetch or release any more, and exits
    with that frame unreleased. *)
Theorem X10_worker_releases_every_frame fuel env arg w w' res :
  audioThread fuel env arg w = Done (w', res) ->
  exists tr,
    trace w' = trace w ++ tr /\
    frame_protocol NoFrame (imp_calls tr)
      = Some (if release_failed (imp_calls tr) then ReleaseFailed else NoFrame).
Proof. apply audioThread_frames. Qed.

Lemma demo_world_unreleased_eq :
  audioThread 101 (norelease_env 64) demo_handle (demo_world 64)
    = Done (demo_world_unreleased, 0).
Proof. vm_compute. reflexivity. Qed.

Lemma X10_witness :
  (exists tr,
     trace (demo_world_exited 64) = trace (demo_world_terminating 64) ++ tr /\
     frame_protocol NoFrame (imp_calls tr)
       = Some (if release_failed (imp_calls tr) then ReleaseFailed else NoFrame)) /\
  (exists tr,
     trace demo_world_unreleased = trace (demo_world 64) ++ tr /\
     frame_protocol NoFrame (imp_calls tr)
       = Some (if release_failed (imp_calls tr) then ReleaseFailed else NoFrame)).
Proof.
  split.
  - exact (X10_worker_releases_every_frame 101 (demo_env 64) demo_handle
             (demo_world_terminating 64) (demo_world_exited 64) 0 demo_world_exited_eq).
  - exact (X10_worker_releases_every_frame 101 (norelease_env 64) demo_handle
             (demo_world 64) demo_world_unreleased 0 demo_world_unreleased_eq).
Defined.

(** ** The log of line 248 *)

Lemma store_audio_grows P w p a w' : store_audio w p a = Done w' -> grows P w w'.
Proof.
  unfold store_audio. destruct (heap w !! p) as [[]|]; try discriminate.
  intros [= <-]. by apply grows_same.
Qed.

Lemma store_bytes_grows P w p off src w' :
  store_bytes w p off src = Done w' -> grows P w w'.
Proof.
  unfold store_bytes. destruct (heap w !! p) as [[]|]; try discriminate.
  case_decide; [|discriminate]. intros [= <-]. by apply grows_same.
Qed.

Lemma encode_and_dispatch_quiet env w p w' :
  encode_and_dispatch env w p = Done w' -> grows not_send_failure w w'.
Proof.
  unfold encode_and_dispatch. intros H.
  inv_bind H. inv_bind H. inv_bind H. destruct x1 as [[w1 rc] xl].
  unfold AacEncoder_encode in E1.
  destruct (encode_ret env (n_enc w) x0) as [rc' out].
  inv_bind E1. injection E1 as <- <- <-.
  eapply grows_trans; [eapply store_bytes_grows; exact E2|].
  eapply grows_trans; [apply (grows_same _ _ (tick_enc x1)); reflexivity|].
  eapply grows_trans;
    [apply (grows_emit not_send_failure (EvEncode x0 (uPcmTimestamp x) rc')); reflexivity|].
  case_decide; [injection H as <-; by apply grows_emit|].
  case_decide; [injection H as <-; by apply grows_emit|].
  unfold KVS_MALLOC in H. cbn [n_malloc tick_enc emit] in H.
  destruct (malloc_ret env (n_malloc x1)).
  - cbn [alloc] in H.
    match type of H with context [emit (EvMalloc ?sz ?q) ?w0] =>
      eapply (grows_trans _ _ (emit (EvMalloc sz q) w0));
      [eapply grows_trans; [|apply grows_emit; reflexivity]; by apply grows_same|]
    end.
    case_decide; [injection H as <-; by apply grows_emit|].
    inv_bind H. inv_bind H.
    eapply grows_trans; [eapply store_bytes_grows; exact E3|].
    unfold KvsApp_addFrame in H. inv_bind H. injection H as <-.
    by apply grows_emit.
  - case_decide; [|done]. injection H as <-.
    eapply grows_trans; [|apply grows_emit; reflexivity].
    eapply grows_trans; [|apply grows_emit; reflexivity]. by apply grows_same.
Qed.

Lemma sendAudioFrame_while_quiet env p frm :
  forall fuel x w w',
    sendAudioFrame_while fuel env p frm x w = Done w' -> grows not_send_failure w w'.
Proof.
  induction fuel as [|fuel IH]; intros x w w' H; [discriminate|].
  cbn [sendAudioFrame_while] in H.
  case_decide; [|injection H as <-; apply grows_refl].
  inv_bind H. case_decide.
  - inv_bind H. inv_bind H. inv_bind H.
    eapply grows_trans; [eapply store_bytes_grows; eassumption|].
    eapply grows_trans; [eapply store_audio_grows; eassumption|].
    eapply IH; eassumption.
  - inv_bind H. inv_bind H. inv_bind H. inv_bind H. inv_bind H. inv_bind H. inv_bind H.
    eapply grows_trans; [eapply store_bytes_grows; eassumption|].
    eapply grows_trans; [eapply store_audio_grows; eassumption|].
    eapply grows_trans; [eapply encode_and_dispatch_quiet; eassumption|].
    eapply grows_trans; [eapply store_audio_grows; eassumption|].
    eapply IH; eassumption.
Qed.

(** with a handle that is not NULL and a frame, the call returns ERRNO_NONE *)
Lemma sendAudioFrame_quiet fuel env w p frm w' r :
  p <> NULL ->
  sendAudioFrame fuel env w p (Some frm) = Done (w', r) ->
  r = ERRNO_NONE /\ grows not_send_failure w w'.
Proof.
  unfold sendAudioFrame. intros Hp H.
  rewrite decide_False in H by exact Hp.
  inv_bind H. inv_bind H. inv_bind H. injection H as <- <-. split; [done|].
  eapply grows_trans; [|eapply sendAudioFrame_while_quiet; eassumption].
  case_decide; [|injection E0 as <-; apply grows_refl].
  unfold getEpochTimestampInMs in E0.
  eapply grows_trans; [|eapply store_audio_grows; exact E0].
  eapply grows_trans; [|apply grows_emit; reflexivity]. by apply grows_same.
Qed.

Lemma IMP_quiet env c w : grows not_send_failure w (IMP env c w).1.
Proof.
  unfold IMP. cbn [fst].
  eapply grows_trans; [|apply grows_emit; reflexivity]. by apply grows_same.
Qed.

Lemma imp_any_fails_quiet env :
  forall cs w, grows not_send_failure w (imp_any_fails env cs w).1.
Proof.
  induction cs as [|c cs IH]; intros w; [apply grows_refl|].
  cbn [imp_any_fails].
  pose proof (IMP_quiet env c w) as X. destruct (IMP env c w) as [w1 rc]. cbn [fst] in X.
  case_decide; [exact X|]. eapply grows_trans; [exact X|apply IH].
Qed.

Lemma audioThread_iter_quiet fuel env p res w w' c res' :
  p <> NULL ->
  audioThread_iter fuel env p res w = Done (w', c, res') -> grows not_send_failure w w'.
Proof.
  unfold audioThread_iter, IMP_GetFrame. intros Hp H.
  pose proof (IMP_quiet env IMP_AI_PollingFrame w) as X1.
  destruct (IMP env IMP_AI_PollingFrame w) as [w1 rc1]. cbn [fst] in X1.
  eapply grows_trans; [exact X1|]. clear X1.
  case_decide.
  { injection H as <- <- <-. by apply grows_emit. }
  pose proof (IMP_quiet env IMP_AI_GetFrame w1) as X2.
  destruct (IMP env IMP_AI_GetFrame w1) as [w2 rc2]. cbn [fst] in X2.
  eapply grows_trans; [exact X2|]. clear X2.
  case_decide.
  { injection H as <- <- <-. by apply grows_emit. }
  inv_bind H. destruct x as [w3 r].
  destruct (sendAudioFrame_quiet _ _ _ _ _ _ _ Hp E) as [-> X3].
  eapply grows_trans; [exact X3|]. clear X3.
  rewrite decide_False in H by (intros X; by apply X).
  pose proof (IMP_quiet env IMP_AI_ReleaseFrame w3) as X5.
  destruct (IMP env IMP_AI_ReleaseFrame w3) as [w5 rc5]. cbn [fst] in X5.
  eapply grows_trans; [exact X5|]. clear X5.
  case_decide.
  { injection H as <- <- <-. by apply grows_emit. }
  inv_bind H. destruct (isTerminating x); injection H as <- <- <-; apply grows_refl.
Qed.

Lemma audioThread_while_quiet fuel env p :
  p <> NULL ->
  forall n res w w' res',
    audioThread_while n fuel env p res w = Done (w', res') -> grows not_send_failure w w'.
Proof.
  intros Hp. induction n as [|n IH]; intros res w w' res' H; [discriminate|].
  cbn [audioThread_while] in H. inv_bind H. destruct x as [[w1 c] r1].
  eapply grows_trans; [eapply audioThread_iter_quiet; [exact Hp|exact E]|].
  destruct c; [eapply IH; exact H|].
  injection H as <- <-. apply grows_refl.
Qed.

(** X11.  The branch of line 248 is dead: because the worker enters its
    loop only with a handle that is not NULL and always passes the address
    of its own frame, [sendAudioFrame] never reports an error to it, and
    "Failed to send Audio frame" is never logged, whatever the encoder,
    the allocator and the sink do. *)
Theorem X11_worker_never_logs_send_failure fuel env arg w w' res :
  audioThread fuel env arg w = Done (w', res) ->
  exists tr,
    trace w' = trace w ++ tr /\
    ~ In (EvLogError "Failed to send Audio frame") tr.
Proof.
  intros H.
  assert (grows not_send_failure w w') as (tr & Ht & Hf).
  { unfold audioThread in H.
    apply bind_Done in H as ([w1 sk] & Eb & H).
    apply bind_Done in H as ([w2 r2] & Em & H).
    unfold audioThread_exit in H.
    apply bind_Done in H as (a2 & El & H). apply bind_Done in H as (w5 & Es & H).
    injection H as <- <-.
    eapply grows_trans; [|apply grows_emit; reflexivity].
    eapply grows_trans; [|eapply store_audio_grows; exact Es].
    unfold audioThread_begin in Eb. case_decide as Hp.
    { injection Eb as <- <-. injection Em as <- <-. by apply grows_emit. }
    apply bind_Done in Eb as (a0 & El0 & Eb).
    match type of Eb with context [imp_any_fails env ?cs w] =>
      pose proof (imp_any_fails_quiet env cs w) as X1;
      destruct (imp_any_fails env cs w) as [w0 failed] end.
    cbn [fst] in X1. eapply grows_trans; [exact X1|]. clear X1.
    destruct failed; injection Eb as <- <-.
    { injection Em as <- <-. by apply grows_emit. }
    apply bind_Done in Em as ([w3 r3] & Ew & E0).
    eapply grows_trans; [eapply audioThread_while_quiet; [exact Hp|exact Ew]|].
    unfold audioThread_teardown in E0.
    match type of E0 with context [imp_any_fails env ?cs w3] =>
      pose proof (imp_any_fails_quiet env cs w3) as X2;
      destruct (imp_any_fails env cs w3) as [w4 failed] end.
    cbn [fst] in X2. eapply grows_trans; [exact X2|].
    destruct failed; injection E0 as <- <-; [by apply grows_emit|apply grows_refl]. }
  exists tr. split; [exact Ht|]. intros Hin.
  rewrite forallb_forall in Hf. specialize (Hf _ Hin). discriminate.
Qed.

Lemma X11_witness :
  exists tr,
    trace (demo_world_exited 64) = trace (demo_world_terminating 64) ++ tr /\
    ~ In (EvLogError "Failed to send Audio frame") tr.
Proof.
  exact (X11_worker_never_logs_send_failure 101 (demo_env 64) demo_handle
           (demo_world_terminating 64) (demo_world_exited 64) 0 demo_world_exited_eq).
Defined.

(** ** The worker on a responsive device *)

Lemma seed_acc_inv env w0 w p a buf :
  audio_ok w p a buf -> acc_inv (uPcmBufSize a) (acc_of (seed env w0 a) buf).
Proof.
  intros H. pose proof (audio_ok_acc_inv _ _ _ _ H) as (H1 & H2 & H3).
  unfold seed. case_decide; [|done]. unfold acc_inv in *. cbn in *.
  split; [done|]. split; [done|]. apply to_u64_range.
Qed.

(** one pass: the frame is fetched, absorbed and released; the pass leaves
    the loop exactly when termination was requested *)
Lemma audioThread_iter_responsive fuel env p res w a buf :
  responsive fuel env -> audio_ok w p a buf ->
  exists w' a' buf' tr,
    audioThread_iter fuel env p res w
      = Done (w', if isTerminating a then Break else Continue, res) /\
    audio_ok w' p a' buf' /\
    isTerminating a' = isTerminating a /\ isTerminated a' = isTerminated a /\
    tid a' = tid a /\
    threads w' = threads w /\ n_imp w' = (n_imp w + 3)%nat /\
    trace w' = trace w ++ tr /\ forallb loop_event tr = true /\
    concat (encoded_blocks tr) ++ take (Z.to_nat (uPcmOffset a')) buf'
      = take (Z.to_nat (uPcmOffset a)) buf ++ frame_bytes (imp_frame env (S (n_imp w))).
Proof.
  intros [Himp Hfrm] Hok.
  unfold audioThread_iter, IMP_GetFrame, IMP.
  rewrite Himp. rewrite decide_False by (intros X; by apply X).
  cbn [n_imp emit tick_imp]. rewrite Himp. rewrite decide_False by (intros X; by apply X).
  set (frm := imp_frame env (S (n_imp w))).
  set (w2 := emit (EvImp IMP_AI_GetFrame 0)
               (tick_imp (emit (EvImp IMP_AI_PollingFrame 0) (tick_imp w)))).
  assert (audio_ok w2 p a buf) as Hok2 by (eapply audio_ok_same; [| |exact Hok]; reflexivity).
  destruct (Hfrm (S (n_imp w))) as [Hf Hl]. fold frm in Hf, Hl.
  destruct (sendAudioFrame_refines env p frm fuel w2 a buf Hf Hok2 Hl)
    as (w3 & tr3 & Hs & Hr).
  cbn zeta in Hr. destruct Hr as (Hok3 & Ht3 & Hb3 & _ & _ & Hth3 & _).
  destruct (sendAudioFrame_extends _ _ _ _ _ _ _ Hs) as (t3' & Ht3' & Hf3 & Hn3 & _).
  assert (t3' = tr3) as -> by (rewrite Ht3 in Ht3'; by apply app_inv_head in Ht3').
  rewrite Hs. cbn [bind]. rewrite decide_False by (intros X; by apply X).
  rewrite Himp. rewrite decide_False by (intros X; by apply X).
  set (r := absorb _ _ _ _ _) in *.
  set (w4 := emit (EvImp IMP_AI_ReleaseFrame 0) (tick_imp w3)).
  assert (audio_ok w4 p (with_acc r.2 a) (acc_buf r.2)) as Hok4
    by (eapply audio_ok_same; [| |exact Hok3]; reflexivity).
  rewrite (load_audio_ok _ _ _ _ Hok4). cbn [bind].
  replace (isTerminating (with_acc r.2 a)) with (isTerminating a) by reflexivity.
  exists w4, (with_acc r.2 a), (acc_buf r.2),
    ([EvImp IMP_AI_PollingFrame 0; EvImp IMP_AI_GetFrame 0] ++ tr3
     ++ [EvImp IMP_AI_ReleaseFrame 0]).
  split; [by destruct (isTerminating a)|]. split; [exact Hok4|].
  split; [reflexivity|]. split; [reflexivity|]. split; [reflexivity|].
  split; [subst w4; cbn [threads emit tick_imp]; rewrite Hth3; reflexivity|].
  split; [subst w4; cbn [n_imp emit tick_imp]; rewrite Hn3; subst w2; cbn; lia|].
  split.
  { subst w4. cbn [trace emit tick_imp]. rewrite Ht3. subst w2.
    cbn [trace emit tick_imp]. by rewrite <- !app_assoc. }
  split.
  { rewrite !forallb_app.
    rewrite (forallb_weaken accum_event loop_event tr3) by (exact Hf3 || by intros []).
    reflexivity. }
  unfold encoded_blocks. rewrite !blocks_of_app, Hb3.
  change (blocks_of [EvImp IMP_AI_PollingFrame 0; EvImp IMP_AI_GetFrame 0])
    with (@nil (list byte * Z)).
  change (blocks_of [EvImp IMP_AI_ReleaseFrame 0]) with (@nil (list byte * Z)).
  rewrite app_nil_l, app_nil_r.
  pose proof (length_frame_bytes _ Hf) as Hlen.
  destruct (absorb_spec (uPcmBufSize a) (blockDurationMs a) (length (frame_bytes frm))
              (frame_bytes frm) (acc_of (seed env w2 a) buf)
              (seed_acc_inv env w2 _ _ _ _ Hok) ltac:(lia)) as (_ & Hcat & _).
  fold r in Hcat. cbn [uPcmOffset with_acc set_uPcmTimestamp set_uPcmOffset].
  rewrite Hcat. f_equal. unfold seed. by case_decide.
Qed.

Lemma delivered_S env k n :
  delivered env k (S n) = imp_frame env (S k) :: delivered env (k + 3) n.
Proof.
  unfold delivered. cbn [seq map]. f_equal; [f_equal; lia|].
  rewrite <- seq_shift, map_map. apply map_ext. intros j. f_equal. lia.
Qed.

Lemma run_sched_responsive fuel env p i r :
  responsive fuel env ->
  forall n w a buf,
    audio_ok w p a buf -> isTerminating a = false ->
    threads w !! i = Some (mkThread p (WPolling r)) ->
    exists w' a' buf' tr,
      run_sched fuel env (replicate n i) w = Done w' /\
      audio_ok w' p a' buf' /\ isTerminating a' = false /\
      threads w' !! i = Some (mkThread p (WPolling r)) /\
      n_imp w' = (n_imp w + 3 * n)%nat /\
      trace w' = trace w ++ tr /\
      concat (encoded_blocks tr) ++ take (Z.to_nat (uPcmOffset a')) buf'
        = take (Z.to_nat (uPcmOffset a)) buf
          ++ concat (map frame_bytes (delivered env (n_imp w) n)).
Proof.
  intros Hresp. induction n as [|n IH]; intros w a buf Hok Hrun Hth.
  - exists w, a, buf, []. cbn. rewrite !app_nil_r. split; [done|]. split; [done|].
    split; [done|]. split; [done|]. split; [lia|]. done.
  - cbn [replicate run_sched]. unfold step_thread_at. rewrite Hth. unfold thread_step.
    cbn [th_state th_arg].
    destruct (audioThread_iter_responsive fuel env p r w a buf Hresp Hok)
      as (w1 & a1 & buf1 & tr1 & Hit & Hok1 & Hrun1 & _ & _ & Hth1 & Hn1 & Ht1 & _ & Hc1).
    rewrite Hrun in Hit, Hrun1. rewrite Hit. cbn [bind].
    set (w2 := set_threads _ w1).
    assert (audio_ok w2 p a1 buf1) as Hok2
      by (eapply audio_ok_same; [| |exact Hok1]; reflexivity).
    assert (threads w2 !! i = Some (mkThread p (WPolling r))) as Hth2.
    { subst w2. cbn [threads set_threads]. rewrite Hth1.
      apply list_lookup_insert_eq. by eapply lookup_lt_Some. }
    destruct (IH w2 a1 buf1 Hok2 Hrun1 Hth2)
      as (w' & a' & buf' & tr & Hr & Hok' & Hrun' & Hth' & Hn' & Ht' & Hc').
    exists w', a', buf', (tr1 ++ tr). split; [exact Hr|]. split; [exact Hok'|].
    split; [exact Hrun'|]. split; [exact Hth'|].
    split; [rewrite Hn'; subst w2; cbn [n_imp set_threads]; rewrite Hn1; lia|].
    split; [rewrite Ht'; subst w2; cbn [trace set_threads]; rewrite Ht1, app_assoc; done|].
    unfold encoded_blocks in *. rewrite blocks_of_app, fmap_app, concat_app, <- app_assoc.
    rewrite Hc'. rewrite app_assoc, Hc1, <- app_assoc. f_equal.
    rewrite delivered_S. cbn [map concat]. f_equal. f_equal. f_equal.
    subst w2. cbn [n_imp set_threads]. rewrite Hn1. done.
Qed.

(** X12.  The worker and the accumulator, end to end.  On a device that
    answers every call, and as long as termination is not requested, [n]
    steps of the worker are [n] passes through its loop: the worker stays
    in the loop, and the blocks passed to the encoder, followed by the
    bytes left in the PCM buffer, are the bytes that were waiting in the
    buffer followed by those of the [n] frames the device delivered, in
    order. *)
Theorem X12_worker_feeds_encoder_the_device_bytes fuel env p i r n w a buf :
  responsive fuel env ->
  audio_ok w p a buf -> isTerminating a = false ->
  threads w !! i = Some (mkThread p (WPolling r)) ->
  exists w' a' buf' tr,
    run_sched fuel env (replicate n i) w = Done w' /\
    audio_ok w' p a' buf' /\ isTerminating a' = false /\
    threads w' !! i = Some (mkThread p (WPolling r)) /\
    trace w' = trace w ++ tr /\
    concat (encoded_blocks tr) ++ take (Z.to_nat (uPcmOffset a')) buf'
      = take (Z.to_nat (uPcmOffset a)) buf
        ++ concat (map frame_bytes (delivered env (n_imp w) n)).
Proof.
  intros Hresp Hok Hrun Hth.
  destruct (run_sched_responsive fuel env p i r Hresp n w a buf Hok Hrun Hth)
    as (w' & a' & buf' & tr & H1 & H2 & H3 & H4 & _ & H5 & H6).
  exists w', a', buf', tr. done.
Qed.

Lemma demo_env_responsive cap : responsive 101 (demo_env cap).
Proof.
  split; [done|]. intros k. split; [|reflexivity]. repeat split; vm_compute; discriminate.
Qed.

Lemma demo_polling_ok :
  audio_ok (demo_world_polling 1280) demo_handle (demo_audio 1280) (zeros 1280).
Proof.
  eapply audio_ok_same; [| |exact demo_audio_ok]; vm_compute; reflexivity.
Qed.

Lemma X12_witness :
  exists w' a' buf' tr,
    run_sched 101 (demo_env 1280) (replicate 3 0%nat) (demo_world_polling 1280) = Done w' /\
    audio_ok w' demo_handle a' buf' /\ isTerminating a' = false /\
    threads w' !! 0%nat = Some (mkThread demo_handle (WPolling 0)) /\
    trace w' = trace (demo_world_polling 1280) ++ tr /\
    concat (encoded_blocks tr) ++ take (Z.to_nat (uPcmOffset a')) buf'
      = take (Z.to_nat (uPcmOffset (demo_audio 1280))) (zeros 1280)
        ++ concat (map frame_bytes
                     (delivered (demo_env 1280) (n_imp (demo_world_polling 1280)) 3)).
Proof.
  apply (X12_worker_feeds_encoder_the_device_bytes 101 (demo_env 1280) demo_handle
           0%nat 0 3 (demo_world_polling 1280) (demo_audio 1280) (zeros 1280)).
  - apply demo_env_responsive.
  - exact demo_polling_ok.
  - reflexivity.
  - vm_compute. reflexivity.
Defined.

(** ** [T31Audio_terminate] on a responsive device *)

Lemma sleeps_app t1 t2 : sleeps (t1 ++ t2) = (sleeps t1 + sleeps t2)%nat.
Proof. unfold sleeps. by rewrite omap_app, length_app. Qed.

Lemma sleeps_worker tr : forallb worker_event tr = true -> sleeps tr = 0%nat.
Proof.
  induction tr as [|e tr IH]; [done|]. cbn [forallb]. intros [He Htr]%andb_prop.
  destruct e; try discriminate; apply (IH Htr).
Qed.

Lemma imp_any_fails_responsive env cs :
  (forall k c, imp_ret env k c = 0) ->
  forall w,
    imp_any_fails env cs w
      = (mkWorld (heap w) (brk w) (trace w ++ map (fun c => EvImp c 0) cs)
           (n_clock w) (n_enc w) (n_malloc w) (n_imp w + length cs) (n_ext w)
           (threads w), false).
Proof.
  intros H. induction cs as [|c cs IH]; intros w.
  - cbn. rewrite app_nil_r, Nat.add_0_r. by destruct w.
  - cbn [imp_any_fails]. unfold IMP. rewrite H.
    rewrite decide_False by (intros X; by apply X). rewrite IH.
    cbn [heap brk trace n_clock n_enc n_malloc n_imp n_ext threads emit tick_imp
         map length].
    rewrite <- app_assoc. do 2 f_equal. lia.
Qed.

(** the first step of a worker: the device is set up, the loop is entered *)
Lemma thread_step_ready fuel env p w a buf :
  responsive fuel env -> audio_ok w p a buf ->
  exists w',
    thread_step fuel env (mkThread p WReady) w
      = Done (w', mkThread p (WPolling ERRNO_NONE)) /\
    audio_ok w' p a buf /\ threads w' = threads w.
Proof.
  intros [Himp _] Hok. unfold thread_step, audioThread_begin. cbn [th_state th_arg].
  rewrite decide_False by (eapply audio_ok_nonnull; exact Hok).
  rewrite (load_audio_ok _ _ _ _ Hok). cbn [bind].
  rewrite (imp_any_fails_responsive env _ Himp). cbn [bind].
  eexists. split; [reflexivity|]. split; [|reflexivity].
  eapply audio_ok_same; [| |exact Hok]; reflexivity.
Qed.

(** a step of a worker inside its loop once termination was requested: one
    more frame is processed, the device is shut down, the flag is set *)
Lemma thread_step_leaves fuel env p r w a buf :
  responsive fuel env -> audio_ok w p a buf -> isTerminating a = true ->
  exists w' a' tr,
    thread_step fuel env (mkThread p (WPolling r)) w
      = Done (w', mkThread p (WExited r)) /\
    heap w' !! p = Some (OAudio a') /\ isTerminated a' = true /\ tid a' = tid a /\
    threads w' = threads w /\
    trace w' = trace w ++ tr ++
      [EvImp IMP_AI_DisableChn 0; EvImp IMP_AI_Disable 0; EvSetTerminated p] /\
    forallb loop_event tr = true.
Proof.
  intros Hresp Hok Hreq. unfold thread_step. cbn [th_state th_arg].
  destruct (audioThread_iter_responsive fuel env p r w a buf Hresp Hok)
    as (w1 & a1 & buf1 & tr1 & Hit & Hok1 & _ & _ & Htid & Hth1 & _ & Ht1 & Hf1 & _).
  rewrite Hreq in Hit. rewrite Hit. cbn [bind].
  unfold audioThread_teardown. rewrite (imp_any_fails_responsive env _ (proj1 Hresp)).
  set (w2 := mkWorld _ _ _ _ _ _ _ _ _).
  assert (audio_ok w2 p a1 buf1) as Hok2
    by (eapply audio_ok_same; [| |exact Hok1]; reflexivity).
  unfold audioThread_exit. rewrite (load_audio_ok _ _ _ _ Hok2). cbn [bind].
  unfold store_audio. rewrite (ok_audio _ _ _ _ Hok2). cbn [bind].
  eexists _, (set_isTerminated true a1), tr1. split; [reflexivity|].
  cbn [heap set_heap emit]. rewrite lookup_insert_eq. split; [reflexivity|].
  split; [reflexivity|]. split; [exact Htid|].
  split; [subst w2; cbn; exact Hth1|].
  split; [|exact Hf1]. subst w2. cbn [trace set_heap emit map].
  rewrite Ht1, <- !app_assoc. reflexivity.
Qed.

Lemma sleeps_loop tr : forallb loop_event tr = true -> sleeps tr = 0%nat.
Proof.
  intros H. apply sleeps_worker. eapply forallb_weaken; [apply loop_worker_event|exact H].
Qed.

Lemma terminate_wait_S n fuel env p w :
  terminate_wait (S n) fuel env p w
  = do a <- load_audio w p;
    if isTerminated a then Done w
    else do w <- sleepInMs fuel env 10 w; terminate_wait n fuel env p w.
Proof. reflexivity. Qed.

(** the wait of lines 439-442 when the worker is inside its loop: it ends
    after one sleep *)
Lemma terminate_wait_polling fuel env p i r n w a buf :
  responsive fuel env -> (forall k, sched env k = [i]) ->
  audio_ok w p a buf -> isTerminating a = true -> isTerminated a = false ->
  threads w !! i = Some (mkThread p (WPolling r)) ->
  exists w' a' tr,
    terminate_wait (S (S n)) fuel env p w = Done w' /\
    heap w' !! p = Some (OAudio a') /\ tid a' = tid a /\
    threads w' !! i = Some (mkThread p (WExited r)) /\
    trace w' = trace w ++ tr /\ sleeps tr = 1%nat /\
    In (EvImp IMP_AI_Disable 0) tr /\ frees tr = [].
Proof.
  intros Hresp Hs Hok Hreq Hrun Hth.
  cbn [terminate_wait]. rewrite (load_audio_ok _ _ _ _ Hok). cbn [bind]. rewrite Hrun.
  unfold sleepInMs. rewrite Hs. cbn [run_sched]. unfold step_thread_at.
  cbn [threads emit tick_ext]. rewrite Hth.
  set (w1 := emit _ (tick_ext w)).
  assert (audio_ok w1 p a buf) as Hok1
    by (eapply audio_ok_same; [| |exact Hok]; reflexivity).
  destruct (thread_step_leaves fuel env p r w1 a buf Hresp Hok1 Hreq)
    as (w2 & a2 & tr & Hst & Hh2 & Hd2 & Htid & Hth2 & Ht2 & Hf2).
  rewrite Hst. cbn [bind]. unfold load_audio. cbn [heap set_threads].
  rewrite Hh2. cbn [bind]. rewrite Hd2.
  eexists _, a2, _. split; [reflexivity|]. cbn [heap set_threads threads trace].
  split; [exact Hh2|]. split; [exact Htid|].
  split.
  { rewrite Hth2. subst w1. cbn [threads emit tick_ext].
    apply list_lookup_insert_eq. by eapply lookup_lt_Some. }
  rewrite Ht2. subst w1. cbn [trace emit tick_ext]. rewrite <- !app_assoc.
  split; [reflexivity|].
  split; [rewrite !sleeps_app, (sleeps_loop _ Hf2); reflexivity|].
  split; [rewrite !in_app_iff; right; right; cbn; tauto|].
  rewrite !frees_app.
  rewrite (frees_wait tr)
    by (eapply forallb_weaken; [|exact Hf2]; intros e He;
        apply worker_wait_event, loop_worker_event, He).
  reflexivity.
Qed.

(** ... and when the worker has not yet entered its loop: after two *)
Lemma terminate_wait_ready fuel env p i n w a buf :
  responsive fuel env -> (forall k, sched env k = [i]) ->
  audio_ok w p a buf -> isTerminating a = true -> isTerminated a = false ->
  threads w !! i = Some (mkThread p WReady) ->
  exists w' a' tr r,
    terminate_wait (S (S (S n))) fuel env p w = Done w' /\
    heap w' !! p = Some (OAudio a') /\ tid a' = tid a /\
    threads w' !! i = Some (mkThread p (WExited r)) /\
    trace w' = trace w ++ tr /\ sleeps tr = 2%nat /\
    In (EvImp IMP_AI_Disable 0) tr /\ frees tr = [].
Proof.
  intros Hresp Hs Hok Hreq Hrun Hth.
  rewrite terminate_wait_S. rewrite (load_audio_ok _ _ _ _ Hok). cbn [bind]. rewrite Hrun.
  unfold sleepInMs at 1. rewrite Hs. cbn [run_sched]. unfold step_thread_at at 1.
  cbn [threads emit tick_ext]. rewrite Hth.
  set (w1 := emit _ (tick_ext w)).
  assert (audio_ok w1 p a buf) as Hok1
    by (eapply audio_ok_same; [| |exact Hok]; reflexivity).
  destruct (thread_step_ready fuel env p w1 a buf Hresp Hok1) as (w2 & Hst & Hok2 & Hth2).
  rewrite Hst. cbn [bind].
  set (w3 := set_threads _ w2).
  assert (audio_ok w3 p a buf) as Hok3
    by (eapply audio_ok_same; [| |exact Hok2]; reflexivity).
  assert (threads w3 !! i = Some (mkThread p (WPolling ERRNO_NONE))) as Hth3.
  { subst w3. cbn [threads set_threads]. rewrite Hth2. subst w1.
    cbn [threads emit tick_ext]. apply list_lookup_insert_eq.
    exact (lookup_lt_Some _ _ _ Hth). }
  destruct (terminate_wait_polling fuel env p i ERRNO_NONE n w3 a buf
              Hresp Hs Hok3 Hreq Hrun Hth3)
    as (w' & a' & tr & Hw & Hh & Htid & Hth' & Ht & Hsl & Hin & Hfr).
  rewrite Hw.
  assert (grows worker_event w1 w2) as (t1 & Ht1 & Hf1)
    by (eapply thread_step_grows; exact Hst).
  exists w', a', ([EvSleep (to_size (10 * 1000))] ++ t1 ++ tr), ERRNO_NONE.
  split; [reflexivity|]. split; [exact Hh|]. split; [exact Htid|].
  split; [exact Hth'|].
  split.
  { rewrite Ht. subst w3. cbn [trace set_threads]. rewrite Ht1. subst w1.
    cbn [trace emit tick_ext]. by rewrite <- !app_assoc. }
  split; [rewrite !sleeps_app, (sleeps_worker _ Hf1), Hsl; reflexivity|].
  split; [rewrite !in_app_iff; right; right; exact Hin|].
  rewrite !frees_app, Hfr.
  rewrite (frees_wait t1)
    by (eapply forallb_weaken; [apply worker_wait_event|exact Hf1]).
  reflexivity.
Qed.

(** the whole of a termination on a responsive device *)
Lemma terminate_responsive fuel env p i st w a buf :
  responsive fuel env -> (3 <= fuel)%nat ->
  (forall k, sched env k = [i]) ->
  audio_ok w p a buf -> isTerminated a = false ->
  threads w !! i = Some (mkThread p st) ->
  st = WReady \/ (exists r, st = WPolling r) ->
  tid a = Z.of_nat i + 1 ->
  exists w' tr r,
    T31Audio_terminate fuel env p w = Done w' /\
    heap w' !! p = None /\
    threads w' !! i = Some (mkThread p (WExited r)) /\
    trace w' = trace w ++ tr /\
    (sleeps tr <= 2)%nat /\ In (EvImp IMP_AI_Disable 0) tr /\ frees tr = [p].
Proof.
  intros Hresp Hfuel Hs Hok Hrun Hth Hst Htid.
  destruct fuel as [|[|[|m]]]; try lia.
  pose proof (audio_ok_nonnull _ _ _ _ Hok) as Hp.
  unfold T31Audio_terminate. rewrite decide_True by exact Hp.
  rewrite (load_audio_ok _ _ _ _ Hok). cbn [bind].
  destruct (store_audio_ok _ _ _ _ (set_isTerminating true a) Hok)
    as [Hsa Hok1]; try reflexivity;
    [apply (ok_offset _ _ _ _ Hok)|apply (ok_ts _ _ _ _ Hok)|].
  cbn zeta in Hsa, Hok1. rewrite Hsa. cbn [bind].
  set (w1 := emit (EvSetTerminating p) _).
  assert (audio_ok w1 p (set_isTerminating true a) buf) as Hok2
    by (eapply audio_ok_same; [| |exact Hok1]; reflexivity).
  assert (threads w1 !! i = Some (mkThread p st)) as Hth1 by exact Hth.
  assert (exists w2 a2 tr r,
            terminate_wait (S (S (S m))) (S (S (S m))) env p w1 = Done w2 /\
            heap w2 !! p = Some (OAudio a2) /\ tid a2 = tid a /\
            threads w2 !! i = Some (mkThread p (WExited r)) /\
            trace w2 = trace w1 ++ tr /\ (sleeps tr <= 2)%nat /\
            In (EvImp IMP_AI_Disable 0) tr /\ frees tr = [])
    as (w2 & a2 & tr & r & Hw & Hh2 & Htid2 & Hth2 & Ht2 & Hsl & Hin & Hfr).
  { destruct Hst as [->|[r ->]].
    - destruct (terminate_wait_ready (S (S (S m))) env p i m w1 _ buf
                  Hresp Hs Hok2 eq_refl Hrun Hth1)
        as (w2 & a2 & tr & r & H1 & H2 & H3 & H4 & H5 & H6 & H7 & H8).
      exists w2, a2, tr, r. rewrite H6. repeat split; try assumption. lia.
    - destruct (terminate_wait_polling (S (S (S m))) env p i r (S m) w1 _ buf
                  Hresp Hs Hok2 eq_refl Hrun Hth1)
        as (w2 & a2 & tr & H1 & H2 & H3 & H4 & H5 & H6 & H7 & H8).
      exists w2, a2, tr, r. rewrite H6. repeat split; try assumption. lia. }
  exists (emit (EvFree p)
            (set_heap (delete p (heap w2)) (emit (EvThreadJoin (Z.of_nat i + 1)) w2))),
    (EvSetTerminating p :: tr ++ [EvThreadJoin (Z.of_nat i + 1); EvFree p]), r.
  split.
  { rewrite Hw. cbn [bind]. unfold load_audio. rewrite Hh2. cbn [bind].
    rewrite Htid2, Htid. cbn [pthread_join].
    rewrite decide_True by lia.
    replace (Z.to_nat (Z.of_nat i + 1 - 1)) with i by lia.
    rewrite Hth2. cbn [th_state bind].
    unfold KVS_FREE. rewrite decide_False by exact Hp.
    cbn [heap emit]. rewrite Hh2. reflexivity. }
  cbn [heap threads trace emit set_heap].
  split; [apply lookup_delete_eq|]. split; [exact Hth2|].
  split.
  { rewrite Ht2. subst w1. cbn [trace emit set_heap]. by rewrite <- !app_assoc. }
  split.
  { change (EvSetTerminating p :: tr ++ _)
      with ([EvSetTerminating p] ++ tr ++ [EvThreadJoin (Z.of_nat i + 1); EvFree p]).
    rewrite !sleeps_app. cbn. lia. }
  split; [right; rewrite in_app_iff; by left|].
  change (EvSetTerminating p :: tr ++ _)
    with ([EvSetTerminating p] ++ tr ++ [EvThreadJoin (Z.of_nat i + 1); EvFree p]).
  rewrite !frees_app, Hfr. reflexivity.
Qed.

(** X13.  [T31Audio_terminate] returns when the device is responsive.  On
    a live handle whose worker is scheduled whenever the caller sleeps, with
    a device that answers every call, the call returns after two sleeps at
    most: the worker sees the request after its next frame, shuts the
    device down and sets [isTerminated]; the caller joins it and releases
    the handle, and nothing else. *)
Theorem X13_terminate_returns_on_responsive_device fuel env p i st w a buf :
  responsive fuel env -> (3 <= fuel)%nat ->
  (forall k, sched env k = [i]) ->
  audio_ok w p a buf -> isTerminated a = false ->
  threads w !! i = Some (mkThread p st) ->
  st = WReady \/ (exists r, st = WPolling r) ->
  tid a = Z.of_nat i + 1 ->
  exists w' tr r,
    T31Audio_terminate fuel env p w = Done w' /\
    heap w' !! p = None /\
    threads w' !! i = Some (mkThread p (WExited r)) /\
    trace w' = trace w ++ tr /\
    (sleeps tr <= 2)%nat /\ In (EvImp IMP_AI_Disable 0) tr /\ frees tr = [p].
Proof. apply terminate_responsive. Qed.

Lemma X13_witness :
  exists w' tr r,
    T31Audio_terminate 101 (demo_env 1280) demo_handle (demo_world 1280) = Done w' /\
    heap w' !! demo_handle = None /\
    threads w' !! 0%nat = Some (mkThread demo_handle (WExited r)) /\
    trace w' = trace (demo_world 1280) ++ tr /\
    (sleeps tr <= 2)%nat /\ In (EvImp IMP_AI_Disable 0) tr /\ frees tr = [demo_handle].
Proof.
  apply (X13_terminate_returns_on_responsive_device 101 (demo_env 1280) demo_handle
           0%nat WReady (demo_world 1280) (demo_audio 1280) (zeros 1280)).
  - apply demo_env_responsive.
  - lia.
  - reflexivity.
  - exact demo_audio_ok.
  - reflexivity.
  - vm_compute. reflexivity.
  - by left.
  - reflexivity.
Defined.

(** X14.  After [T31Audio_terminate] has returned, the handle is dead: a
    second [T31Audio_terminate], the clone accessor and [sendAudioFrame]
    all read the released structure. *)
Theorem X14_handle_is_dead_after_terminate fuel env p w w' :
  p <> NULL -> T31Audio_terminate fuel env p w = Done w' ->
  forall fuel' env',
    T31Audio_terminate fuel' env' p w' = Fault /\
    T31Audio_getAudioTrackInfoClone env' p w' = Fault /\
    (forall frm, sendAudioFrame fuel' env' w' p (Some frm) = Fault).
Proof.
  intros Hp H fuel' env'.
  destruct (T31Audio_terminate_frees _ _ _ _ _ Hp H) as (_ & _ & _ & _ & Hdead).
  assert (load_audio w' p = Fault) as Hl by (unfold load_audio; by rewrite Hdead).
  split; [|split].
  - unfold T31Audio_terminate. rewrite decide_True by exact Hp. by rewrite Hl.
  - unfold T31Audio_getAudioTrackInfoClone. rewrite decide_False by exact Hp.
    by rewrite Hl.
  - intros frm. unfold sendAudioFrame. rewrite decide_False by exact Hp. by rewrite Hl.
Qed.

Lemma X14_witness :
  T31Audio_terminate 1 (demo_env 64) demo_handle (demo_world_terminated 64) = Fault /\
  T31Audio_getAudioTrackInfoClone (demo_env 64) demo_handle (demo_world_terminated 64)
    = Fault /\
  sendAudioFrame 1 (demo_env 64) (demo_world_terminated 64) demo_handle
    (Some (mkFrame [] 0)) = Fault.
Proof.
  destruct (X14_handle_is_dead_after_terminate 4 (demo_env 64) demo_handle (demo_world 64)
              (demo_world_terminated 64) ltac:(discriminate) demo_world_terminated_eq
              1%nat (demo_env 64)) as (H1 & H2 & H3).
  split; [exact H1|]. split; [exact H2|]. exact (H3 (mkFrame [] 0)).
Defined.

(** X15.  When the worker has already returned, for instance after a
    device failure, [T31Audio_terminate] does not wait: it stores the
    request, joins the worker and releases the handle without sleeping. *)
Theorem X15_terminate_after_worker_exit n env p w a q r :
  p <> NULL -> load_audio w p = Done a -> isTerminated a = true ->
  1 <= tid a ->
  threads w !! Z.to_nat (tid a - 1) = Some (mkThread q (WExited r)) ->
  exists w',
    T31Audio_terminate (S n) env p w = Done w' /\
    trace w' = trace w ++ [EvSetTerminating p; EvThreadJoin (tid a); EvFree p] /\
    heap w' = delete p (heap w) /\ threads w' = threads w.
Proof.
  intros Hp Ha Hd Ht Hth. unfold T31Audio_terminate.
  rewrite decide_True by exact Hp. rewrite Ha. cbn [bind].
  apply load_audio_inv in Ha. unfold store_audio. rewrite Ha. cbn [bind].
  cbn [terminate_wait]. unfold load_audio at 1. cbn [heap emit set_heap].
  rewrite lookup_insert_eq. cbn [bind isTerminated set_isTerminating]. rewrite Hd.
  cbn [bind]. unfold load_audio. cbn [heap emit set_heap].
  rewrite lookup_insert_eq. cbn [bind pthread_join tid set_isTerminating].
  rewrite decide_True by exact Ht. cbn [threads emit set_heap]. rewrite Hth.
  cbn [th_state bind]. unfold KVS_FREE. rewrite decide_False by exact Hp.
  cbn [heap emit set_heap]. rewrite lookup_insert_eq.
  eexists. split; [reflexivity|]. cbn [trace heap threads emit set_heap].
  rewrite <- !app_assoc. split; [reflexivity|]. split; [|reflexivity].
  by rewrite delete_insert_eq.
Qed.

Lemma X15_witness :
  exists w',
    T31Audio_terminate 1 (nogain_env 64) demo_handle demo_world_failed = Done w' /\
    trace w' = trace demo_world_failed
               ++ [EvSetTerminating demo_handle; EvThreadJoin 1; EvFree demo_handle] /\
    heap w' = delete demo_handle (heap demo_world_failed) /\
    threads w' = threads demo_world_failed.
Proof.
  refine (X15_terminate_after_worker_exit 0 (nogain_env 64) demo_handle demo_world_failed
            (set_isTerminated true (demo_audio 64)) demo_handle 226 _ _ _ _ _).
  - discriminate.
  - vm_compute. reflexivity.
  - reflexivity.
  - vm_compute. discriminate.
  - vm_compute. reflexivity.
Defined.

(** ** Who owns the output copies *)

Lemma neutral_refl f w : neutral_for f w w.
Proof. exists []. by rewrite app_nil_r. Qed.

Lemma neutral_trans f w1 w2 w3 :
  neutral_for f w1 w2 -> neutral_for f w2 w3 -> neutral_for f w1 w3.
Proof.
  intros (t1 & H1 & F1) (t2 & H2 & F2). exists (t1 ++ t2).
  rewrite H2, H1, app_assoc. split; [done|]. intros rest.
  by rewrite <- app_assoc, F1, F2.
Qed.

Lemma neutral_same f w w' : trace w' = trace w -> neutral_for f w w'.
Proof. intros H. exists []. by rewrite app_nil_r. Qed.

Lemma neutral_emit f e w :
  (forall rest, f (e :: rest) = f rest) -> neutral_for f w (emit e w).
Proof. intros H. exists [e]. split; [done|]. intros rest. apply H. Qed.

Lemma store_audio_neutral f w p a w' : store_audio w p a = Done w' -> neutral_for f w w'.
Proof.
  unfold store_audio. destruct (heap w !! p) as [[]|]; try discriminate.
  intros [= <-]. by apply neutral_same.
Qed.

Lemma store_bytes_neutral f w p off src w' :
  store_bytes w p off src = Done w' -> neutral_for f w w'.
Proof.
  unfold store_bytes. destruct (heap w !! p) as [[]|]; try discriminate.
  case_decide; [|discriminate]. intros [= <-]. by apply neutral_same.
Qed.

Lemma encode_and_dispatch_owner env w p w' :
  encode_and_dispatch env w p = Done w' -> neutral_for (copies_handed_over None) w w'.
Proof.
  unfold encode_and_dispatch. intros H.
  apply bind_Done in H as (a & Ea & H). apply bind_Done in H as (pcm & Ep & H).
  apply bind_Done in H as ([[w1 rc] xl] & Ee & H).
  unfold AacEncoder_encode in Ee.
  destruct (encode_ret env (n_enc w) pcm) as [rc' out].
  apply bind_Done in Ee as (w0 & Es & Ee). injection Ee as <- <- <-.
  eapply neutral_trans; [eapply store_bytes_neutral; exact Es|].
  eapply neutral_trans; [apply (neutral_same _ _ (tick_enc w0)); reflexivity|].
  eapply neutral_trans;
    [apply (neutral_emit _ (EvEncode pcm (uPcmTimestamp a) rc')); reflexivity|].
  case_decide; [injection H as <-; by apply neutral_emit|].
  case_decide; [injection H as <-; by apply neutral_emit|].
  unfold KVS_MALLOC in H. cbn [n_malloc tick_enc emit] in H.
  destruct (malloc_ret env (n_malloc w0)).
  - cbn [alloc] in H. case_decide as Hnull.
    + injection H as <-. eexists [_; _]. cbn [trace emit LogError brk tick_malloc tick_enc].
      rewrite <- app_assoc. split; [reflexivity|]. intros rest. cbn.
      cbn [brk tick_malloc tick_enc emit] in Hnull. by rewrite decide_True.
    + apply bind_Done in H as (enc & El & H). apply bind_Done in H as (w2 & Ec & H).
      unfold KvsApp_addFrame in H. apply bind_Done in H as (data & Ed & H).
      injection H as <-.
      unfold store_bytes in Ec. destruct (heap _ !! _) as [[]|]; try discriminate.
      case_decide; [|discriminate]. injection Ec as <-.
      eexists [_; _]. cbn [trace emit set_heap brk tick_malloc tick_enc].
      rewrite <- app_assoc. split; [reflexivity|]. intros rest. cbn.
      cbn [brk tick_malloc tick_enc emit] in Hnull.
      rewrite decide_False by exact Hnull. by rewrite bool_decide_true.
  - rewrite decide_True in H by done. injection H as <-.
    eexists [_; _]. cbn [trace emit LogError tick_malloc tick_enc].
    rewrite <- app_assoc. split; [reflexivity|]. intros rest. cbn.
    by rewrite decide_True.
Qed.

Lemma sendAudioFrame_while_owner env p frm :
  forall fuel x w w',
    sendAudioFrame_while fuel env p frm x w = Done w' ->
    neutral_for (copies_handed_over None) w w'.
Proof.
  induction fuel as [|fuel IH]; intros x w w' H; [discriminate|].
  cbn [sendAudioFrame_while] in H.
  case_decide; [|injection H as <-; apply neutral_refl].
  inv_bind H. case_decide.
  - inv_bind H. inv_bind H. inv_bind H.
    eapply neutral_trans; [eapply store_bytes_neutral; eassumption|].
    eapply neutral_trans; [eapply store_audio_neutral; eassumption|].
    eapply IH; eassumption.
  - inv_bind H. inv_bind H. inv_bind H. inv_bind H. inv_bind H. inv_bind H. inv_bind H.
    eapply neutral_trans; [eapply store_bytes_neutral; eassumption|].
    eapply neutral_trans; [eapply store_audio_neutral; eassumption|].
    eapply neutral_trans; [eapply encode_and_dispatch_owner; eassumption|].
    eapply neutral_trans; [eapply store_audio_neutral; eassumption|].
    eapply IH; eassumption.
Qed.

(** X16.  [sendAudioFrame] neither leaks nor releases: every output copy
    it obtains from KVS_MALLOC is handed to KvsApp_addFrame at once, each
    submission is the copy allocated just before, and KVS_FREE is never
    called, whatever the encoder and the allocator answer. *)
Theorem X16_sendAudioFrame_hands_over_every_copy fuel env w p frm w' r :
  sendAudioFrame fuel env w p frm = Done (w', r) ->
  exists tr, trace w' = trace w ++ tr /\ copies_handed_over None tr = true.
Proof.
  intros H.
  assert (neutral_for (copies_handed_over None) w w') as (tr & Ht & Hn).
  { unfold sendAudioFrame in H. destruct frm as [frm|].
    2:{ injection H as <- <-. by apply neutral_emit. }
    case_decide; [injection H as <- <-; by apply neutral_emit|].
    apply bind_Done in H as (a & Ea & H). apply bind_Done in H as (w1 & Es & H).
    apply bind_Done in H as (w2 & Ew & H). injection H as <- <-.
    eapply neutral_trans; [|eapply sendAudioFrame_while_owner; exact Ew].
    case_decide; [|injection Es as <-; apply neutral_refl].
    unfold getEpochTimestampInMs in Es.
    eapply neutral_trans; [|eapply store_audio_neutral; exact Es].
    eapply neutral_trans; [|apply neutral_emit; reflexivity]. by apply neutral_same. }
  exists tr. split; [exact Ht|]. specialize (Hn []). by rewrite app_nil_r in Hn.
Qed.

Lemma demo_world_sent_eq :
  sendAudioFrame 101 (demo_env 64) (demo_world 64) demo_handle
    (Some (mkFrame (ramp 0 100) 100)) = Done (demo_world_sent, ERRNO_NONE).
Proof. vm_compute. reflexivity. Qed.

Lemma X16_witness :
  exists tr,
    trace demo_world_sent = trace (demo_world 64) ++ tr /\
    copies_handed_over None tr = true.
Proof.
  exact (X16_sendAudioFrame_hands_over_every_copy 101 (demo_env 64) (demo_world 64)
           demo_handle (Some (mkFrame (ramp 0 100) 100)) demo_world_sent ERRNO_NONE
           demo_world_sent_eq).
Defined.

(** ** The worker when a frame cannot be fetched *)

(** X17.  One failed IMP_AI_GetFrame ends the capture for good, requested
    or not: the worker logs, leaves its loop without encoding anything,
    attempts the channel disable, sets [isTerminated] and returns a code
    that is not ERRNO_NONE (the line of the fetch error, or that of the
    teardown error when the teardown fails too). *)
Theorem X17_failed_fetch_stops_the_worker fuel env p res w a :
  load_audio w p = Done a ->
  imp_ret env (n_imp w) IMP_AI_PollingFrame = 0 ->
  imp_ret env (S (n_imp w)) IMP_AI_GetFrame <> 0 ->
  exists w' res' tr,
    thread_step fuel env (mkThread p (WPolling res)) w
      = Done (w', mkThread p (WExited res')) /\
    (res' = 240 \/ res' = 267) /\
    load_audio w' p = Done (set_isTerminated true a) /\
    trace w' = trace w ++ tr /\
    encoded_blocks tr = [] /\ submissions tr = [] /\
    In (EvLogError "Audio Get Frame Data error") tr /\
    (exists rc, In (EvImp IMP_AI_DisableChn rc) tr) /\
    last tr = Some (EvSetTerminated p).
Proof.
  intros Ha Hpoll Hget.
  unfold thread_step, audioThread_iter, IMP_GetFrame, IMP. cbn [th_state th_arg].
  rewrite Hpoll. rewrite decide_False by (intros X; by apply X).
  cbn [n_imp emit tick_imp]. rewrite decide_True by exact Hget. cbn [bind].
  unfold audioThread_teardown. cbn [imp_any_fails]. unfold IMP.
  cbn [n_imp emit tick_imp LogError].
  unfold load_audio in Ha. destruct (heap w !! p) as [[]|] eqn:Hh; try discriminate.
  injection Ha as ->.
  set (rc1 := imp_ret env (S (S (n_imp w))) IMP_AI_DisableChn).
  destruct (decide (rc1 <> 0)) as [H1|H1].
  - unfold audioThread_exit, load_audio, store_audio. cbn [heap emit tick_imp LogError].
    rewrite Hh. cbn [bind].
    eexists _, 267, _. split; [reflexivity|]. split; [by right|].
    unfold load_audio. cbn [heap trace emit set_heap tick_imp LogError]. rewrite lookup_insert_eq.
    split; [reflexivity|]. rewrite <- !app_assoc. split; [reflexivity|].
    split; [reflexivity|]. split; [reflexivity|].
    split; [cbn; tauto|]. split; [exists rc1; cbn; tauto|]. reflexivity.
  - set (rc2 := imp_ret env (S (S (S (n_imp w)))) IMP_AI_Disable).
    destruct (decide (rc2 <> 0)) as [H2|H2].
    + unfold audioThread_exit, load_audio, store_audio. cbn [heap emit tick_imp LogError].
      rewrite Hh. cbn [bind].
      eexists _, 267, _. split; [reflexivity|]. split; [by right|].
      unfold load_audio. cbn [heap trace emit set_heap tick_imp LogError]. rewrite lookup_insert_eq.
      split; [reflexivity|]. rewrite <- !app_assoc. split; [reflexivity|].
      split; [reflexivity|]. split; [reflexivity|].
      split; [cbn; tauto|]. split; [exists rc1; cbn; tauto|]. reflexivity.
    + unfold audioThread_exit, load_audio, store_audio. cbn [heap emit tick_imp LogError].
      rewrite Hh. cbn [bind].
      eexists _, 240, _. split; [reflexivity|]. split; [by left|].
      unfold load_audio. cbn [heap trace emit set_heap tick_imp LogError]. rewrite lookup_insert_eq.
      split; [reflexivity|]. rewrite <- !app_assoc. split; [reflexivity|].
      split; [reflexivity|]. split; [reflexivity|].
      split; [cbn; tauto|]. split; [exists rc1; cbn; tauto|]. reflexivity.
Qed.

Lemma X17_witness :
  exists w' res' tr,
    thread_step 101 (nofetch_env 64) (mkThread demo_handle (WPolling 0)) (demo_world 64)
      = Done (w', mkThread demo_handle (WExited res')) /\
    (res' = 240 \/ res' = 267) /\
    load_audio w' demo_handle = Done (set_isTerminated true (demo_audio 64)) /\
    trace w' = trace (demo_world 64) ++ tr /\
    encoded_blocks tr = [] /\ submissions tr = [] /\
    In (EvLogError "Audio Get Frame Data error") tr /\
    (exists rc, In (EvImp IMP_AI_DisableChn rc) tr) /\
    last tr = Some (EvSetTerminated demo_handle).
Proof.
  apply (X17_failed_fetch_stops_the_worker 101 (nofetch_env 64) demo_handle 0
           (demo_world 64) (demo_audio 64)).
  - exact demo_audio_eq.
  - reflexivity.
  - discriminate.
Defined.

(** ** What [sendAudioFrame] writes *)

Section Footprint.

Variables (b0 : Z) (p : ptr) (a0 : T31Audio_t).
Hypothesis Hp : p < b0.

Lemma step_ok_refl w : step_ok b0 p a0 w w.
Proof. intros H. split; [exact H|]. by intros q. Qed.

Lemma step_ok_from w1 w2 w3 :
  step_ok b0 p a0 w1 w2 -> (send_state b0 p a0 w2 -> step_ok b0 p a0 w2 w3) ->
  step_ok b0 p a0 w1 w3.
Proof.
  intros H12 H23 S1. destruct (H12 S1) as [S2 K12]. destruct (H23 S2 S2) as [S3 K23].
  split; [exact S3|]. intros q Hq Hk. rewrite (K23 q Hq Hk). by apply K12.
Qed.

Lemma step_ok_trans w1 w2 w3 :
  step_ok b0 p a0 w1 w2 -> step_ok b0 p a0 w2 w3 -> step_ok b0 p a0 w1 w3.
Proof. intros H12 H23. eapply step_ok_from; [exact H12|intros _; exact H23]. Qed.

Lemma step_ok_same w w' : heap w' = heap w -> brk w' = brk w -> step_ok b0 p a0 w w'.
Proof.
  intros Hh Hb [Hbrk Ha]. split; [split; [lia|by rewrite Hh]|].
  intros q _ _. by rewrite Hh.
Qed.

Lemma fixed_part_ptrs a :
  fixed_part a = fixed_part a0 -> pPcmBuf a = pPcmBuf a0 /\ pFrameBuf a = pFrameBuf a0.
Proof.
  intros H. split; [exact (f_equal pPcmBuf H)|exact (f_equal pFrameBuf H)].
Qed.

Lemma send_state_load w a :
  send_state b0 p a0 w -> load_audio w p = Done a -> fixed_part a = fixed_part a0.
Proof.
  intros [_ (a' & Ha & Hf)]. unfold load_audio. rewrite Ha. by intros [= <-].
Qed.

(** the handle is rewritten with other accumulator fields *)
Lemma step_ok_store_audio w a w' :
  fixed_part a = fixed_part a0 -> store_audio w p a = Done w' -> step_ok b0 p a0 w w'.
Proof.
  intros Hf. unfold store_audio. destruct (heap w !! p) as [[]|]; try discriminate.
  intros [= <-] [Hbrk _]. split.
  - split; [exact Hbrk|]. exists a. cbn. by rewrite lookup_insert_eq.
  - intros q _ Hk. cbn. rewrite lookup_insert_ne; [done|].
    intros <-. apply Hk. unfold footprint. rewrite !elem_of_cons. auto.
Qed.

(** bytes are written to one of the two buffers, or to a new object *)
Lemma step_ok_store_bytes w tgt off src w' :
  tgt = pPcmBuf a0 \/ tgt = pFrameBuf a0 \/ b0 <= tgt ->
  store_bytes w tgt off src = Done w' -> step_ok b0 p a0 w w'.
Proof.
  intros Ht. unfold store_bytes. destruct (heap w !! tgt) as [[]|] eqn:Hh; try discriminate.
  case_decide; [|discriminate]. intros [= <-] [Hbrk (a & Ha & Hf)]. split.
  - split; [exact Hbrk|]. exists a. cbn. rewrite lookup_insert_ne; [done|].
    intros <-. rewrite Ha in Hh. discriminate.
  - intros q Hq Hk. cbn. rewrite lookup_insert_ne; [done|].
    intros E. rewrite E in Ht.
    destruct Ht as [E'|[E'|Ht]]; [| |lia]; apply Hk; rewrite E'; unfold footprint;
      rewrite !elem_of_cons; auto.
Qed.

Lemma step_ok_alloc o w : step_ok b0 p a0 w (alloc o w).1.
Proof.
  intros [Hbrk (a & Ha & Hf)]. split.
  - split; [cbn; lia|]. exists a. cbn. rewrite lookup_insert_ne by lia. done.
  - intros q Hq _. cbn. rewrite lookup_insert_ne by lia. done.
Qed.

Lemma step_ok_encode_and_dispatch env w w' :
  encode_and_dispatch env w p = Done w' -> step_ok b0 p a0 w w'.
Proof.
  unfold encode_and_dispatch. intros H S0.
  apply bind_Done in H as (a & Ea & H). apply bind_Done in H as (pcm & Ep & H).
  apply bind_Done in H as ([[w1 rc] xl] & Ee & H).
  destruct (fixed_part_ptrs a (send_state_load _ _ S0 Ea)) as [Hpcm Hfrm].
  unfold AacEncoder_encode in Ee.
  destruct (encode_ret env (n_enc w) pcm) as [rc' out].
  apply bind_Done in Ee as (w0 & Es & Ee). injection Ee as <- <- <-.
  revert S0. change (step_ok b0 p a0 w w').
  eapply step_ok_trans;
    [eapply step_ok_store_bytes; [|exact Es]; right; left; exact Hfrm|].
  eapply (step_ok_trans _ (emit (EvEncode pcm (uPcmTimestamp a) rc') (tick_enc w0)));
    [by apply step_ok_same|].
  case_decide; [injection H as <-; by apply step_ok_same|].
  case_decide; [injection H as <-; by apply step_ok_same|].
  unfold KVS_MALLOC in H. cbn [n_malloc tick_enc emit] in H.
  destruct (malloc_ret env (n_malloc w0)).
  2:{ rewrite decide_True in H by done. injection H as <-. by apply step_ok_same. }
  match type of H with context [alloc ?o ?wa] =>
    eapply (step_ok_from _ wa); [by apply step_ok_same|]; intros [Hb _];
    eapply step_ok_trans; [exact (step_ok_alloc o wa)|]
  end.
  cbn [alloc] in H |- *. cbn [fst].
  match type of H with context [emit ?e ?wb] =>
    eapply (step_ok_trans _ (emit e wb)); [by apply step_ok_same|]
  end.
  case_decide; [injection H as <-; by apply step_ok_same|].
  apply bind_Done in H as (enc & El & H). apply bind_Done in H as (w2 & Ec & H).
  unfold KvsApp_addFrame in H. apply bind_Done in H as (data & Ed & H).
  injection H as <-.
  eapply step_ok_trans; [|by apply step_ok_same].
  refine (step_ok_store_bytes _ _ _ _ _ _ Ec). right. right. exact Hb.
Qed.

Lemma step_ok_while env frm :
  forall fuel x w w',
    sendAudioFrame_while fuel env p frm x w = Done w' -> step_ok b0 p a0 w w'.
Proof.
  induction fuel as [|fuel IH]; intros x w w' H; [discriminate|].
  cbn [sendAudioFrame_while] in H.
  case_decide; [|injection H as <-; apply step_ok_refl].
  intros S0. apply bind_Done in H as (a & Ea & H).
  pose proof (send_state_load _ _ S0 Ea) as Hf.
  destruct (fixed_part_ptrs a Hf) as [Hpcm Hfrm].
  revert S0. change (step_ok b0 p a0 w w').
  case_decide.
  - apply bind_Done in H as (src & Esrc & H). apply bind_Done in H as (w1 & Eb & H).
    apply bind_Done in H as (w2 & Es & H).
    eapply step_ok_trans; [eapply step_ok_store_bytes; [|exact Eb]; left; exact Hpcm|].
    eapply step_ok_trans; [eapply step_ok_store_audio; [|exact Es]; exact Hf|].
    eapply IH; exact H.
  - apply bind_Done in H as (src & Esrc & H). apply bind_Done in H as (w1 & Eb & H).
    apply bind_Done in H as (w2 & Es & H). apply bind_Done in H as (w3 & Ed & H).
    apply bind_Done in H as (a3 & El & H). apply bind_Done in H as (d & Et & H).
    apply bind_Done in H as (w4 & Es4 & H).
    eapply (step_ok_from _ w3).
    { eapply step_ok_trans; [eapply step_ok_store_bytes; [|exact Eb]; left; exact Hpcm|].
      eapply step_ok_trans; [eapply step_ok_store_audio; [|exact Es]; exact Hf|].
      eapply step_ok_encode_and_dispatch; exact Ed. }
    intros S3. eapply step_ok_trans; [|eapply IH; exact H].
    eapply step_ok_store_audio; [|exact Es4].
    rewrite <- (send_state_load _ _ S3 El). reflexivity.
Qed.

End Footprint.

(** X18.  [sendAudioFrame] writes to the handle, to its PCM buffer, to its
    encoded-frame buffer and to the output copies it allocates, and to
    nothing else: every other object that existed before the call (the
    lock, the track info and its codec private data, the encoder) is left
    as it was, and so is every field of the handle apart from [uPcmOffset]
    and [uPcmTimestamp]. *)
Theorem X18_sendAudioFrame_footprint fuel env w p frm a w' r :
  load_audio w p = Done a -> p < brk w ->
  sendAudioFrame fuel env w p frm = Done (w', r) ->
  (forall q, q < brk w -> q ∉ footprint p a -> heap w' !! q = heap w !! q) /\
  exists a', load_audio w' p = Done a' /\ fixed_part a' = fixed_part a.
Proof.
  intros Ha Hp H.
  assert (send_state (brk w) p a w) as S0.
  { split; [lia|]. exists a. split; [|done].
    unfold load_audio in Ha. destruct (heap w !! p) as [[]|]; try discriminate.
    by injection Ha as ->. }
  assert (step_ok (brk w) p a w w') as Hstep.
  { unfold sendAudioFrame in H. destruct frm as [frm|].
    2:{ injection H as <- <-. by apply step_ok_same. }
    case_decide; [injection H as <- <-; by apply step_ok_same|].
    apply bind_Done in H as (a1 & Ea & H). apply bind_Done in H as (w1 & Es & H).
    apply bind_Done in H as (w2 & Ew & H). injection H as <- <-.
    rewrite Ha in Ea. injection Ea as <-.
    eapply step_ok_trans; [|eapply step_ok_while; [exact Hp|exact Ew]].
    case_decide; [|injection Es as <-; apply step_ok_refl].
    unfold getEpochTimestampInMs in Es.
    eapply step_ok_trans; [|refine (step_ok_store_audio _ _ _ _ _ _ _ Es); reflexivity].
    by apply step_ok_same. }
  destruct (Hstep S0) as [[_ (a' & Ha' & Hf)] Hk].
  split; [exact Hk|]. exists a'. split; [|exact Hf].
  unfold load_audio. by rewrite Ha'.
Qed.

Lemma X18_witness :
  (forall q, q < brk (demo_world 64) -> q ∉ footprint demo_handle (demo_audio 64) ->
     heap demo_world_sent !! q = heap (demo_world 64) !! q) /\
  exists a', load_audio demo_world_sent demo_handle = Done a' /\
             fixed_part a' = fixed_part (demo_audio 64).
Proof.
  refine (X18_sendAudioFrame_footprint 101 (demo_env 64) (demo_world 64) demo_handle
            (Some (mkFrame (ramp 0 100) 100)) (demo_audio 64) demo_world_sent ERRNO_NONE
            demo_audio_eq _ demo_world_sent_eq).
  reflexivity.
Defined.

(** ** The life cycle, end to end *)

(** X19.  The happy path of the public interface: on a device that
    answers every call, with a worker that runs whenever the caller sleeps
    and an encoder that reports a block size that is not 0, every handle
    returned by [T31Audio_create] can be terminated: [T31Audio_terminate]
    returns after two sleeps at most, the worker has shut the device down
    and exited, and the handle is released. *)
Theorem X19_create_then_terminate fuel env h w w1 p :
  heap_ok w -> threads w = [] ->
  responsive fuel env -> (3 <= fuel)%nat -> (forall k, sched env k = [0%nat]) ->
  (forall k n, aac_create_ret env k = Some n -> to_size n <> 0) ->
  T31Audio_create fuel env h w = Done (w1, p) -> p <> NULL ->
  exists w2 tr r,
    T31Audio_terminate fuel env p w1 = Done w2 /\
    heap w2 !! p = None /\
    threads w2 !! 0%nat = Some (mkThread p (WExited r)) /\
    trace w2 = trace w1 ++ tr /\
    (sleeps tr <= 2)%nat /\ In (EvImp IMP_AI_Disable 0) tr /\ frees tr = [p].
Proof.
  intros Hok Hth Hresp Hfuel Hs Hn Hc Hp.
  destruct (T31Audio_create_ready fuel env h w w1 p Hok Hn Hc Hp)
    as (a & buf & Ha & _ & _ & Hrun & _ & _ & _ & Hth1 & Htid & _).
  rewrite Hth in Hth1, Htid. cbn in Hth1, Htid.
  apply (terminate_responsive fuel env p 0%nat WReady w1 a buf Hresp Hfuel Hs Ha Hrun).
  - by rewrite Hth1.
  - by left.
  - exact Htid.
Qed.

Lemma X19_witness :
  exists w2 tr r,
    T31Audio_terminate 101 (demo_env 64) demo_handle (demo_world 64) = Done w2 /\
    heap w2 !! demo_handle = None /\
    threads w2 !! 0%nat = Some (mkThread demo_handle (WExited r)) /\
    trace w2 = trace (demo_world 64) ++ tr /\
    (sleeps tr <= 2)%nat /\ In (EvImp IMP_AI_Disable 0) tr /\ frees tr = [demo_handle].
Proof.
  apply (X19_create_then_terminate 101 (demo_env 64) 77 world0 (demo_world 64) demo_handle).
  - exact heap_ok_world0.
  - reflexivity.
  - apply demo_env_responsive.
  - lia.
  - reflexivity.
  - intros k n [= <-]. discriminate.
  - vm_compute. reflexivity.
  - discriminate.
Defined.

(** ** Two edge cases *)

(** X20.  The NULL check of the worker does not protect its last
    statement: started with a NULL argument, [audioThread] logs "Invalid
    parameter", skips the device, and then stores [isTerminated] through
    the NULL pointer (line 271). *)
Theorem X20_worker_null_argument_faults fuel env w :
  heap w !! NULL = None -> audioThread fuel env NULL w = Fault.
Proof.
  intros H. unfold audioThread, audioThread_begin.
  rewrite decide_True by done. cbn [bind].
  unfold audioThread_exit, load_audio. cbn [heap LogError emit]. by rewrite H.
Qed.

Lemma X20_witness : audioThread 1 (demo_env 64) NULL world0 = Fault.
Proof. apply X20_worker_null_argument_faults. reflexivity. Defined.

(** an encode-and-dispatch leaves the handle as it is *)
Lemma encode_and_dispatch_handle env w p a w' :
  heap w !! p = Some (OAudio a) -> p < brk w ->
  encode_and_dispatch env w p = Done w' ->
  heap w' !! p = Some (OAudio a) /\ brk w <= brk w'.
Proof.
  intros Hh Hp H. unfold encode_and_dispatch in H.
  apply bind_Done in H as (a1 & Ea & H). apply bind_Done in H as (pcm & Ep & H).
  apply bind_Done in H as ([[w1 rc] xl] & Ee & H).
  unfold AacEncoder_encode in Ee.
  destruct (encode_ret env (n_enc w) pcm) as [rc' out].
  apply bind_Done in Ee as (w0 & Es & Ee). injection Ee as <- <- <-.
  apply store_bytes_inv in Es as (bs & Hf & ->).
  assert (pFrameBuf a1 <> p) as Hne by (intros E; subst p; pose proof (eq_trans (eq_sym Hf) Hh) as X; discriminate X).
  destruct (decide (rc' <> 0)).
  { injection H as <-. cbn. rewrite lookup_insert_ne by done. split; [done|lia]. }
  destruct (decide (to_size _ = 0)).
  { injection H as <-. cbn. rewrite lookup_insert_ne by done. split; [done|lia]. }
  unfold KVS_MALLOC in H. cbn [n_malloc tick_enc emit set_heap] in H.
  destruct (malloc_ret env (n_malloc w)).
  2:{ rewrite decide_True in H by done. injection H as <-. cbn.
      rewrite lookup_insert_ne by done. split; [done|lia]. }
  cbn [alloc brk heap tick_malloc tick_enc emit set_heap] in H.
  match type of H with (if ?d then _ else _) = _ => destruct d end.
  { injection H as <-. cbn. rewrite lookup_insert_ne by lia.
    rewrite lookup_insert_ne by done. split; [done|lia]. }
  apply bind_Done in H as (enc & El & H). apply bind_Done in H as (w2 & Ec & H).
  unfold KvsApp_addFrame in H. apply bind_Done in H as (data & Ed & H).
  injection H as <-.
  apply store_bytes_inv in Ec as (bs2 & _ & ->). cbn.
  rewrite !lookup_insert_ne by lia. split; [done|lia].
Qed.

(** with an empty PCM buffer of size 0 the copy loop makes no progress *)
Lemma sendAudioFrame_while_zero env (p : ptr) frm x :
  0 <= x < len frm -> len frm <= INT_MAX ->
  forall fuel w a,
    heap w !! p = Some (OAudio a) -> p < brk w ->
    uPcmBufSize a = 0 -> uPcmOffset a = 0 ->
    result_is_done (sendAudioFrame_while fuel env p frm x w) = false.
Proof.
  intros Hx Hl. induction fuel as [|fuel IH]; intros w a Hh Hp Hsz Hoff; [done|].
  destruct (sendAudioFrame_while (S fuel) env p frm x w) as [w'| |] eqn:H; [|done|done].
  exfalso. cbn [sendAudioFrame_while] in H.
  rewrite decide_True in H by lia.
  rewrite (load_audio_intro _ _ _ Hh) in H. cbn [bind] in H.
  rewrite Hsz, Hoff in H. change (to_size (0 - 0)) with 0 in H.
  assert (0 <= to_size (len frm - x)) as Hpos
    by (unfold to_size; apply Z.mod_pos_bound; done).
  rewrite decide_False in H by lia.
  apply bind_Done in H as (src & Esrc & H). apply bind_Done in H as (w1 & Eb & H).
  apply bind_Done in H as (w2 & Es & H). apply bind_Done in H as (w3 & Ed & H).
  apply bind_Done in H as (a3 & El & H). apply bind_Done in H as (d & Et & H).
  apply bind_Done in H as (w4 & Es4 & H).
  assert (to_int (to_size x + 0) = x) as Hx'.
  { rewrite Z.add_0_r, to_size_small by (unfold SIZE_MOD, INT_MAX in *; lia).
    apply to_int_small. unfold INT_MAX in *. lia. }
  rewrite Hx' in H.
  apply store_bytes_inv in Eb as (bs & Hpcm & ->).
  assert (pPcmBuf a <> p) as Hne
    by (intros E; subst p; pose proof (eq_trans (eq_sym Hpcm) Hh) as X; discriminate X).
  apply store_audio_inv in Es as [_ ->].
  eapply encode_and_dispatch_handle in Ed as [Hh3 Hb3];
    [|cbn; apply lookup_insert_eq|exact Hp].
  rewrite (load_audio_intro _ _ _ Hh3) in El. injection El as <-.
  apply store_audio_inv in Es4 as [_ ->].
  cbn [brk set_heap] in Hb3.
  match type of H with sendAudioFrame_while _ _ _ _ _ ?w5 = _ =>
    assert (result_is_done (sendAudioFrame_while fuel env p frm x w5) = false) as Hno
  end.
  { eapply IH; [cbn; apply lookup_insert_eq|cbn; lia|cbn; exact Hsz|reflexivity]. }
  rewrite H in Hno. discriminate.
Qed.

(** X21.  An encoder block size of 0 makes [sendAudioFrame] spin: with
    [uPcmBufSize] 0 and an empty PCM buffer, a frame that carries at least
    one byte keeps the copy loop on its first byte, each round encoding an
    empty block; however many rounds it is given the call does not return
    (it runs on, or faults on the way). *)
Theorem X21_zero_block_size_never_returns fuel env w (p : ptr) frm a :
  load_audio w p = Done a -> p <> NULL -> p < brk w ->
  uPcmBufSize a = 0 -> uPcmOffset a = 0 ->
  0 < len frm <= INT_MAX ->
  result_is_done (sendAudioFrame fuel env w p (Some frm)) = false.
Proof.
  intros Ha Hp Hb Hsz Hoff Hl. unfold sendAudioFrame.
  rewrite decide_False by exact Hp. rewrite Ha. cbn [bind].
  apply load_audio_inv in Ha.
  rewrite decide_True by exact Hoff.
  unfold getEpochTimestampInMs, store_audio. cbn [heap emit tick_clock].
  rewrite Ha. cbn [bind].
  match goal with |- context [sendAudioFrame_while fuel env p frm 0 ?w1] =>
    pose proof (sendAudioFrame_while_zero env p frm 0 ltac:(lia) ltac:(lia) fuel w1
                  (set_uPcmTimestamp (to_u64 (clock_ret env (n_clock w))) a)
                  ltac:(cbn; apply lookup_insert_eq) ltac:(exact Hb) Hsz Hoff) as Hno;
    destruct (sendAudioFrame_while fuel env p frm 0 w1)
  end; [discriminate|done|done].
Qed.

Lemma X21_witness :
  result_is_done (sendAudioFrame 1000 (demo_env 64) demo_world_zero demo_handle
                    (Some (mkFrame (ramp 0 100) 100))) = false.
Proof.
  apply (X21_zero_block_size_never_returns 1000 (demo_env 64) demo_world_zero demo_handle
           (mkFrame (ramp 0 100) 100) (set_uPcmBufSize 0 (demo_audio 64))).
  - vm_compute. reflexivity.
  - discriminate.
  - reflexivity.
  - reflexivity.
  - reflexivity.
  - split; [reflexivity|discriminate].
Defined.
